(** * Folderize: content-addressed attachment placement

    A shallow embedding of the placement engine of the Folderize plugin
    ([src/organize.ts]: [DirectoryManager] and [FileOrganizer]) together
    with the older revision of the same engine that ships next to it
    ([calculateChecksum], [createDirectoryRecursive], [findEmptyFolders]).

    The host application (the Obsidian vault), Node's [path] module and
    Node's [crypto] hash object are collaborators whose code is not part of
    the plugin; they are given executable models below, each in a module of
    its own, so that every function of the plugin can be run on a concrete
    vault. *)

From Stdlib Require Import List String Ascii Bool.
From Stdlib.Strings Require Import Byte.
From Stdlib Require Import ZArith NArith Lia.
From Stdlib Require Import Permutation.
Import ListNotations.

Local Open Scope string_scope.
Local Open Scope list_scope.
Set Warnings "-register-all".

(** ** JavaScript strings and numbers *)

Module JS.

(** Truthiness of a string: only the empty string is falsy. *)
Definition truthy (s : string) : bool :=
  match s with
  | EmptyString => false
  | String _ _ => true
  end.

(** [parts.join(sep)] *)
Fixpoint join (sep : string) (parts : list string) : string :=
  match parts with
  | [] => EmptyString
  | [p] => p
  | p :: rest => String.append p (String.append sep (join sep rest))
  end.

(** [s.split("/")]: the pieces between the separators; a string without
    separator is the only piece, the empty string gives one empty piece. *)
Fixpoint split_slash_aux (s : string) (cur : string) : list string :=
  match s with
  | EmptyString => [cur]
  | String c rest =>
      if Ascii.eqb c "/"%char
      then cur :: split_slash_aux rest EmptyString
      else split_slash_aux rest (String.append cur (String c EmptyString))
  end.

Definition split_slash (s : string) : list string :=
  split_slash_aux s EmptyString.

(** Digits of [Number.prototype.toString(radix)]. *)
Definition digits : list ascii :=
  list_ascii_of_string "0123456789abcdefghijklmnopqrstuvwxyz".

Definition digitChar (d : N) : ascii :=
  nth (N.to_nat d) digits "?"%char.

(** [n.toString(radix)] for a non-negative integer [n]: repeated division,
    least significant digit first, no leading zero; zero prints as [0]. *)
Fixpoint toString_aux (fuel : nat) (radix n : N) (acc : string) : string :=
  match fuel with
  | O => acc
  | S fuel' =>
      let acc' := String (digitChar (n mod radix)) acc in
      if (n / radix =? 0)%N then acc'
      else toString_aux fuel' radix (n / radix) acc'
  end.

Definition toString (radix n : N) : string :=
  toString_aux (S (N.size_nat n)) radix n EmptyString.

(** [padString] repeated and cut to [n] characters. *)
Fixpoint filler (fuel n : nat) (padString : string) : string :=
  match fuel with
  | O => EmptyString
  | S fuel' =>
      if Nat.leb n (String.length padString)
      then String.substring 0 n padString
      else String.append padString
             (filler fuel' (n - String.length padString) padString)
  end.

(** [s.padStart(targetLength, padString)] *)
Definition padStart (targetLength : nat) (padString s : string) : string :=
  if Nat.leb targetLength (String.length s) then s
  else if truthy padString
       then String.append
              (filler targetLength (targetLength - String.length s) padString) s
       else s.

(** [data.slice(begin, end)] on an [ArrayBuffer]: a negative index counts
    from the end, both indices are clamped to the buffer. *)
Definition slice (data : list byte) (begin end_ : Z) : list byte :=
  let len := Z.of_nat (List.length data) in
  let clamp := fun i : Z =>
    if (i <? 0)%Z then Z.max (len + i) 0 else Z.min i len in
  let first := clamp begin in
  let final := clamp end_ in
  firstn (Z.to_nat (Z.max (final - first) 0)) (skipn (Z.to_nat first) data).

Definition isWhiteSpace (c : ascii) : bool :=
  let n := nat_of_ascii c in
  Nat.eqb n 32 || (Nat.leb 9 n && Nat.leb n 13).

Fixpoint trimStart (s : string) : string :=
  match s with
  | String c rest => if isWhiteSpace c then trimStart rest else s
  | EmptyString => s
  end.

(** The value of a character as a digit of the radix, if it is one. *)
Definition digitValue (radix : Z) (c : ascii) : option Z :=
  let n := Z.of_nat (nat_of_ascii c) in
  let v :=
    if (48 <=? n)%Z && (n <=? 57)%Z then (n - 48)%Z
    else if (97 <=? n)%Z && (n <=? 122)%Z then (n - 87)%Z
    else if (65 <=? n)%Z && (n <=? 90)%Z then (n - 55)%Z
    else radix in
  if (v <? radix)%Z then Some v else None.

(** The longest prefix of digits, as a number; [None] without a digit. *)
Fixpoint parseDigits (radix : Z) (s : string) (acc : option Z) : option Z :=
  match s with
  | EmptyString => acc
  | String c rest =>
      match digitValue radix c with
      | Some v =>
          parseDigits radix rest
            (Some (match acc with
                   | Some a => a * radix + v
                   | None => v
                   end)%Z)
      | None => acc
      end
  end.

(** [parseInt(s)] without radix; [None] is [NaN]. *)
Definition parseInt (s : string) : option Z :=
  let s := trimStart s in
  let '(sign, s) :=
    match s with
    | String "-" rest => ((-1)%Z, rest)
    | String "+" rest => (1%Z, rest)
    | _ => (1%Z, s)
    end in
  let '(radix, s) :=
    match s with
    | String "0" (String "x" rest) => (16%Z, rest)
    | String "0" (String "X" rest) => (16%Z, rest)
    | _ => (10%Z, s)
    end in
  option_map (Z.mul sign) (parseDigits radix s None).

End JS.

(** ** Settings *)

Inductive LogLevel : Type := DEBUG | INFO | WARN | ERROR.

(** [FolderizeSettings] of [organize.ts].  [pathDepth] is a JavaScript
    number holding an integer. *)
Record FolderizeSettings : Type := mkSettings {
  attachmentPath : string;
  pathDepth : Z;
  enableAutoOrganize : bool;
  removeEmptyFolders : bool;
  logLevel : LogLevel
}.

Definition bytes : Type := list byte.

(** ** Node's [path] module (POSIX flavour) *)

Module NodePath.

Definition isSlash (c : ascii) : bool := Ascii.eqb c "/"%char.

Fixpoint dropSlashes (l : list ascii) : list ascii :=
  match l with
  | [] => []
  | c :: rest => if isSlash c then dropSlashes rest else l
  end.

Fixpoint takeName (l : list ascii) : list ascii :=
  match l with
  | [] => []
  | c :: rest => if isSlash c then [] else c :: takeName rest
  end.

(** [path.basename(p)]: scanning from the end, trailing separators are
    skipped, then the characters up to the next separator are kept. *)
Definition basename (p : string) : string :=
  string_of_list_ascii
    (rev (takeName (dropSlashes (rev (list_ascii_of_string p))))).

(** The scan of [path.dirname]: [l] holds the characters at the indices
    [length l], ..., [1] of the path in that order.  The answer is the
    part of [l] below the separator that ends the directory. *)
Fixpoint dirname_scan (l : list ascii) (matchedSlash : bool)
  : option (list ascii) :=
  match l with
  | [] => None
  | c :: rest =>
      if isSlash c
      then (if matchedSlash then dirname_scan rest true else Some rest)
      else dirname_scan rest false
  end.

(** [path.dirname(p)] *)
Definition dirname (p : string) : string :=
  match list_ascii_of_string p with
  | [] => "."
  | c0 :: tail =>
      let hasRoot := isSlash c0 in
      match dirname_scan (rev tail) true with
      | None => if hasRoot then "/" else "."
      | Some below =>
          if hasRoot && Nat.eqb (List.length below) 0 then "//"
          else string_of_list_ascii (c0 :: rev below)
      end
  end%string.

End NodePath.

(** ** Node's [crypto]: [createHash("sha256")]

    SHA-256 as in FIPS 180-4, on 32-bit words held in [N]. *)

Module Crypto.

Local Open Scope N_scope.

Definition wrap (x : N) : N := x mod 2 ^ 32.
Definition add32 (x y : N) : N := wrap (x + y).
Definition rotr (n x : N) : N :=
  N.lor (N.shiftr x n) (wrap (N.shiftl x (32 - n))).
Definition not32 (x : N) : N := N.lxor x (2 ^ 32 - 1).

Definition Ch (x y z : N) : N := N.lxor (N.land x y) (N.land (not32 x) z).
Definition Maj (x y z : N) : N :=
  N.lxor (N.lxor (N.land x y) (N.land x z)) (N.land y z).
Definition bigSigma0 (x : N) : N :=
  N.lxor (N.lxor (rotr 2 x) (rotr 13 x)) (rotr 22 x).
Definition bigSigma1 (x : N) : N :=
  N.lxor (N.lxor (rotr 6 x) (rotr 11 x)) (rotr 25 x).
Definition smallSigma0 (x : N) : N :=
  N.lxor (N.lxor (rotr 7 x) (rotr 18 x)) (N.shiftr x 3).
Definition smallSigma1 (x : N) : N :=
  N.lxor (N.lxor (rotr 17 x) (rotr 19 x)) (N.shiftr x 10).

(** The first sixty-four primes. *)
Definition primes : list N :=
  [2; 3; 5; 7; 11; 13; 17; 19; 23; 29; 31; 37; 41; 43; 47; 53;
   59; 61; 67; 71; 73; 79; 83; 89; 97; 101; 103; 107; 109; 113; 127; 131;
   137; 139; 149; 151; 157; 163; 167; 173; 179; 181; 191; 193; 197; 199;
   211; 223; 227; 229; 233; 239; 241; 251; 257; 263; 269; 271; 277; 281;
   283; 293; 307; 311].

(** Integer cube root, one bit at a time from bit [k - 1] down. *)
Fixpoint cbrt_bits (k : nat) (x r : N) : N :=
  match k with
  | O => r
  | S k' =>
      let r' := r + 2 ^ N.of_nat k' in
      cbrt_bits k' x (if r' * r' * r' <=? x then r' else r)
  end.

(** Round constants: the first 32 bits of the fractional parts of the
    cube roots of the primes. *)
Definition K : list N :=
  Eval vm_compute in map (fun p => wrap (cbrt_bits 40 (p * 2 ^ 96) 0)) primes.

(** Initial hash value: the first 32 bits of the fractional parts of the
    square roots of the first eight primes. *)
Definition H0 : list N :=
  Eval vm_compute in map (fun p => wrap (N.sqrt (p * 2 ^ 64))) (firstn 8 primes).

Definition word (l : list N) (i : nat) : N := nth i l 0.

(** Big-endian words of a block. *)
Fixpoint toWords (l : bytes) : list N :=
  match l with
  | a :: b :: c :: d :: rest =>
      (Byte.to_N a * 2 ^ 24 + Byte.to_N b * 2 ^ 16 + Byte.to_N c * 2 ^ 8
       + Byte.to_N d) :: toWords rest
  | _ => []
  end.

Definition byteOf (x : N) : byte :=
  match Byte.of_N (x mod 256) with
  | Some b => b
  | None => x00
  end.

Definition fromWord (w : N) : bytes :=
  [byteOf (N.shiftr w 24); byteOf (N.shiftr w 16); byteOf (N.shiftr w 8);
   byteOf w].

(** Message schedule: [n] more words after the ones in [W]. *)
Fixpoint schedule (n : nat) (W : list N) : list N :=
  match n with
  | O => W
  | S n' =>
      let t := List.length W in
      let w := add32 (add32 (smallSigma1 (word W (t - 2))) (word W (t - 7)))
                 (add32 (smallSigma0 (word W (t - 15))) (word W (t - 16))) in
      schedule n' (W ++ [w])
  end.

Definition round (s : list N) (kw : N * N) : list N :=
  match s with
  | [a; b; c; d; e; f; g; h] =>
      let T1 := add32 (add32 (add32 h (bigSigma1 e)) (Ch e f g))
                  (add32 (fst kw) (snd kw)) in
      let T2 := add32 (bigSigma0 a) (Maj a b c) in
      [add32 T1 T2; a; b; c; add32 d T1; e; f; g]
  | _ => s
  end.

Definition compress (H : list N) (block : bytes) : list N :=
  let W := schedule 48 (toWords block) in
  let s := fold_left round (combine K W) H in
  map (fun p => add32 (fst p) (snd p)) (combine H s).

Fixpoint blocks (fuel : nat) (H : list N) (l : bytes) : list N :=
  match fuel, l with
  | S fuel', _ :: _ => blocks fuel' (compress H (firstn 64 l)) (skipn 64 l)
  | _, _ => H
  end.

(** Padding: a one bit, zeros up to 56 modulo 64, the length in bits on
    eight bytes. *)
Definition pad (msg : bytes) : bytes :=
  let len := N.of_nat (List.length msg) in
  let zeros := N.to_nat ((64 - (len + 9) mod 64) mod 64) in
  let bits := len * 8 in
  msg ++ [x80] ++ repeat x00 zeros
      ++ fromWord (N.shiftr bits 32) ++ fromWord bits.

Definition sha256 (msg : bytes) : bytes :=
  let padded := pad msg in
  flat_map fromWord (blocks (List.length padded) H0 padded).

(** The hash object: [update] may be called any number of times and
    [digest] is the digest of all the data passed to it, in order. *)
Definition Hash : Type := bytes.
Definition createHash : Hash := [].
Definition update (hash : Hash) (chunk : bytes) : Hash := hash ++ chunk.
Definition digest (hash : Hash) : bytes := sha256 hash.

End Crypto.

(** ** The vault (host storage)

    The vault is a tree of files and folders.  A node is known to the
    plugin through its path, which is its identity in the vault; the path of
    a child is the path of its folder, a separator and the child's name, and
    the children of the vault root (path "/") have their name as path.
    [children] is the folder's own array: the vault changes it in place when
    a node is created, moved or deleted. *)

Inductive node : Type :=
| TFile (name : string) (data : option bytes)
    (* [data = None]: the adapter fails to read the file *)
| TFolder (name : string) (children : list node).

Inductive command : Type :=
| CreateFolder (path : string)
| Rename (from to : string)
| Delete (path : string).

Inductive error : Type :=
| ReadFault (path : string)
| StorageFault (c : command).

(** What the plugin writes to its logger and shows to the user. *)
Inductive message : Type :=
| CreatingDirectoryStructure (dir : string)
| RemovingEmptyDirectoriesFrom (path : string)
| RemovedEmptyDirectories (removedCount : nat)
| RemovingEmptyFolder (path : string)
| RemovedEmptyFolder (path : string)
| OrganizingFile (path : string)
| AlreadyInCorrectLocation (path : string)
| Moved (from to : string)
| OrganizingAttachments
| AttachmentFolderNotFound
| AttachmentFolderNotFoundAt (path : string)
| ProcessingFiles (count : nat) (path : string)
| OrganizationComplete (processedCount : nat)
| OrganizedAttachments (processedCount : nat)
| StartingCleanup
| RemovedEmptyDirectory (path : string)
| CleanupComplete (removedCount : nat)
| FoundEmptyFolders (count : nat)
| ErrorRemovingDirectory (path : string) (e : error)
| ErrorCalculatingChecksum (e : error)
| ErrorOrganizingFile (path : string) (e : error)
| ErrorOrganizingAttachments (e : error)
| ErrorCleaning (e : error).

Inductive event : Type :=
| Logged (level : LogLevel) (m : message)
| Notice (m : message)
| Issued (c : command).

(** The state the plugin runs against: the children of the vault root, the
    folders the host refuses to delete, and what has been observed so
    far. *)
Record world : Type := mkWorld {
  root : list node;
  undeletable : list string;
  trace : list event
}.

Inductive outcome (A : Type) : Type :=
| Returned (a : A)
| Thrown (e : error)
| Hangs.

Arguments Returned {A} a.
Arguments Thrown {A} e.
Arguments Hangs {A}.

(** Asynchronous code of the plugin: every call is awaited, so a
    computation is a function of the world that returns, throws or never
    comes back. *)
Definition M (A : Type) : Type := world -> outcome A * world.

Definition ret {A : Type} (a : A) : M A := fun w => (Returned a, w).

Definition bind {A B : Type} (m : M A) (k : A -> M B) : M B :=
  fun w =>
    match m w with
    | (Returned a, w') => k a w'
    | (Thrown e, w') => (Thrown e, w')
    | (Hangs, w') => (Hangs, w')
    end.

Definition throw {A : Type} (e : error) : M A := fun w => (Thrown e, w).

Definition hang {A : Type} : M A := fun w => (Hangs, w).

(** [try { m } catch (error) { handler }] *)
Definition try_catch {A : Type} (m : M A) (handler : error -> M A) : M A :=
  fun w =>
    match m w with
    | (Thrown e, w') => handler e w'
    | r => r
    end.

Declare Scope folderize_scope.
Delimit Scope folderize_scope with fz.
Notation "x <- m ;; k" := (bind m (fun x => k))
  (at level 61, m at next level, right associativity) : folderize_scope.
Notation "m ;; k" := (bind m (fun _ => k))
  (at level 61, right associativity) : folderize_scope.
Local Open Scope folderize_scope.

Definition emit (e : event) : M unit :=
  fun w => (Returned tt, mkWorld (root w) (undeletable w) (trace w ++ [e])).

Definition setRoot (r : list node) : M unit :=
  fun w => (Returned tt, mkWorld r (undeletable w) (trace w)).

Definition getRoot : M (list node) := fun w => (Returned (root w), w).

Definition logger (level : LogLevel) (m : message) : M unit :=
  emit (Logged level m).

Definition notice (m : message) : M unit := emit (Notice m).

Module Vault.

Definition nodeName (n : node) : string :=
  match n with
  | TFile name _ => name
  | TFolder name _ => name
  end.

Definition isFolder (n : node) : bool :=
  match n with
  | TFile _ _ => false
  | TFolder _ _ => true
  end.

(** The path of the child [name] of the folder at [parent]. *)
Definition childPath (parent name : string) : string :=
  if String.eqb parent "/" then name
  else String.append parent (String.append "/" name).

(** The names on the way from the vault root to [path]. *)
Definition segments (path : string) : list string :=
  if String.eqb path "/" then [] else JS.split_slash path.

Fixpoint findChild (name : string) (children : list node) : option node :=
  match children with
  | [] => None
  | c :: rest =>
      if String.eqb (nodeName c) name then Some c else findChild name rest
  end.

Fixpoint lookup (segs : list string) (folder : node) : option node :=
  match segs with
  | [] => Some folder
  | s :: rest =>
      match folder with
      | TFile _ _ => None
      | TFolder _ children =>
          match findChild s children with
          | Some c => lookup rest c
          | None => None
          end
      end
  end.

Definition resolve (path : string) (r : list node) : option node :=
  lookup (segments path) (TFolder EmptyString r).

Fixpoint updateChild (name : string) (g : node -> option node)
  (children : list node) : option (list node) :=
  match children with
  | [] => None
  | c :: rest =>
      if String.eqb (nodeName c) name
      then option_map (fun c' => c' :: rest) (g c)
      else option_map (cons c) (updateChild name g rest)
  end.

(** Apply [f] to the children of the folder reached by [segs]. *)
Fixpoint updateAt (segs : list string)
  (f : list node -> option (list node)) (children : list node)
  : option (list node) :=
  match segs with
  | [] => f children
  | s :: rest =>
      updateChild s
        (fun c =>
           match c with
           | TFile _ _ => None
           | TFolder n ch => option_map (TFolder n) (updateAt rest f ch)
           end)
        children
  end.

Fixpoint removeChild (name : string) (children : list node)
  : option (list node) :=
  match children with
  | [] => None
  | c :: rest =>
      if String.eqb (nodeName c) name then Some rest
      else option_map (cons c) (removeChild name rest)
  end.

Definition addChild (c : node) (children : list node)
  : option (list node) :=
  match findChild (nodeName c) children with
  | Some _ => None
  | None => if JS.truthy (nodeName c) then Some (children ++ [c]) else None
  end.

Definition rename_node (name : string) (n : node) : node :=
  match n with
  | TFile _ data => TFile name data
  | TFolder _ children => TFolder name children
  end.

Definition parentOf (segs : list string) : list string := removelast segs.
Definition nameOf (segs : list string) : string := last segs EmptyString.

(** [vault.getAbstractFileByPath(path)] *)
Definition getAbstractFileByPath (path : string) : M (option node) :=
  fun w => (Returned (resolve path (root w)), w).

(** [vault.adapter.exists(path)] *)
Definition exists_ (path : string) : M bool :=
  fun w =>
    (Returned (match resolve path (root w) with
               | Some _ => true
               | None => false
               end), w).

(** [vault.adapter.readBinary(path)] *)
Definition readBinary (path : string) : M bytes :=
  fun w =>
    match resolve path (root w) with
    | Some (TFile _ (Some data)) => (Returned data, w)
    | _ => (Thrown (ReadFault path), w)
    end.

(** [vault.createFolder(path)]: the new folder becomes the last child of
    its parent; refused when the path is taken, the name is empty or the
    parent is not a folder of the vault. *)
Definition createFolder (path : string) : M unit :=
  emit (Issued (CreateFolder path));;
  r <- getRoot;;
  match segments path with
  | [] => throw (StorageFault (CreateFolder path))
  | segs =>
      match updateAt (parentOf segs)
              (addChild (TFolder (nameOf segs) [])) r with
      | Some r' => setRoot r'
      | None => throw (StorageFault (CreateFolder path))
      end
  end.

(** [vault.rename(file, newPath)]: the node leaves the children of its
    folder and becomes the last child of the folder of [newPath]; refused
    when [newPath] is taken or its folder does not exist. *)
Definition rename (file newPath : string) : M unit :=
  emit (Issued (Rename file newPath));;
  r <- getRoot;;
  let src := segments file in
  let dst := segments newPath in
  match src, dst, resolve file r with
  | _ :: _, _ :: _, Some n =>
      match updateAt (parentOf src) (removeChild (nameOf src)) r with
      | Some r1 =>
          match updateAt (parentOf dst)
                  (addChild (rename_node (nameOf dst) n)) r1 with
          | Some r2 => setRoot r2
          | None => throw (StorageFault (Rename file newPath))
          end
      | None => throw (StorageFault (Rename file newPath))
      end
  | _, _, _ => throw (StorageFault (Rename file newPath))
  end.

(** Whether the host refuses to delete the folder at [path]. *)
Definition denied (path : string) : M bool :=
  fun w => (Returned (existsb (String.eqb path) (undeletable w)), w).

(** [vault.delete(folder)]: the node, with everything below it, leaves the
    children of its folder. *)
Definition delete (path : string) : M unit :=
  emit (Issued (Delete path));;
  r <- getRoot;;
  refused <- denied path;;
  if refused then throw (StorageFault (Delete path))
  else
    match segments path with
    | [] => throw (StorageFault (Delete path))
    | segs =>
        match updateAt (parentOf segs) (removeChild (nameOf segs)) r with
        | Some r' => setRoot r'
        | None => throw (StorageFault (Delete path))
        end
    end.

End Vault.

(** ** [organize.ts]: [DirectoryManager] *)

Module DirectoryManager.

Fixpoint mkdirs_loop (parts : list string) (currentPath : string) : M unit :=
  match parts with
  | [] => ret tt
  | part :: rest =>
      let currentPath :=
        if JS.truthy currentPath
        then String.append currentPath (String.append "/" part)
        else part in
      present <- Vault.exists_ currentPath;;
      (if negb present then Vault.createFolder currentPath else ret tt);;
      mkdirs_loop rest currentPath
  end.

Definition mkdirs (dir : string) : M unit :=
  let parts := JS.split_slash dir in
  logger DEBUG (CreatingDirectoryStructure dir);;
  mkdirs_loop parts EmptyString.

(** The result of a pruning walk: the array [folder.children] after the
    call, what was logged and issued, and the returned count or the error of
    the first refused deletion. *)
Definition walk : Type := list node * list event * outcome nat.

(** [array[i] = x] and the removal of [array[i]], in place. *)
Definition setAt (i : nat) (x : node) (array : list node) : list node :=
  firstn i array ++ x :: skipn (S i) array.

Definition removeAt (i : nat) (array : list node) : list node :=
  firstn i array ++ skipn (S i) array.

(** The [for] loop of [removeEmptyFolders(folder)] as it runs, for the
    folder at [path], with the recursive call as [self].

    [for (const child of folder.children)] walks the folder's own array by
    index: each step reads [children[i]] from the array as it is then, and
    stops when [i] has reached its length.  [vault.delete(child)] takes
    [child] out of that very array, so the elements after it move down by
    one while the index moves up by one.  The deletions made by the
    recursive call happen in [child.children]. *)
Definition removeEmptyFolders_indexed (self : string -> node -> walk)
  (deny : list string) (path : string)
  : nat -> list node -> nat -> nat -> walk :=
  fix loop (fuel : nat) (children : list node) (i removedCount : nat)
    {struct fuel} : walk :=
    match fuel with
    | O => (children, [], Hangs)
    | S fuel' =>
        match nth_error children i with
        | None => (children, [], Returned removedCount)
        | Some (TFile _ _) => loop fuel' children (S i) removedCount
        | Some (TFolder name _ as child) =>
            let childPath := Vault.childPath path name in
            let '(grandchildren, evs1, r1) := self childPath child in
            let children := setAt i (TFolder name grandchildren) children in
            match r1 with
            | Returned n =>
                let removedCount := removedCount + n in
                match grandchildren with
                | [] =>
                    let evs2 :=
                      evs1 ++ [Logged DEBUG (RemovingEmptyFolder childPath);
                               Issued (Delete childPath)] in
                    if existsb (String.eqb childPath) deny
                    then (children, evs2,
                          Thrown (StorageFault (Delete childPath)))
                    else
                      let evs3 :=
                        evs2 ++ [Logged INFO (RemovedEmptyFolder childPath)] in
                      let '(children', evs, r) :=
                        loop fuel' (removeAt i children) (S i)
                          (removedCount + 1) in
                      (children', evs3 ++ evs, r)
                | _ :: _ =>
                    let '(children', evs, r) :=
                      loop fuel' children (S i) removedCount in
                    (children', evs1 ++ evs, r)
                end
            | Thrown e => (children, evs1, Thrown e)
            | Hangs => (children, evs1, Hangs)
            end
        end
    end.

(** The same loop by recursion on the part of the array that the index has
    not reached: after a deletion the element that followed [child] has
    moved into the slot just visited, and the loop goes on behind it.
    (The two are shown to agree below.) *)
Definition removeEmptyFolders_loop (self : string -> node -> walk)
  (deny : list string) (path : string) : list node -> nat -> walk :=
  fix loop (children : list node) (removedCount : nat) {struct children}
    : walk :=
    match children with
    | [] => ([], [], Returned removedCount)
    | child :: rest =>
        match child with
        | TFile _ _ =>
            let '(rest', evs, r) := loop rest removedCount in
            (child :: rest', evs, r)
        | TFolder name _ =>
            let childPath := Vault.childPath path name in
            let '(grandchildren, evs1, r1) := self childPath child in
            match r1 with
            | Returned n =>
                let removedCount := removedCount + n in
                match grandchildren with
                | [] =>
                    let evs2 :=
                      evs1 ++ [Logged DEBUG (RemovingEmptyFolder childPath);
                               Issued (Delete childPath)] in
                    if existsb (String.eqb childPath) deny
                    then (TFolder name [] :: rest, evs2,
                          Thrown (StorageFault (Delete childPath)))
                    else
                      let evs3 :=
                        evs2 ++ [Logged INFO (RemovedEmptyFolder childPath)] in
                      match rest with
                      | [] => ([], evs3, Returned (removedCount + 1))
                      | skipped :: rest' =>
                          let '(rest'', evs, r) :=
                            loop rest' (removedCount + 1) in
                          (skipped :: rest'', evs3 ++ evs, r)
                      end
                | _ :: _ =>
                    let '(rest', evs, r) := loop rest removedCount in
                    (TFolder name grandchildren :: rest', evs1 ++ evs, r)
                end
            | Thrown e => (TFolder name grandchildren :: rest, evs1, Thrown e)
            | Hangs => (TFolder name grandchildren :: rest, evs1, Hangs)
            end
        end
    end.

(** [removeEmptyFolders(folder)], for the folder at [path]. *)
Fixpoint removeEmptyFolders (deny : list string) (path : string)
  (folder : node) {struct folder} : walk :=
  match folder with
  | TFile _ _ => ([], [], Returned 0)
  | TFolder _ children =>
      removeEmptyFolders_loop (removeEmptyFolders deny) deny path children 0
  end.

(** The call [this.removeEmptyFolders(attachmentFolder)] seen from the
    vault: the folder at [path] now has the children the walk left. *)
Definition removeEmptyFolders_in_vault (path : string) (folder : node)
  : M nat :=
  fun w =>
    let '(children', evs, r) := removeEmptyFolders (undeletable w) path folder in
    let root' :=
      match Vault.updateAt (Vault.segments path) (fun _ => Some children')
              (root w) with
      | Some r' => r'
      | None => root w
      end in
    (r, mkWorld root' (undeletable w) (trace w ++ evs)).

Definition cleanEmptyDirectories (attachmentPath : string) : M unit :=
  logger DEBUG (RemovingEmptyDirectoriesFrom attachmentPath);;
  attachmentFolder <- Vault.getAbstractFileByPath attachmentPath;;
  match attachmentFolder with
  | Some (TFolder _ _ as folder) =>
      removedCount <- removeEmptyFolders_in_vault attachmentPath folder;;
      if Nat.ltb 0 removedCount
      then logger INFO (RemovedEmptyDirectories removedCount);;
           notice (RemovedEmptyDirectories removedCount)
      else ret tt
  | _ => ret tt
  end.

End DirectoryManager.

(** ** [organize.ts]: [FileOrganizer] *)

Module FileOrganizer.

Definition HASH_CHUNK_SIZE : Z := 4 * 1024.

(** The [while] loop of [cksum].  [None]: the loop is still running when
    the fuel is used up. *)
Fixpoint cksum_loop (fuel : nat) (data : bytes) (chunkSize offset : Z)
  (hash : Crypto.Hash) : option Crypto.Hash :=
  match fuel with
  | O => None
  | S fuel' =>
      if (offset <? Z.of_nat (List.length data))%Z
      then
        let chunk := JS.slice data offset (offset + chunkSize) in
        cksum_loop fuel' data chunkSize (offset + chunkSize)%Z
          (Crypto.update hash chunk)
      else Some hash
  end.

(** The hashing part of [cksum], with the fuel that is enough whenever
    the loop ends at all. *)
Definition cksum_bytes (data : bytes) (chunkSize : Z) : option bytes :=
  option_map Crypto.digest
    (cksum_loop (S (List.length data)) data chunkSize 0 Crypto.createHash).

Definition cksum (filePath : string) (chunkSize : Z) : M bytes :=
  data <- Vault.readBinary filePath;;
  match cksum_bytes data chunkSize with
  | Some checksum => ret checksum
  | None => hang
  end.

(** [checksum[i].toString(16).padStart(2, "0")] *)
Definition hexByte (b : byte) : string :=
  JS.padStart 2 "0" (JS.toString 16 (Byte.to_N b)).

(** The loop of [generatePath]: [rest] is the checksum from index [i] on,
    so [rest = []] is [i = checksum.length]. *)
Fixpoint generatePath_loop (depth i : Z) (rest : bytes) (parts : list string)
  : list string :=
  match rest with
  | [] => parts
  | b :: rest' =>
      if (i <? depth)%Z
      then generatePath_loop depth (i + 1)%Z rest' (parts ++ [hexByte b])
      else parts
  end.

Definition generatePath (checksum : bytes) (settings : FolderizeSettings)
  : string :=
  JS.join "/"
    (generatePath_loop (pathDepth settings) 0%Z checksum
       [attachmentPath settings]).

(** [file] is the [TFile] at the path [file]. *)
Definition organizeFile (file : string) (settings : FolderizeSettings)
  : M unit :=
  logger DEBUG (OrganizingFile file);;
  checksum <- cksum file HASH_CHUNK_SIZE;;
  let hivePath := generatePath checksum settings in
  let filename := NodePath.basename file in
  let newPath := String.append hivePath (String.append "/" filename) in
  if String.eqb file newPath
  then logger DEBUG (AlreadyInCorrectLocation file)
  else
    let dir := NodePath.dirname newPath in
    DirectoryManager.mkdirs dir;;
    Vault.rename file newPath;;
    (* the vault has set [file.path] to [newPath] by now *)
    logger INFO (Moved newPath newPath).

(** The [for] loop of [getFilesInFolder] over the children of the folder
    at [path], with the recursive call as [self].  A [TFile] is named by
    its path. *)
Definition getFilesInFolder_loop (self : string -> node -> list string)
  (path : string) : list node -> list string :=
  fix loop (children : list node) : list string :=
    match children with
    | [] => []
    | child :: rest =>
        match child with
        | TFile name _ => Vault.childPath path name :: loop rest
        | TFolder name _ => self (Vault.childPath path name) child ++ loop rest
        end
    end.

Fixpoint getFilesInFolder (path : string) (folder : node) {struct folder}
  : list string :=
  match folder with
  | TFile _ _ => []
  | TFolder _ children =>
      getFilesInFolder_loop getFilesInFolder path children
  end.

(** [for (const file of files) { await organizeFile; processedCount++ }] *)
Fixpoint organize_loop (files : list string) (settings : FolderizeSettings)
  (processedCount : nat) : M nat :=
  match files with
  | [] => ret processedCount
  | file :: rest =>
      organizeFile file settings;;
      organize_loop rest settings (processedCount + 1)
  end.

Definition organizeAttachments (settings : FolderizeSettings) : M unit :=
  logger DEBUG OrganizingAttachments;;
  notice OrganizingAttachments;;
  attachmentFolder <- Vault.getAbstractFileByPath (attachmentPath settings);;
  match attachmentFolder with
  | Some (TFolder _ _ as folder) =>
      let files := getFilesInFolder (attachmentPath settings) folder in
      logger DEBUG (ProcessingFiles (List.length files) (attachmentPath settings));;
      processedCount <- organize_loop files settings 0;;
      logger DEBUG (OrganizationComplete processedCount);;
      notice (OrganizedAttachments processedCount);;
      if removeEmptyFolders settings
      then DirectoryManager.cleanEmptyDirectories (attachmentPath settings)
      else ret tt
  | _ =>
      logger WARN (AttachmentFolderNotFoundAt (attachmentPath settings));;
      notice AttachmentFolderNotFound
  end.

End FileOrganizer.



(** ** The older revision of the engine

    [calculateChecksum] takes its chunk size from the settings, every
    operation catches its errors, and pruning first collects the empty
    folders and then deletes them. *)

Module Part000.

Record FolderizeSettings : Type := mkSettings {
  attachmentPath : string;
  chunkSize : Z;
  pathDepth : Z;
  enableAutoOrganize : bool;
  removeEmptyFolders : bool;
  logLevel : LogLevel
}.

Definition DEFAULT_SETTINGS : FolderizeSettings :=
  mkSettings "Attachments" 4096 4 false true WARN.

Definition set_chunkSize (num : Z) (s : FolderizeSettings)
  : FolderizeSettings :=
  mkSettings (attachmentPath s) num (pathDepth s) (enableAutoOrganize s)
    (removeEmptyFolders s) (logLevel s).

(** The [onChange] handler of the "Chunk size" text field. *)
Definition chunkSize_onChange (value : string) (s : FolderizeSettings)
  : FolderizeSettings :=
  match JS.parseInt value with
  | Some num => if (0 <? num)%Z then set_chunkSize num s else s
  | None => s
  end.

Module DirectoryManager.

Fixpoint createDirectoryRecursive_loop (parts : list string)
  (currentPath : string) : M unit :=
  match parts with
  | [] => ret tt
  | part :: rest =>
      let currentPath :=
        if JS.truthy currentPath
        then String.append currentPath (String.append "/" part)
        else part in
      present <- Vault.exists_ currentPath;;
      (if negb present then Vault.createFolder currentPath else ret tt);;
      createDirectoryRecursive_loop rest currentPath
  end.

Definition createDirectoryRecursive (dirPath : string) : M unit :=
  createDirectoryRecursive_loop (JS.split_slash dirPath) EmptyString.

Definition isFile (n : node) : bool := negb (Vault.isFolder n).

Definition includes (l : list string) (p : string) : bool :=
  existsb (String.eqb p) l.

(** [findEmptyFolders(folder)] for the folder at [path]; a folder is
    named by its path.  [findEmptyFolders_loop] is its [for] loop with
    the recursive call as [self]. *)
Definition findEmptyFolders_loop (self : string -> node -> list string)
  (path : string) : list node -> list string -> list string :=
  fix loop (children : list node) (emptyFolders : list string)
    {struct children} : list string :=
    match children with
    | [] => emptyFolders
    | child :: rest =>
        match child with
        | TFile _ _ => loop rest emptyFolders
        | TFolder name grandchildren =>
            let childPath := Vault.childPath path name in
            let emptyFolders := emptyFolders ++ self childPath child in
            let hasFiles := existsb isFile grandchildren in
            let hasNonEmptyFolders :=
              existsb
                (fun c =>
                   Vault.isFolder c
                   && negb (includes emptyFolders
                              (Vault.childPath childPath (Vault.nodeName c))))
                grandchildren in
            loop rest
              (if negb hasFiles && negb hasNonEmptyFolders
               then emptyFolders ++ [childPath]
               else emptyFolders)
        end
    end.

Fixpoint findEmptyFolders (path : string) (folder : node) {struct folder}
  : list string :=
  match folder with
  | TFile _ _ => []
  | TFolder _ children =>
      findEmptyFolders_loop findEmptyFolders path children []
  end.

(** [for (const folder of emptyFolders.reverse()) { try ... catch ... }] *)
Fixpoint delete_loop (folders : list string) (removedCount : nat)
  : M nat :=
  match folders with
  | [] => ret removedCount
  | folder :: rest =>
      removedCount <-
        try_catch
          (Vault.delete folder;;
           logger INFO (RemovedEmptyDirectory folder);;
           ret (removedCount + 1))
          (fun e =>
             logger ERROR (ErrorRemovingDirectory folder e);;
             ret removedCount);;
      delete_loop rest removedCount
  end.

Definition cleanEmptyDirectories (settings : FolderizeSettings) : M unit :=
  try_catch
    (logger DEBUG StartingCleanup;;
     attachmentFolder <-
       Vault.getAbstractFileByPath (attachmentPath settings);;
     match attachmentFolder with
     | Some (TFolder _ _ as folder) =>
         let emptyFolders :=
           findEmptyFolders (attachmentPath settings) folder in
         logger DEBUG (FoundEmptyFolders (List.length emptyFolders));;
         removedCount <- delete_loop (rev emptyFolders) 0;;
         if Nat.ltb 0 removedCount
         then logger DEBUG (CleanupComplete removedCount);;
              notice (RemovedEmptyDirectories removedCount)
         else ret tt
     | _ => ret tt
     end)
    (fun e => logger ERROR (ErrorCleaning e)).

End DirectoryManager.

Module FileOrganizer.

Definition calculateChecksum (filePath : string) (chunkSize : Z)
  : M bytes :=
  try_catch
    (data <- Vault.readBinary filePath;;
     match FileOrganizer.cksum_bytes data chunkSize with
     | Some checksum => ret checksum
     | None => hang
     end)
    (fun e => logger ERROR (ErrorCalculatingChecksum e);; throw e).

Definition generatePath (checksum : bytes) (settings : FolderizeSettings)
  : string :=
  JS.join "/"
    (FileOrganizer.generatePath_loop (pathDepth settings) 0%Z checksum
       [attachmentPath settings]).

Definition organizeFile (file : string) (settings : FolderizeSettings)
  : M unit :=
  try_catch
    (logger DEBUG (OrganizingFile file);;
     checksum <- calculateChecksum file (chunkSize settings);;
     let hivePath := generatePath checksum settings in
     let fileName := NodePath.basename file in
     let newPath := String.append hivePath (String.append "/" fileName) in
     if String.eqb file newPath
     then logger DEBUG (AlreadyInCorrectLocation file)
     else
       let dir := NodePath.dirname newPath in
       present <- Vault.exists_ dir;;
       (if negb present
        then logger DEBUG (CreatingDirectoryStructure dir);;
             DirectoryManager.createDirectoryRecursive dir
        else ret tt);;
       Vault.rename file newPath;;
       logger INFO (Moved newPath newPath))
    (fun e =>
       logger ERROR (ErrorOrganizingFile file e);;
       notice (ErrorOrganizingFile file e)).

Definition getAllFiles := FileOrganizer.getFilesInFolder.

Fixpoint organize_loop (files : list string) (settings : FolderizeSettings)
  (processedCount : nat) : M nat :=
  match files with
  | [] => ret processedCount
  | file :: rest =>
      organizeFile file settings;;
      organize_loop rest settings (processedCount + 1)
  end.

Definition organizeAttachments (settings : FolderizeSettings) : M unit :=
  try_catch
    (logger DEBUG OrganizingAttachments;;
     notice OrganizingAttachments;;
     attachmentFolder <-
       Vault.getAbstractFileByPath (attachmentPath settings);;
     match attachmentFolder with
     | Some (TFolder _ _ as folder) =>
         let files := getAllFiles (attachmentPath settings) folder in
         logger DEBUG (ProcessingFiles (List.length files)
                         (attachmentPath settings));;
         processedCount <- organize_loop files settings 0;;
         logger DEBUG (OrganizationComplete processedCount);;
         notice (OrganizedAttachments processedCount);;
         if removeEmptyFolders settings
         then DirectoryManager.cleanEmptyDirectories settings
         else ret tt
     | _ =>
         logger WARN (AttachmentFolderNotFoundAt (attachmentPath settings));;
         notice AttachmentFolderNotFound
     end)
    (fun e =>
       logger ERROR (ErrorOrganizingAttachments e);;
       notice (ErrorOrganizingAttachments e)).

End FileOrganizer.

End Part000.


(** ** Notions of the specification *)

Module Spec.

(** One byte as exactly two lowercase hexadecimal digits. *)
Definition hexDigit (d : N) : ascii :=
  nth (N.to_nat d) (list_ascii_of_string "0123456789abcdef") "?"%char.

Definition hexPair (b : byte) : string :=
  String (hexDigit (Byte.to_N b / 16)) (String (hexDigit (Byte.to_N b mod 16))
    EmptyString).

Definition isLowerHex (c : ascii) : bool :=
  existsb (Ascii.eqb c) (list_ascii_of_string "0123456789abcdef").

(** The byte two hexadecimal digits stand for. *)
Definition hexValue (s : string) : option N :=
  match s with
  | String h (String l EmptyString) =>
      match JS.digitValue 16 h, JS.digitValue 16 l with
      | Some a, Some b => Some (Z.to_N (a * 16 + b))
      | _, _ => None
      end
  | _ => None
  end.

(** A directory is empty when it has no children or when all its children
    are (recursively) empty directories. *)
Fixpoint isEmpty (n : node) : bool :=
  match n with
  | TFile _ _ => false
  | TFolder _ children => forallb isEmpty children
  end.

(** No directory strictly below [n] is empty. *)
Fixpoint pruned (n : node) : bool :=
  match n with
  | TFile _ _ => true
  | TFolder _ children =>
      forallb (fun c => negb (isEmpty c) && pruned c) children
  end.

(** The files at or below the node at [path], each with its path and its
    content. *)
Fixpoint files (path : string) (n : node) : list (string * option bytes) :=
  match n with
  | TFile _ data => [(path, data)]
  | TFolder _ children =>
      flat_map (fun c => files (Vault.childPath path (Vault.nodeName c)) c)
        children
  end.

(** The files of the whole vault. *)
Definition vaultFiles (r : list node) : list (string * option bytes) :=
  files "/" (TFolder EmptyString r).

Definition hasChildren (n : node) : bool :=
  match n with
  | TFolder _ (_ :: _) => true
  | _ => false
  end.

(** Pruning as the specification words it: the children are resolved
    first, then a directory left without any child goes. *)
Fixpoint prune (n : node) : node :=
  match n with
  | TFile _ _ => n
  | TFolder name children =>
      TFolder name
        (filter (fun c => negb (Vault.isFolder c) || hasChildren c)
           (map prune children))
  end.

(** The files [organizeFile] was called on, in order. *)
Definition processed (tr : list event) : list string :=
  flat_map (fun e =>
              match e with
              | Logged DEBUG (OrganizingFile p) => [p]
              | _ => []
              end) tr.

(** The commands that reached the vault, in order. *)
Definition issued (tr : list event) : list command :=
  flat_map (fun e =>
              match e with
              | Issued c => [c]
              | _ => []
              end) tr.

(** [d] is a folder strictly below [folder], and [p] is its path when
    [folder] is at [path]. *)
Inductive folderBelow : string -> node -> string -> node -> Prop :=
| below_child : forall path name children cname grandchildren,
    In (TFolder cname grandchildren) children ->
    folderBelow path (TFolder name children)
      (Vault.childPath path cname) (TFolder cname grandchildren)
| below_deeper : forall path name children c p d,
    In c children ->
    folderBelow (Vault.childPath path (Vault.nodeName c)) c p d ->
    folderBelow path (TFolder name children) p d.

End Spec.

(** Induction on a node with the hypothesis for every child of a folder. *)
Section NodeInduction.

Variable P : node -> Prop.
Hypothesis Hfile : forall name data, P (TFile name data).
Hypothesis Hfolder :
  forall name children, Forall P children -> P (TFolder name children).

Fixpoint node_induction (n : node) : P n :=
  match n with
  | TFile name data => Hfile name data
  | TFolder name children =>
      Hfolder name children
        ((fix all (l : list node) : Forall P l :=
            match l with
            | [] => Forall_nil P
            | c :: rest => Forall_cons c (node_induction c) (all rest)
            end) children)
  end.

End NodeInduction.

(** Example vaults and settings. *)
Definition ascii_bytes (s : string) : bytes := list_byte_of_string s.

Definition settings2 : FolderizeSettings :=
  mkSettings "Attachments" 2 false true WARN.

(** A vault whose only attachment is where its content puts it. *)
Definition placedVault : world :=
  mkWorld
    [TFolder "Attachments"
       [TFolder "ba" [TFolder "78" [TFile "a.txt" (Some (ascii_bytes "abc"))]]]]
    [] [].

(** A vault without attachment folder. *)
Definition noAttachments : world :=
  mkWorld [TFile "note.md" (Some (ascii_bytes "abc"))] [] [].

(** An unreadable file comes first, a readable one after it. *)
Definition faultyVault : world :=
  mkWorld
    [TFolder "Attachments"
       [TFile "bad.bin" None; TFile "good.txt" (Some (ascii_bytes "abc"))]]
    [] [].

(** The unreadable file sits between two readable ones. *)
Definition faultyVault3 : world :=
  mkWorld
    [TFolder "Attachments"
       [TFile "first.txt" (Some (ascii_bytes "abc"));
        TFolder "inbox" [TFile "bad.bin" None];
        TFile "last.txt" (Some (ascii_bytes "hello world"))]]
    [] [].

(** Two empty folders side by side. *)
Definition siblingsVault : world :=
  mkWorld [TFolder "Attachments" [TFolder "a" []; TFolder "b" []]] [] [].

(** An attachment folder without children. *)
Definition bareVault : world :=
  mkWorld [TFolder "Attachments" []; TFile "note.md" (Some [])] [] [].

(** Files, empty folders and a folder the host refuses to delete. *)
Definition mixedVault : world :=
  mkWorld
    [TFolder "Attachments"
       [TFolder "old" [TFolder "deep" []];
        TFile "keep.txt" (Some (ascii_bytes "abc"));
        TFolder "locked" [];
        TFolder "full" [TFile "x.bin" None]]]
    ["Attachments/locked"] [].

(** What [organizeAttachments] logs and shows when the root is absent. *)
Definition notFoundEvents (path : string) : list event :=
  [Logged DEBUG OrganizingAttachments; Notice OrganizingAttachments;
   Logged WARN (AttachmentFolderNotFoundAt path);
   Notice AttachmentFolderNotFound].

(** ** Vocabulary of the proofs *)

(** The files below the children of the folder at [path]. *)
Definition filesIn (path : string) (children : list node)
  : list (string * option bytes) :=
  flat_map (fun c => Spec.files (Vault.childPath path (Vault.nodeName c)) c)
    children.

(** A computation that never starts the placement of a file and leaves the
    deletion policy of the host alone. *)
Definition quiet {A : Type} (m : M A) : Prop :=
  forall w r w',
    m w = (r, w') ->
    undeletable w' = undeletable w
    /\ exists evs, trace w' = trace w ++ evs /\ Spec.processed evs = [].

(** Events of a pruning walk below [folder], at [path]: no placement is
    started, and the only commands are deletions of folders below [folder]
    that hold no file. *)
Definition only_prunes (path : string) (folder : node) (evs : list event)
  : Prop :=
  Spec.processed evs = []
  /\ forall c,
       In (Issued c) evs ->
       exists p d,
         c = Delete p
         /\ Spec.folderBelow path folder p d
         /\ Spec.files p d = [].

(** What a pruning walk of the folder [folder] at [path] must satisfy: the
    files below it are the same afterwards, and its events only prune. *)
Definition walk_sound (path : string) (folder : node)
  (wk : DirectoryManager.walk) : Prop :=
  match folder with
  | TFile _ _ => True
  | TFolder _ children =>
      (forall p, filesIn p (fst (fst wk)) = filesIn p children)
      /\ only_prunes path folder (snd (fst wk))
  end.

(** What [cleanEmptyDirectories] reports after the walk. *)
Definition cleanup_report (r : outcome nat) : list event :=
  match r with
  | Returned removedCount =>
      if Nat.ltb 0 removedCount
      then [Logged INFO (RemovedEmptyDirectories removedCount);
            Notice (RemovedEmptyDirectories removedCount)]
      else []
  | _ => []
  end.

Definition forget {A : Type} (r : outcome A) : outcome unit :=
  match r with
  | Returned _ => Returned tt
  | Thrown e => Thrown e
  | Hangs => Hangs
  end.

(** The world when the loop of [organizeAttachments] starts. *)
Definition announced (settings : FolderizeSettings) (count : nat) (w : world)
  : world :=
  mkWorld (root w) (undeletable w)
    (trace w ++ [Logged DEBUG OrganizingAttachments;
                 Notice OrganizingAttachments;
                 Logged DEBUG (ProcessingFiles count (attachmentPath settings))]).

(** What [organizeAttachments] does once the loop has returned. *)
Definition conclude (settings : FolderizeSettings) (processedCount : nat)
  : M unit :=
  (logger DEBUG (OrganizationComplete processedCount);;
   notice (OrganizedAttachments processedCount);;
   if removeEmptyFolders settings
   then DirectoryManager.cleanEmptyDirectories (attachmentPath settings)
   else ret tt)%fz.

(** A computation that always comes back, by returning or by throwing. *)
Definition halts {A : Type} (m : M A) : Prop :=
  forall w, fst (m w) <> Hangs.

(** A computation that always returns. *)
Definition returns {A : Type} (m : M A) : Prop :=
  forall w, exists a, fst (m w) = Returned a.

(** Settings of the older revision, with the default chunk size. *)
Definition oldSettings2 : Part000.FolderizeSettings :=
  Part000.mkSettings "Attachments" 4096 2 false true WARN.

(** Replaying deletions on the vault, one [vault.delete] after the other,
    whatever each of them answers. *)
Fixpoint replay (paths : list string) (w : world) : world :=
  match paths with
  | [] => w
  | p :: rest => replay rest (snd (Vault.delete p w))
  end.

(** The paths given to [vault.delete], in order. *)
Definition deletions (evs : list event) : list string :=
  flat_map (fun e =>
              match e with
              | Issued (Delete p) => [p]
              | _ => []
              end) evs.

(** A name the host accepts: not empty, without separator. *)
Definition goodName (name : string) : Prop :=
  name <> EmptyString
  /\ forallb (fun c => negb (NodePath.isSlash c)) (list_ascii_of_string name) = true.

(** A tree as a file system holds it: good names, no two children of a
    folder with the same name. *)
Inductive wellFormed : node -> Prop :=
| wf_file : forall name data,
    goodName name -> wellFormed (TFile name data)
| wf_folder : forall name children,
    goodName name ->
    NoDup (map Vault.nodeName children) ->
    Forall wellFormed children ->
    wellFormed (TFolder name children).

Definition wellFormedChildren (children : list node) : Prop :=
  NoDup (map Vault.nodeName children) /\ Forall wellFormed children.

(** ** The older revision: the folders it collects *)

(** The empty folders among [c] and what is below it, deepest first, when
    [c] is the child of the folder at [path]. *)
Fixpoint emptyFolders (path : string) (c : node) : list string :=
  match c with
  | TFile _ _ => []
  | TFolder cname grandchildren =>
      flat_map (emptyFolders (Vault.childPath path cname)) grandchildren
        ++ (if Spec.isEmpty c then [Vault.childPath path cname] else [])
  end.

(** The empty folders below the children of the folder at [path]. *)
Definition emptyBelow (path : string) (children : list node) : list string :=
  flat_map (emptyFolders path) children.

(** The children that pruning keeps, pruned. *)
Definition pruneList (children : list node) : list node :=
  filter (fun c => negb (Vault.isFolder c) || Spec.hasChildren c)
    (map Spec.prune children).

(** What the deletions of the folders collected below a folder, replayed
    last one first on a vault that refuses nothing, leave of that folder:
    its children, pruned. *)
Definition prunes_by_replay (c : node) : Prop :=
  forall path w cname grandchildren,
    c = TFolder cname grandchildren ->
    wellFormedChildren grandchildren ->
    undeletable w = [] ->
    Vault.lookup (Vault.segments path) (TFolder EmptyString (root w)) = Some c ->
    Vault.updateAt (Vault.segments path)
      (fun _ => Some (pruneList grandchildren)) (root w)
    = Some (root (replay (rev (emptyBelow path grandchildren)) w)).

(** A computation that leaves the deletion policy of the host alone. *)
Definition keeps_policy {A : Type} (m : M A) : Prop :=
  forall w, undeletable (snd (m w)) = undeletable w.

(** Well-formedness of a vault written out in full. *)
Ltac solve_goodName := split; [discriminate | reflexivity].
Ltac solve_nodup :=
  repeat (apply NoDup_cons; [simpl; intuition discriminate|]); apply NoDup_nil.
Ltac solve_wellFormed :=
  repeat first
    [ apply Forall_nil
    | apply Forall_cons
    | apply wf_file; solve_goodName
    | apply wf_folder; [solve_goodName | solve_nodup | ] ].
Ltac solve_wellFormedChildren := split; [solve_nodup | solve_wellFormed].

(** What the outcome of a pruning walk says about its deletions, for a walk
    that started with [count] removals already counted: nothing is shown to
    the user, a returned count is [count] plus the number of deletions
    issued, and a thrown error is the refusal of the last deletion issued. *)
Definition counts_from (count : nat) (deny : list string)
  (wk : DirectoryManager.walk) : Prop :=
  (forall m, ~ In (Notice m) (snd (fst wk)))
  /\ match snd wk with
  | Returned n => n = count + List.length (deletions (snd (fst wk)))
  | Thrown e =>
      exists p before,
        e = StorageFault (Delete p)
        /\ deletions (snd (fst wk)) = before ++ [p]
        /\ existsb (String.eqb p) deny = true
  | Hangs => False
  end.

(** The elements at the second, fourth, ... place of a list, and those at
    the first, third, ... place. *)
Fixpoint every_other {A : Type} (l : list A) : list A :=
  match l with
  | _ :: b :: rest => b :: every_other rest
  | _ => []
  end.

Fixpoint the_others {A : Type} (l : list A) : list A :=
  match l with
  | a :: _ :: rest => a :: the_others rest
  | l => l
  end.

(** A folder without children. *)
Definition emptyFolder (name : string) : node := TFolder name [].

(** A change of the children of a folder that keeps every child that can be
    found by its name. *)
Definition grows (f : list node -> option (list node)) : Prop :=
  forall ch ch' t x,
    f ch = Some ch' -> Vault.findChild t ch = Some x ->
    Vault.findChild t ch' = Some x.

(** [r'] holds everything [r] holds: every path that leads somewhere in [r]
    leads to a node of the same kind and name in [r'], and to the same file
    when it leads to a file. *)
Definition extends (r r' : list node) : Prop :=
  forall segs n x,
    Vault.lookup segs (TFolder n r) = Some x ->
    exists x',
      Vault.lookup segs (TFolder n r') = Some x'
      /\ Vault.isFolder x' = Vault.isFolder x
      /\ Vault.nodeName x' = Vault.nodeName x
      /\ (Vault.isFolder x = false -> x' = x).

(** The paths [mkdirs] looks at, one after the other. *)
Fixpoint mkdirs_paths (parts : list string) (currentPath : string)
  : list string :=
  match parts with
  | [] => []
  | part :: rest =>
      let currentPath :=
        if JS.truthy currentPath
        then String.append currentPath (String.append "/" part)
        else part in
      currentPath :: mkdirs_paths rest currentPath
  end.

(** The path [organizeFile] derives for a file with the content [data]. *)
Definition placement (file : string) (data : bytes)
  (settings : FolderizeSettings) : string :=
  String.append (FileOrganizer.generatePath (Crypto.sha256 data) settings)
    (String.append "/" (NodePath.basename file)).

(** A vault with one attachment that is not where its content puts it. *)
Definition looseVault : world :=
  mkWorld
    [TFolder "Attachments"
       [TFile "a.txt" (Some (ascii_bytes "abc"));
        TFile "b.txt" (Some (ascii_bytes "hello world"))];
     TFile "note.md" (Some (ascii_bytes "abc"))]
    [] [].

(** A change of the children of a folder that leaves alone what is found
    under any name but [name]. *)
Definition only_touches (name : string)
  (f : list node -> option (list node)) : Prop :=
  forall ch ch' t,
    f ch = Some ch' -> t <> name ->
    Vault.findChild t ch' = Vault.findChild t ch.

(** ** [logger.ts]

    [LoggerInstance] objects are shared: the component that asked for a
    logger and the registry hold the same object, so the objects live in a
    heap and are named by their address. *)

Module Logging.

(** The numbers of [enum LogLevel]. *)
Definition levelValue (level : LogLevel) : Z :=
  match level with
  | DEBUG => 30
  | INFO => 20
  | WARN => 10
  | ERROR => 0
  end%Z.

Record LoggerInstance : Type := mkLoggerInstance {
  name : string;
  logLevel : LogLevel
}.

(** What [console.log] has printed: the first argument and the others. *)
Definition console : Type := list (string * list string).

Definition setLogLevel (level : LogLevel) (this : LoggerInstance)
  : LoggerInstance :=
  mkLoggerInstance (name this) level.

Definition shouldLog (level : LogLevel) (this : LoggerInstance) : bool :=
  (levelValue level <=? levelValue (logLevel this))%Z.

Definition log (this : LoggerInstance) (message : string) (args : list string)
  (out : console) : console :=
  out ++ [(String.append "[Folderize:"
             (String.append (name this) (String.append "] " message)), args)].

Definition debug (this : LoggerInstance) (message : string)
  (args : list string) : console -> console := log this message args.
Definition info (this : LoggerInstance) (message : string)
  (args : list string) : console -> console := log this message args.
Definition warn (this : LoggerInstance) (message : string)
  (args : list string) : console -> console := log this message args.
Definition error (this : LoggerInstance) (message : string)
  (args : list string) : console -> console := log this message args.

(** The static side of [Logger]: the instances that exist, the map from
    names to instances in the order of insertion, and the global level. *)
Record Loggers : Type := mkLoggers {
  heap : list LoggerInstance;
  loggers : list (string * nat);
  globalLogLevel : LogLevel
}.

Definition initial : Loggers := mkLoggers [] [] ERROR.

(** [Map.has], [Map.get] and [Map.set]. *)
Definition has (key : string) (m : list (string * nat)) : bool :=
  existsb (fun kv => String.eqb (fst kv) key) m.

Fixpoint get (key : string) (m : list (string * nat)) : option nat :=
  match m with
  | [] => None
  | (k, v) :: rest => if String.eqb k key then Some v else get key rest
  end.

Fixpoint set (key : string) (value : nat) (m : list (string * nat))
  : list (string * nat) :=
  match m with
  | [] => [(key, value)]
  | (k, v) :: rest =>
      if String.eqb k key then (k, value) :: rest
      else (k, v) :: set key value rest
  end.

(** [new LoggerInstance(name, logLevel)]: the new object gets the next
    address. *)
Definition new_LoggerInstance (name : string) (logLevel : LogLevel)
  (st : Loggers) : nat * Loggers :=
  (List.length (heap st),
   mkLoggers (heap st ++ [mkLoggerInstance name logLevel]) (loggers st)
     (globalLogLevel st)).

(** [Logger.getLogger(name)]; [None] is [undefined]. *)
Definition getLogger (name : string) (st : Loggers) : option nat * Loggers :=
  let st :=
    if negb (has name (loggers st))
    then
      let '(address, st) := new_LoggerInstance name (globalLogLevel st) st in
      mkLoggers (heap st) (set name address (loggers st)) (globalLogLevel st)
    else st in
  (get name (loggers st), st).

(** [logger.setLogLevel(level)] on the object at [address]. *)
Definition setLogLevelAt (address : nat) (level : LogLevel) (st : Loggers)
  : Loggers :=
  match nth_error (heap st) address with
  | Some this =>
      mkLoggers
        (firstn address (heap st) ++ setLogLevel level this
           :: skipn (S address) (heap st))
        (loggers st) (globalLogLevel st)
  | None => st
  end.

(** [Logger.setGlobalLogLevel(level)] *)
Definition setGlobalLogLevel (level : LogLevel) (st : Loggers) : Loggers :=
  let st := mkLoggers (heap st) (loggers st) level in
  fold_left (fun st address => setLogLevelAt address level st)
    (map snd (loggers st)) st.

Definition getGlobalLogLevel (st : Loggers) : LogLevel := globalLogLevel st.

(** The calls a plugin makes on [Logger]. *)
Inductive call : Type :=
| GetLogger (name : string)
| SetGlobalLogLevel (level : LogLevel).

Definition step (st : Loggers) (c : call) : Loggers :=
  match c with
  | GetLogger name => snd (getLogger name st)
  | SetGlobalLogLevel level => setGlobalLogLevel level st
  end.

Definition run (calls : list call) : Loggers := fold_left step calls initial.

(** The registry as the code keeps it: the instance created for the
    [i]-th name is the [i]-th object. *)
Definition consistent (st : Loggers) : Prop :=
  map snd (loggers st) = seq 0 (List.length (heap st))
  /\ map fst (loggers st) = map name (heap st)
  /\ NoDup (map fst (loggers st))
  /\ Forall (fun this => logLevel this = globalLogLevel st) (heap st).

End Logging.

(** ** [main.ts] of the older revision: the plugin and its settings tab *)

Module Part001.

Definition set_attachmentPath (value : string) (s : Part000.FolderizeSettings)
  : Part000.FolderizeSettings :=
  Part000.mkSettings value (Part000.chunkSize s) (Part000.pathDepth s)
    (Part000.enableAutoOrganize s) (Part000.removeEmptyFolders s)
    (Part000.logLevel s).

Definition set_pathDepth (num : Z) (s : Part000.FolderizeSettings)
  : Part000.FolderizeSettings :=
  Part000.mkSettings (Part000.attachmentPath s) (Part000.chunkSize s) num
    (Part000.enableAutoOrganize s) (Part000.removeEmptyFolders s)
    (Part000.logLevel s).

Definition set_enableAutoOrganize (value : bool) (s : Part000.FolderizeSettings)
  : Part000.FolderizeSettings :=
  Part000.mkSettings (Part000.attachmentPath s) (Part000.chunkSize s)
    (Part000.pathDepth s) value (Part000.removeEmptyFolders s)
    (Part000.logLevel s).

Definition set_removeEmptyFolders (value : bool) (s : Part000.FolderizeSettings)
  : Part000.FolderizeSettings :=
  Part000.mkSettings (Part000.attachmentPath s) (Part000.chunkSize s)
    (Part000.pathDepth s) (Part000.enableAutoOrganize s) value
    (Part000.logLevel s).

(** The [onChange] handler of the "Path depth" text field. *)
Definition pathDepth_onChange (value : string) (s : Part000.FolderizeSettings)
  : Part000.FolderizeSettings :=
  match JS.parseInt value with
  | Some num =>
      if (0 <? num)%Z && (num <=? 8)%Z then set_pathDepth num s else s
  | None => s
  end.

(** What the user can do in the settings tab (the log level apart), and
    the handler that runs. *)
Inductive edit : Type :=
| EditAttachmentPath (value : string)
| EditAutoOrganize (value : bool)
| EditRemoveEmptyFolders (value : bool)
| EditChunkSize (value : string)
| EditPathDepth (value : string).

Definition onChange (s : Part000.FolderizeSettings) (e : edit)
  : Part000.FolderizeSettings :=
  match e with
  | EditAttachmentPath value => set_attachmentPath value s
  | EditAutoOrganize value => set_enableAutoOrganize value s
  | EditRemoveEmptyFolders value => set_removeEmptyFolders value s
  | EditChunkSize value => Part000.chunkSize_onChange value s
  | EditPathDepth value => pathDepth_onChange value s
  end.

(** [isAttachment(file)], for the file at [path];
    [String.prefix a b] is [b.startsWith(a)]. *)
Definition isAttachment (path : string) (settings : Part000.FolderizeSettings)
  : bool :=
  let attachmentPath := Part000.attachmentPath settings in
  String.prefix (String.append attachmentPath "/") path
  || String.eqb path attachmentPath.

(** The listener for "create": the file that [organizeFile] is scheduled
    for, if any. *)
Definition onCreate (file : node) (path : string)
  (settings : Part000.FolderizeSettings) : option string :=
  if negb (Vault.isFolder file) && isAttachment path settings
  then Some path else None.

(** The plugin object, with the part of the host that [registerAutoOrganize]
    and [unregisterAutoOrganize] talk to: the listeners for "create" that
    the vault holds, the events handed to [registerEvent], and the next
    [EventRef] the vault will make. *)
Definition EventRef : Type := nat.

Record Plugin : Type := mkPlugin {
  settings : Part000.FolderizeSettings;
  autoOrganizeEventRef : option EventRef;
  listeners : list EventRef;
  registered : list EventRef;
  nextRef : EventRef
}.

Section Host.

(** The value of the call [this.registerEvent(ref)]; [None] is
    [undefined]. *)
Variable registerEvent_returns : EventRef -> option EventRef.

(** [this.app.vault.on("create", listener)] *)
Definition vault_on (p : Plugin) : EventRef * Plugin :=
  (nextRef p,
   mkPlugin (settings p) (autoOrganizeEventRef p) (listeners p ++ [nextRef p])
     (registered p) (S (nextRef p))).

(** [this.registerEvent(ref)] *)
Definition registerEvent (ref : EventRef) (p : Plugin)
  : option EventRef * Plugin :=
  (registerEvent_returns ref,
   mkPlugin (settings p) (autoOrganizeEventRef p) (listeners p)
     (registered p ++ [ref]) (nextRef p)).

(** [this.app.vault.offref(ref)] *)
Definition vault_offref (ref : EventRef) (p : Plugin) : Plugin :=
  mkPlugin (settings p) (autoOrganizeEventRef p)
    (filter (fun r => negb (Nat.eqb r ref)) (listeners p))
    (registered p) (nextRef p).

Definition set_autoOrganizeEventRef (value : option EventRef) (p : Plugin)
  : Plugin :=
  mkPlugin (settings p) value (listeners p) (registered p) (nextRef p).

Definition registerAutoOrganize (p : Plugin) : Plugin :=
  match autoOrganizeEventRef p with
  | None =>
      let '(ref, p) := vault_on p in
      let '(result, p) := registerEvent ref p in
      set_autoOrganizeEventRef result p
  | Some _ => p
  end.

Definition unregisterAutoOrganize (p : Plugin) : Plugin :=
  match autoOrganizeEventRef p with
  | Some ref => set_autoOrganizeEventRef None (vault_offref ref p)
  | None => p
  end.

Definition applySettings (p : Plugin) : Plugin :=
  if Part000.enableAutoOrganize (settings p)
  then registerAutoOrganize p
  else unregisterAutoOrganize p.

(** [onload], once the settings are loaded: nothing is registered yet. *)
Definition onload (loaded : Part000.FolderizeSettings) : Plugin :=
  applySettings (mkPlugin loaded None [] [] 0).

(** An edit in the settings tab: the handler changes the settings and
    calls [saveSettings], which applies them. *)
Definition saveSettings (p : Plugin) : Plugin := applySettings p.

Definition edited (p : Plugin) (e : edit) : Plugin :=
  saveSettings
    (mkPlugin (onChange (settings p) e) (autoOrganizeEventRef p) (listeners p)
       (registered p) (nextRef p)).

End Host.

End Part001.

(** Nested empty folders next to files, and nothing refused. *)
Definition nestedVault : world :=
  mkWorld
    [TFolder "Attachments"
       [TFolder "old" [TFolder "deep" []];
        TFile "keep.txt" (Some (ascii_bytes "abc"));
        TFolder "a" [];
        TFolder "b" [];
        TFolder "full" [TFile "x.bin" None; TFolder "spare" []]]]
    [] [].

(** [r'] holds every file that [r] holds, at the same path. *)
Definition keeps_files (r r' : list node) : Prop :=
  forall segs n a b,
    Vault.lookup segs (TFolder n r) = Some (TFile a b) ->
    Vault.lookup segs (TFolder n r') = Some (TFile a b).



(** The number of folders at or below a node. *)
Fixpoint folders (n : node) : nat :=
  match n with
  | TFile _ _ => 0
  | TFolder _ children => S (list_sum (map folders children))
  end.

(** [k] calls of [cleanEmptyDirectories], one after the other. *)
Fixpoint cleanings (k : nat) (attachmentPath : string) (w : world) : world :=
  match k with
  | O => w
  | S k' =>
      cleanings k' attachmentPath
        (snd (DirectoryManager.cleanEmptyDirectories attachmentPath w))
  end.

(** What a pruning walk of the folder [c] does when the host refuses
    nothing: it returns the number of folders that are gone; that number is
    positive when something was to prune; and nothing happens at all when
    nothing was. *)
Definition walk_advances (c : node) : Prop :=
  forall path cname gc,
    c = TFolder cname gc ->
    let wk := DirectoryManager.removeEmptyFolders [] path c in
    exists n,
      snd wk = Returned n
      /\ list_sum (map folders (fst (fst wk))) + n = list_sum (map folders gc)
      /\ (Spec.pruned c = false -> 1 <= n)
      /\ (Spec.pruned c = true -> n = 0 /\ fst wk = (gc, [])).

(** * Path derivation *)

Lemma hexByte_hexPair (b : byte) : FileOrganizer.hexByte b = Spec.hexPair b.
Proof. destruct b; reflexivity. Qed.

Lemma hexPair_shape (b : byte) :
  String.length (Spec.hexPair b) = 2
  /\ forallb Spec.isLowerHex (list_ascii_of_string (Spec.hexPair b)) = true
  /\ Spec.hexValue (Spec.hexPair b) = Some (Byte.to_N b).
Proof. destruct b; repeat split. Qed.

Lemma generatePath_loop_spec (rest : bytes) :
  forall depth i parts,
    FileOrganizer.generatePath_loop depth i rest parts
    = parts ++ map FileOrganizer.hexByte (firstn (Z.to_nat (depth - i)) rest).
Proof.
  induction rest as [|b rest IH]; intros depth i parts; simpl.
  - now rewrite firstn_nil, app_nil_r.
  - destruct (Z.ltb_spec i depth) as [Hlt|Hge].
    + rewrite IH.
      replace (Z.to_nat (depth - i)) with (S (Z.to_nat (depth - (i + 1)))) by lia.
      simpl. now rewrite <- app_assoc.
    + replace (Z.to_nat (depth - i)) with 0 by lia.
      simpl. now rewrite app_nil_r.
Qed.

Lemma append_empty_r (s : string) : String.append s EmptyString = s.
Proof. induction s; simpl; congruence. Qed.

Lemma append_assoc (a b c : string) :
  String.append (String.append a b) c = String.append a (String.append b c).
Proof. induction a; simpl; congruence. Qed.

Lemma concat_empty_cons (x : string) (l : list string) :
  String.concat EmptyString (x :: l)
  = String.append x (String.concat EmptyString l).
Proof.
  destruct l as [|y l]; simpl.
  - now rewrite append_empty_r.
  - reflexivity.
Qed.

Lemma join_slash_cons (p : string) (segs : list string) :
  JS.join "/" (p :: segs)
  = String.append p
      (String.concat EmptyString (map (fun seg => String.append "/" seg) segs)).
Proof.
  revert p. induction segs as [|q segs IH]; intros p.
  - simpl. now rewrite append_empty_r.
  - change (JS.join "/" (p :: q :: segs))
      with (String.append p (String.append "/" (JS.join "/" (q :: segs)))).
    rewrite IH. cbn [map]. rewrite concat_empty_cons.
    now rewrite append_assoc.
Qed.

(** C2 — [generatePath] returns the root path followed by exactly
    [min depth 32] segments, the i-th one being the two lowercase,
    zero-padded hexadecimal digits of the i-th checksum byte; it is a total
    function, also when the depth exceeds 32. *)
Theorem generatePath_shape (checksum : bytes) (settings : FolderizeSettings) :
  List.length checksum = 32 ->
  (0 <= pathDepth settings)%Z ->
  let n := Z.to_nat (Z.min (pathDepth settings) 32) in
  FileOrganizer.generatePath checksum settings
  = String.append (attachmentPath settings)
      (String.concat EmptyString
         (map (fun b => String.append "/" (Spec.hexPair b)) (firstn n checksum)))
  /\ List.length (firstn n checksum) = n
  /\ forall b,
       String.length (Spec.hexPair b) = 2
       /\ forallb Spec.isLowerHex (list_ascii_of_string (Spec.hexPair b)) = true
       /\ Spec.hexValue (Spec.hexPair b) = Some (Byte.to_N b).
Proof.
  intros Hlen Hdepth n. split; [|split].
  - unfold FileOrganizer.generatePath, FileOrganizer.generatePath.
    rewrite generatePath_loop_spec. cbn [app].
    rewrite join_slash_cons. f_equal. f_equal.
    rewrite map_map. rewrite Z.sub_0_r.
    assert (Hcut : firstn (Z.to_nat (pathDepth settings)) checksum
                   = firstn n checksum).
    { subst n. destruct (Z.le_ge_cases (pathDepth settings) 32) as [H|H].
      - now rewrite Z.min_l.
      - rewrite Z.min_r by assumption.
        rewrite !firstn_all2; [reflexivity | lia | lia]. }
    rewrite Hcut. apply map_ext. intros b. now rewrite hexByte_hexPair.
  - rewrite length_firstn. subst n. lia.
  - apply hexPair_shape.
Qed.

Lemma generatePath_shape_witness :
  FileOrganizer.generatePath (Crypto.sha256 (ascii_bytes "abc")) settings2
  = "Attachments/ba/78".
Proof.
  destruct (generatePath_shape (Crypto.sha256 (ascii_bytes "abc")) settings2)
    as [H _].
  - reflexivity.
  - simpl. lia.
  - rewrite H. reflexivity.
Defined.

(** * Checksum *)

Lemma firstn_then_skipn {A : Type} (n k : nat) (l : list A) :
  firstn n l ++ firstn k (skipn n l) = firstn (n + k) l.
Proof.
  revert l. induction n as [|n IH]; intros l.
  - reflexivity.
  - destruct l as [|x l]; simpl.
    + now rewrite firstn_nil.
    + now rewrite IH.
Qed.

(** A chunk taken inside the buffer, with a positive size. *)
Lemma slice_chunk (data : bytes) (offset chunkSize : Z) :
  (0 <= offset < Z.of_nat (List.length data))%Z ->
  (1 <= chunkSize)%Z ->
  JS.slice data offset (offset + chunkSize)
  = firstn (Z.to_nat (Z.min (offset + chunkSize) (Z.of_nat (List.length data)))
            - Z.to_nat offset)
      (skipn (Z.to_nat offset) data).
Proof.
  intros Hoff Hc. unfold JS.slice.
  destruct (Z.ltb_spec offset 0) as [H|_]; [lia|].
  destruct (Z.ltb_spec (offset + chunkSize) 0) as [H|_]; [lia|].
  rewrite (Z.min_l offset) by lia.
  f_equal. lia.
Qed.

(** The loop invariant: what has been hashed is the content up to the
    offset. *)
Lemma cksum_loop_positive (fuel : nat) :
  forall (data : bytes) (chunkSize offset : Z) (hash : Crypto.Hash),
    (1 <= chunkSize)%Z ->
    (0 <= offset)%Z ->
    hash = firstn (Z.to_nat offset) data ->
    (Z.of_nat (List.length data) - offset <= Z.of_nat fuel)%Z ->
    FileOrganizer.cksum_loop (S fuel) data chunkSize offset hash = Some data.
Proof.
  induction fuel as [|fuel IH]; intros data chunkSize offset hash Hc Hoff Hh Hfuel;
    cbn [FileOrganizer.cksum_loop];
    destruct (Z.ltb_spec offset (Z.of_nat (List.length data))) as [Hlt|Hge];
    try lia.
  - subst hash. f_equal. apply firstn_all2. lia.
  - apply IH; try lia.
    unfold Crypto.update. rewrite slice_chunk by lia. subst hash.
    rewrite firstn_then_skipn.
    destruct (Z.le_ge_cases (offset + chunkSize) (Z.of_nat (List.length data)))
      as [Hin|Hout].
    + f_equal. lia.
    + rewrite !firstn_all2; [reflexivity | lia | lia].
  - subst hash. f_equal. apply firstn_all2. lia.
Qed.

Lemma cksum_loop_stuck (fuel : nat) :
  forall (data : bytes) (chunkSize offset : Z) (hash : Crypto.Hash),
    (chunkSize <= 0)%Z ->
    (offset <= 0)%Z ->
    data <> [] ->
    FileOrganizer.cksum_loop fuel data chunkSize offset hash = None.
Proof.
  induction fuel as [|fuel IH]; intros data chunkSize offset hash Hc Hoff Hdata.
  - reflexivity.
  - simpl. destruct (Z.ltb_spec offset (Z.of_nat (List.length data))) as [Hlt|Hge].
    + apply IH; [assumption | lia | assumption].
    + destruct data; [congruence | simpl in Hge; lia].
Qed.

Lemma cksum_loop_is_content (data : bytes) (chunkSize : Z) (fuel : nat) :
  (1 <= chunkSize)%Z ->
  List.length data < fuel ->
  FileOrganizer.cksum_loop fuel data chunkSize 0 Crypto.createHash = Some data.
Proof.
  intros Hc Hfuel. destruct fuel as [|fuel]; [lia|].
  apply cksum_loop_positive; [assumption | lia | reflexivity | lia].
Qed.

Lemma cksum_bytes_positive (data : bytes) (chunkSize : Z) :
  (1 <= chunkSize)%Z ->
  FileOrganizer.cksum_bytes data chunkSize = Some (Crypto.sha256 data).
Proof.
  intros Hc. unfold FileOrganizer.cksum_bytes.
  rewrite cksum_loop_is_content by (assumption || lia). reflexivity.
Qed.

Lemma cksum_readable (filePath : string) (chunkSize : Z) (data : bytes)
  (w : world) :
  (1 <= chunkSize)%Z ->
  Vault.readBinary filePath w = (Returned data, w) ->
  FileOrganizer.cksum filePath chunkSize w = (Returned (Crypto.sha256 data), w).
Proof.
  intros Hc Hread. unfold FileOrganizer.cksum, bind.
  rewrite Hread, cksum_bytes_positive by assumption. reflexivity.
Qed.

(** C3 — for every content and every chunk size of at least one byte the
    chunked computation is the SHA-256 digest of the whole content, whatever
    the chunk size; so is what [cksum] returns for a readable file. *)
Theorem cksum_is_sha256 (data : bytes) (chunkSize : Z) :
  (1 <= chunkSize)%Z ->
  FileOrganizer.cksum_bytes data chunkSize = Some (Crypto.sha256 data)
  /\ (forall fuel,
        List.length data < fuel ->
        option_map Crypto.digest
          (FileOrganizer.cksum_loop fuel data chunkSize 0 Crypto.createHash)
        = Some (Crypto.sha256 data))
  /\ (forall chunkSize',
        (1 <= chunkSize')%Z ->
        FileOrganizer.cksum_bytes data chunkSize'
        = FileOrganizer.cksum_bytes data chunkSize)
  /\ (forall filePath w,
        Vault.readBinary filePath w = (Returned data, w) ->
        FileOrganizer.cksum filePath chunkSize w
        = (Returned (Crypto.sha256 data), w)).
Proof.
  intros Hc. repeat split.
  - now apply cksum_bytes_positive.
  - intros fuel Hfuel. now rewrite cksum_loop_is_content.
  - intros c' Hc'. now rewrite !cksum_bytes_positive.
  - intros filePath w Hread. now apply cksum_readable.
Qed.

Lemma cksum_is_sha256_witness :
  FileOrganizer.cksum_bytes (ascii_bytes "hello world") 4
  = Some (Crypto.sha256 (ascii_bytes "hello world")).
Proof.
  refine (proj1 (cksum_is_sha256 (ascii_bytes "hello world") 4 _)). lia.
Defined.

(** The handler of the chunk size field lets only positive integers in. *)
Lemma chunkSize_onChange_positive (value : string)
  (s : Part000.FolderizeSettings) :
  (1 <= Part000.chunkSize s)%Z ->
  (1 <= Part000.chunkSize (Part000.chunkSize_onChange value s))%Z.
Proof.
  intros Hs. unfold Part000.chunkSize_onChange.
  destruct (JS.parseInt value) as [num|]; [|assumption].
  destruct (Z.ltb_spec 0 num) as [Hpos|Hneg]; [|assumption].
  simpl. lia.
Qed.

(** C10 — the hashing loop ends on every content exactly when the chunk
    size is at least 1: with such a chunk size it returns for every content,
    with a chunk size of zero or less it runs forever on every non-empty
    content.  Nothing in the loop checks the chunk size; the settings tab
    keeps it positive through the test in its change handler, starting from
    a positive default, and [organize.ts] passes a positive constant. *)
Theorem cksum_terminates_iff_positive (chunkSize : Z) :
  ((forall data : bytes,
      exists fuel hash,
        FileOrganizer.cksum_loop fuel data chunkSize 0 Crypto.createHash
        = Some hash)
   <-> (1 <= chunkSize)%Z)
  /\ ((1 <= chunkSize)%Z ->
      forall data, exists checksum,
        FileOrganizer.cksum_bytes data chunkSize = Some checksum)
  /\ ((chunkSize <= 0)%Z ->
      forall data, data <> [] ->
        forall fuel,
          FileOrganizer.cksum_loop fuel data chunkSize 0 Crypto.createHash = None)
  /\ (forall value s,
        (1 <= Part000.chunkSize s)%Z ->
        (1 <= Part000.chunkSize (Part000.chunkSize_onChange value s))%Z)
  /\ (1 <= Part000.chunkSize Part000.DEFAULT_SETTINGS)%Z
  /\ (1 <= FileOrganizer.HASH_CHUNK_SIZE)%Z.
Proof.
  repeat split.
  - intros Hall. destruct (Z.le_gt_cases 1 chunkSize) as [H|H]; [assumption|].
    destruct (Hall [x00]) as (fuel & hash & Hrun).
    rewrite cksum_loop_stuck in Hrun; [discriminate | lia | lia | discriminate].
  - intros Hc data. exists (S (List.length data)), data.
    apply cksum_loop_is_content; [assumption | lia].
  - intros Hc data. exists (Crypto.sha256 data).
    now apply cksum_bytes_positive.
  - intros Hc data Hdata fuel.
    apply cksum_loop_stuck; [assumption | lia | assumption].
  - intros value s. apply chunkSize_onChange_positive.
  - simpl. lia.
  - unfold FileOrganizer.HASH_CHUNK_SIZE. lia.
Qed.

(** * Running the plugin: general facts *)

Lemma bind_returned {A B : Type} (m : M A) (k : A -> M B) (w w1 : world) (a : A) :
  m w = (Returned a, w1) -> bind m k w = k a w1.
Proof. intros H. unfold bind. now rewrite H. Qed.

Lemma bind_thrown {A B : Type} (m : M A) (k : A -> M B) (w w1 : world) (e : error) :
  m w = (Thrown e, w1) -> bind m k w = (Thrown e, w1).
Proof. intros H. unfold bind. now rewrite H. Qed.

Lemma bind_hangs {A B : Type} (m : M A) (k : A -> M B) (w w1 : world) :
  m w = (Hangs, w1) -> bind m k w = (Hangs, w1).
Proof. intros H. unfold bind. now rewrite H. Qed.

Lemma readBinary_readable (file name : string) (data : bytes) (w : world) :
  Vault.resolve file (root w) = Some (TFile name (Some data)) ->
  Vault.readBinary file w = (Returned data, w).
Proof. intros H. unfold Vault.readBinary. now rewrite H. Qed.

Lemma readBinary_outcome (file : string) (w : world) :
  (exists data, Vault.readBinary file w = (Returned data, w))
  \/ Vault.readBinary file w = (Thrown (ReadFault file), w).
Proof.
  unfold Vault.readBinary.
  destruct (Vault.resolve file (root w)) as [[name [data|]|name children]|];
    eauto.
Qed.

Lemma cksum_outcome (file : string) (w : world) :
  (exists data,
      Vault.readBinary file w = (Returned data, w)
      /\ FileOrganizer.cksum file FileOrganizer.HASH_CHUNK_SIZE w
         = (Returned (Crypto.sha256 data), w))
  \/ (Vault.readBinary file w = (Thrown (ReadFault file), w)
      /\ FileOrganizer.cksum file FileOrganizer.HASH_CHUNK_SIZE w
         = (Thrown (ReadFault file), w)).
Proof.
  destruct (readBinary_outcome file w) as [[data Hread]|Hread].
  - left. exists data. split; [assumption|].
    apply cksum_readable; [unfold FileOrganizer.HASH_CHUNK_SIZE; lia | assumption].
  - right. split; [assumption|].
    unfold FileOrganizer.cksum. now apply bind_thrown.
Qed.

(** * Placement of one file *)

(** C1 — a file whose path already is the derived target path (root path,
    the hex segments of the SHA-256 of its content, its base name) is left
    alone: [organizeFile] returns, the vault is unchanged and no command
    (no folder creation, no rename) is issued. *)
Theorem organizeFile_in_place (file : string) (settings : FolderizeSettings)
  (w : world) (name : string) (data : bytes) :
  Vault.resolve file (root w) = Some (TFile name (Some data)) ->
  file = String.append (FileOrganizer.generatePath (Crypto.sha256 data) settings)
           (String.append "/" (NodePath.basename file)) ->
  exists w',
    FileOrganizer.organizeFile file settings w = (Returned tt, w')
    /\ root w' = root w
    /\ undeletable w' = undeletable w
    /\ trace w' = trace w ++ [Logged DEBUG (OrganizingFile file);
                              Logged DEBUG (AlreadyInCorrectLocation file)]
    /\ Spec.issued (trace w') = Spec.issued (trace w).
Proof.
  intros Hfile Hpath.
  set (w1 := mkWorld (root w) (undeletable w)
               (trace w ++ [Logged DEBUG (OrganizingFile file)])).
  assert (Hsum : FileOrganizer.cksum file FileOrganizer.HASH_CHUNK_SIZE w1
                 = (Returned (Crypto.sha256 data), w1)).
  { apply cksum_readable; [unfold FileOrganizer.HASH_CHUNK_SIZE; lia|].
    now apply readBinary_readable with (name := name). }
  eexists. split.
  - unfold FileOrganizer.organizeFile.
    rewrite (bind_returned _ _ w w1 tt) by reflexivity.
    rewrite (bind_returned _ _ w1 w1 (Crypto.sha256 data)) by exact Hsum.
    rewrite <- Hpath, String.eqb_refl. reflexivity.
  - subst w1. cbn [root undeletable trace]. repeat split.
    + now rewrite <- app_assoc.
    + unfold Spec.issued. rewrite <- app_assoc, flat_map_app. cbn.
      now rewrite app_nil_r.
Qed.

Lemma organizeFile_in_place_witness :
  exists w',
    FileOrganizer.organizeFile "Attachments/ba/78/a.txt" settings2 placedVault
    = (Returned tt, w')
    /\ root w' = root placedVault.
Proof.
  destruct (organizeFile_in_place "Attachments/ba/78/a.txt" settings2 placedVault
              "a.txt" (ascii_bytes "abc")) as (w' & Hrun & Hroot & _).
  - reflexivity.
  - vm_compute. reflexivity.
  - exists w'. split; assumption.
Defined.

(** * The batch *)

(** C9 — when the root path does not resolve to a folder,
    [organizeAttachments] announces the run, reports that the attachment
    folder was not found and returns: no error, nothing issued to the vault,
    the tree as it was.  [cleanEmptyDirectories] on such a path returns the
    same way. *)
Theorem organizeAttachments_root_absent (settings : FolderizeSettings)
  (w : world) :
  (forall name children,
      Vault.resolve (attachmentPath settings) (root w)
      <> Some (TFolder name children)) ->
  FileOrganizer.organizeAttachments settings w
  = (Returned tt,
     mkWorld (root w) (undeletable w)
       (trace w ++ notFoundEvents (attachmentPath settings)))
  /\ Spec.issued (notFoundEvents (attachmentPath settings)) = []
  /\ DirectoryManager.cleanEmptyDirectories (attachmentPath settings) w
     = (Returned tt,
        mkWorld (root w) (undeletable w)
          (trace w ++ [Logged DEBUG
                         (RemovingEmptyDirectoriesFrom (attachmentPath settings))])).
Proof.
  intros Habsent. repeat split.
  - unfold FileOrganizer.organizeAttachments, bind, logger, notice, emit,
      Vault.getAbstractFileByPath. cbn [root undeletable trace].
    destruct (Vault.resolve (attachmentPath settings) (root w))
      as [[name data|name children]|] eqn:Hres;
      cbn [root undeletable trace]; rewrite <- ?app_assoc; try reflexivity.
    now destruct (Habsent name children).
  - unfold DirectoryManager.cleanEmptyDirectories, bind, logger, emit,
      Vault.getAbstractFileByPath, ret. cbn [root undeletable trace].
    destruct (Vault.resolve (attachmentPath settings) (root w))
      as [[name data|name children]|] eqn:Hres; try reflexivity.
    now destruct (Habsent name children).
Qed.

Lemma organizeAttachments_root_absent_witness :
  FileOrganizer.organizeAttachments settings2 noAttachments
  = (Returned tt,
     mkWorld (root noAttachments) (undeletable noAttachments)
       (trace noAttachments ++ notFoundEvents "Attachments")).
Proof.
  refine (proj1 (organizeAttachments_root_absent settings2 noAttachments _)).
  intros name children. vm_compute. discriminate.
Defined.

(** ** Computations that start no placement *)

Lemma processed_app (a b : list event) :
  Spec.processed (a ++ b) = Spec.processed a ++ Spec.processed b.
Proof. unfold Spec.processed. apply flat_map_app. Qed.

Lemma issued_app (a b : list event) :
  Spec.issued (a ++ b) = Spec.issued a ++ Spec.issued b.
Proof. unfold Spec.issued. apply flat_map_app. Qed.

Lemma quiet_ret {A : Type} (a : A) : quiet (ret a).
Proof.
  intros w r w' H. inversion H; subst. split; [reflexivity|].
  exists []. now rewrite app_nil_r.
Qed.

Lemma quiet_throw {A : Type} (e : error) : quiet (@throw A e).
Proof.
  intros w r w' H. inversion H; subst. split; [reflexivity|].
  exists []. now rewrite app_nil_r.
Qed.

Lemma quiet_hang {A : Type} : quiet (@hang A).
Proof.
  intros w r w' H. inversion H; subst. split; [reflexivity|].
  exists []. now rewrite app_nil_r.
Qed.

(** A computation that only looks at the world. *)
Lemma quiet_reader {A : Type} (m : M A) :
  (forall w, snd (m w) = w) -> quiet m.
Proof.
  intros Hread w r w' H. specialize (Hread w). rewrite H in Hread.
  simpl in Hread. subst w'. split; [reflexivity|].
  exists []. now rewrite app_nil_r.
Qed.

Lemma quiet_bind {A B : Type} (m : M A) (k : A -> M B) :
  quiet m -> (forall a, quiet (k a)) -> quiet (bind m k).
Proof.
  intros Hm Hk w r w' H. unfold bind in H.
  destruct (m w) as [[a|e|] w1] eqn:Hmw.
  - destruct (Hm _ _ _ Hmw) as (Hu1 & evs1 & Ht1 & Hp1).
    destruct (Hk a _ _ _ H) as (Hu2 & evs2 & Ht2 & Hp2).
    split; [congruence|].
    exists (evs1 ++ evs2). split.
    + rewrite Ht2, Ht1. now rewrite app_assoc.
    + rewrite processed_app, Hp1, Hp2. reflexivity.
  - inversion H; subst. eapply Hm; eassumption.
  - inversion H; subst. eapply Hm; eassumption.
Qed.

Lemma quiet_try_catch {A : Type} (m : M A) (handler : error -> M A) :
  quiet m -> (forall e, quiet (handler e)) -> quiet (try_catch m handler).
Proof.
  intros Hm Hh w r w' H. unfold try_catch in H.
  destruct (m w) as [[a|e|] w1] eqn:Hmw.
  - inversion H; subst. eapply Hm; eassumption.
  - destruct (Hm _ _ _ Hmw) as (Hu1 & evs1 & Ht1 & Hp1).
    destruct (Hh e _ _ _ H) as (Hu2 & evs2 & Ht2 & Hp2).
    split; [congruence|].
    exists (evs1 ++ evs2). split.
    + rewrite Ht2, Ht1. now rewrite app_assoc.
    + rewrite processed_app, Hp1, Hp2. reflexivity.
  - inversion H; subst. eapply Hm; eassumption.
Qed.

Lemma quiet_emit (e : event) : Spec.processed [e] = [] -> quiet (emit e).
Proof.
  intros He w r w' H. inversion H; subst. split; [reflexivity|].
  exists [e]. split; [reflexivity | assumption].
Qed.

Lemma quiet_setRoot (r : list node) : quiet (setRoot r).
Proof.
  intros w o w' H. inversion H; subst. split; [reflexivity|].
  exists []. cbn. now rewrite app_nil_r.
Qed.

Lemma quiet_getRoot : quiet getRoot.
Proof. apply quiet_reader. reflexivity. Qed.

Lemma quiet_exists (path : string) : quiet (Vault.exists_ path).
Proof. apply quiet_reader. reflexivity. Qed.

Lemma quiet_getAbstractFileByPath (path : string) :
  quiet (Vault.getAbstractFileByPath path).
Proof. apply quiet_reader. reflexivity. Qed.

Lemma quiet_readBinary (path : string) : quiet (Vault.readBinary path).
Proof.
  apply quiet_reader. intros w. unfold Vault.readBinary.
  destruct (Vault.resolve path (root w)) as [[name [data|]|name children]|];
    reflexivity.
Qed.

Lemma quiet_createFolder (path : string) : quiet (Vault.createFolder path).
Proof.
  unfold Vault.createFolder.
  apply quiet_bind; [now apply quiet_emit|]. intros _.
  apply quiet_bind; [apply quiet_getRoot|]. intros r.
  destruct (Vault.segments path) as [|s segs]; [apply quiet_throw|].
  destruct (Vault.updateAt _ _ r); [apply quiet_setRoot | apply quiet_throw].
Qed.

Lemma quiet_rename (file newPath : string) : quiet (Vault.rename file newPath).
Proof.
  unfold Vault.rename.
  apply quiet_bind; [now apply quiet_emit|]. intros _.
  apply quiet_bind; [apply quiet_getRoot|]. intros r.
  cbv zeta.
  destruct (Vault.segments file) as [|s1 src]; [apply quiet_throw|].
  destruct (Vault.segments newPath) as [|s2 dst]; [apply quiet_throw|].
  destruct (Vault.resolve file r) as [n|]; [|apply quiet_throw].
  destruct (Vault.updateAt _ _ r) as [r1|]; [|apply quiet_throw].
  destruct (Vault.updateAt _ _ r1); [apply quiet_setRoot | apply quiet_throw].
Qed.

Lemma quiet_delete (path : string) : quiet (Vault.delete path).
Proof.
  unfold Vault.delete.
  apply quiet_bind; [now apply quiet_emit|]. intros _.
  apply quiet_bind; [apply quiet_getRoot|]. intros r.
  apply quiet_bind; [apply quiet_reader; reflexivity|]. intros refused.
  destruct refused; [apply quiet_throw|].
  destruct (Vault.segments path) as [|s segs]; [apply quiet_throw|].
  destruct (Vault.updateAt _ _ r); [apply quiet_setRoot | apply quiet_throw].
Qed.

Lemma quiet_mkdirs_loop (parts : list string) :
  forall currentPath, quiet (DirectoryManager.mkdirs_loop parts currentPath).
Proof.
  induction parts as [|part rest IH]; intros currentPath; simpl.
  - apply quiet_ret.
  - apply quiet_bind; [apply quiet_exists|]. intros present.
    apply quiet_bind; [|intros _; apply IH].
    destruct present; simpl; [apply quiet_ret | apply quiet_createFolder].
Qed.

Lemma quiet_mkdirs (dir : string) : quiet (DirectoryManager.mkdirs dir).
Proof.
  unfold DirectoryManager.mkdirs.
  apply quiet_bind; [now apply quiet_emit|]. intros _.
  apply quiet_mkdirs_loop.
Qed.

Lemma quiet_cksum (filePath : string) (chunkSize : Z) :
  quiet (FileOrganizer.cksum filePath chunkSize).
Proof.
  unfold FileOrganizer.cksum.
  apply quiet_bind; [apply quiet_readBinary|]. intros data.
  destruct (FileOrganizer.cksum_bytes data chunkSize);
    [apply quiet_ret | apply quiet_hang].
Qed.

(** [organizeFile] starts the placement of its file and of no other. *)
Lemma organizeFile_trace (file : string) (settings : FolderizeSettings)
  (w : world) (r : outcome unit) (w' : world) :
  FileOrganizer.organizeFile file settings w = (r, w') ->
  undeletable w' = undeletable w
  /\ exists evs,
       trace w' = trace w ++ Logged DEBUG (OrganizingFile file) :: evs
       /\ Spec.processed evs = [].
Proof.
  unfold FileOrganizer.organizeFile. intros H.
  rewrite (bind_returned _ _ w
             (mkWorld (root w) (undeletable w)
                (trace w ++ [Logged DEBUG (OrganizingFile file)])) tt)
    in H by reflexivity.
  revert H.
  match goal with
  | |- ?m ?w1 = _ -> _ => assert (Hq : quiet m)
  end.
  { apply quiet_bind; [apply quiet_cksum|]. intros checksum. cbv zeta.
    destruct (String.eqb file _).
    - now apply quiet_emit.
    - apply quiet_bind; [apply quiet_mkdirs|]. intros _.
      apply quiet_bind; [apply quiet_rename|]. intros _.
      now apply quiet_emit. }
  intros H. destruct (Hq _ _ _ H) as (Hu & evs & Ht & Hp).
  split; [exact Hu|]. exists evs. split; [|exact Hp].
  rewrite Ht. cbn [trace]. now rewrite <- app_assoc.
Qed.

(** * Pruning *)

(** ** The loop by index and the loop by recursion agree *)

Lemma setAt_middle (pre : list node) (x y : node) (rest : list node) :
  DirectoryManager.setAt (List.length pre) y (pre ++ x :: rest) = pre ++ y :: rest.
Proof.
  unfold DirectoryManager.setAt.
  rewrite firstn_app, Nat.sub_diag, firstn_all, app_nil_r.
  rewrite skipn_app, skipn_all2 by lia.
  replace (S (List.length pre) - List.length pre) with 1 by lia.
  reflexivity.
Qed.

Lemma removeAt_middle (pre : list node) (x : node) (rest : list node) :
  DirectoryManager.removeAt (List.length pre) (pre ++ x :: rest) = pre ++ rest.
Proof.
  unfold DirectoryManager.removeAt.
  rewrite firstn_app, Nat.sub_diag, firstn_all, app_nil_r.
  rewrite skipn_app, skipn_all2 by lia.
  replace (S (List.length pre) - List.length pre) with 1 by lia.
  reflexivity.
Qed.

Lemma nth_error_middle (pre rest : list node) :
  nth_error (pre ++ rest) (List.length pre) = nth_error rest 0.
Proof. rewrite nth_error_app2 by lia. now rewrite Nat.sub_diag. Qed.

Lemma snoc_length (pre : list node) (x : node) :
  List.length (pre ++ [x]) = S (List.length pre).
Proof. rewrite length_app. simpl. lia. Qed.

(** With the index at the end of [pre] and enough fuel for what is left,
    the loop by index is the loop by recursion on what is left. *)
Lemma removeEmptyFolders_indexed_loop
  (self : string -> node -> DirectoryManager.walk) (deny : list string)
  (path : string) (fuel : nat) :
  forall (pre rest : list node) (count : nat),
    List.length rest < fuel ->
    DirectoryManager.removeEmptyFolders_indexed self deny path fuel
      (pre ++ rest) (List.length pre) count
    = let '(rest', evs, r) :=
        DirectoryManager.removeEmptyFolders_loop self deny path rest count in
      (pre ++ rest', evs, r).
Proof.
  induction fuel as [|fuel IH]; intros pre rest count Hfuel; [lia|].
  cbn [DirectoryManager.removeEmptyFolders_indexed].
  rewrite nth_error_middle.
  destruct rest as [|child rest]; [reflexivity|].
  cbn [nth_error DirectoryManager.removeEmptyFolders_loop]. simpl in Hfuel.
  destruct child as [fname data|name grandchildren0].
  - (* a file *)
    rewrite <- (snoc_length pre (TFile fname data)).
    replace (pre ++ TFile fname data :: rest)
      with ((pre ++ [TFile fname data]) ++ rest) by now rewrite <- app_assoc.
    rewrite IH by lia.
    destruct (DirectoryManager.removeEmptyFolders_loop self deny path rest count)
      as [[rest' evs] r].
    now rewrite <- app_assoc.
  - (* a folder *)
    destruct (self (Vault.childPath path name) (TFolder name grandchildren0))
      as [[grandchildren evs1] r1].
    rewrite setAt_middle.
    destruct r1 as [n|e|]; [|reflexivity|reflexivity].
    destruct grandchildren as [|g grandchildren].
    + destruct (existsb (String.eqb (Vault.childPath path name)) deny);
        [reflexivity|].
      rewrite removeAt_middle.
      destruct rest as [|skipped rest].
      * destruct fuel as [|fuel]; [lia|].
        cbn [DirectoryManager.removeEmptyFolders_indexed].
        rewrite app_nil_r.
        assert (Hend : nth_error pre (S (List.length pre)) = None)
          by (apply nth_error_None; lia).
        rewrite Hend. now rewrite app_nil_r.
      * rewrite <- (snoc_length pre skipped).
        replace (pre ++ skipped :: rest)
          with ((pre ++ [skipped]) ++ rest) by now rewrite <- app_assoc.
        simpl in Hfuel. rewrite IH by lia.
        destruct (DirectoryManager.removeEmptyFolders_loop self deny path rest
                    (count + n + 1)) as [[rest' evs] r].
        now rewrite <- app_assoc.
    + rewrite <- (snoc_length pre (TFolder name (g :: grandchildren))).
      replace (pre ++ TFolder name (g :: grandchildren) :: rest)
        with ((pre ++ [TFolder name (g :: grandchildren)]) ++ rest)
        by now rewrite <- app_assoc.
      rewrite IH by lia.
      destruct (DirectoryManager.removeEmptyFolders_loop self deny path rest
                  (count + n)) as [[rest' evs] r].
      now rewrite <- app_assoc.
Qed.

(** [removeEmptyFolders] is its loop run by index from 0, as in the
    source. *)
Lemma removeEmptyFolders_runs_indexed (deny : list string) (path name : string)
  (children : list node) :
  DirectoryManager.removeEmptyFolders deny path (TFolder name children)
  = DirectoryManager.removeEmptyFolders_indexed
      (DirectoryManager.removeEmptyFolders deny) deny path
      (S (List.length children)) children 0 0.
Proof.
  cbn [DirectoryManager.removeEmptyFolders].
  rewrite (removeEmptyFolders_indexed_loop _ deny path (S (List.length children))
             [] children 0) by lia.
  now destruct (DirectoryManager.removeEmptyFolders_loop _ deny path children 0)
    as [[rest' evs] r].
Qed.


Lemma only_prunes_nil (path : string) (folder : node) :
  only_prunes path folder [].
Proof. split; [reflexivity|]. intros c []. Qed.

Lemma only_prunes_app (path : string) (folder : node) (a b : list event) :
  only_prunes path folder a -> only_prunes path folder b ->
  only_prunes path folder (a ++ b).
Proof.
  intros [Hpa Hia] [Hpb Hib]. split.
  - now rewrite processed_app, Hpa, Hpb.
  - intros c Hc. apply in_app_or in Hc. destruct Hc; auto.
Qed.

Lemma only_prunes_deeper (path name : string) (children : list node)
  (c : node) (evs : list event) :
  In c children ->
  only_prunes (Vault.childPath path (Vault.nodeName c)) c evs ->
  only_prunes path (TFolder name children) evs.
Proof.
  intros Hin [Hp Hi]. split; [assumption|].
  intros cmd Hcmd. destruct (Hi cmd Hcmd) as (p & d & Hdel & Hbelow & Hfiles).
  exists p, d. split; [assumption|]. split; [|assumption].
  eapply Spec.below_deeper; eassumption.
Qed.

Lemma only_prunes_delete (path name : string) (children : list node)
  (cname : string) (grandchildren : list node) :
  In (TFolder cname grandchildren) children ->
  filesIn (Vault.childPath path cname) grandchildren = [] ->
  only_prunes path (TFolder name children)
    [Logged DEBUG (RemovingEmptyFolder (Vault.childPath path cname));
     Issued (Delete (Vault.childPath path cname))].
Proof.
  intros Hin Hfiles. split; [reflexivity|].
  intros c [Hc|[Hc|[]]]; [discriminate|]. inversion Hc; subst c.
  exists (Vault.childPath path cname), (TFolder cname grandchildren).
  split; [reflexivity|]. split; [|exact Hfiles].
  now apply Spec.below_child.
Qed.

Lemma only_prunes_logged (path : string) (folder : node) (level : LogLevel)
  (m : message) :
  Spec.processed [Logged level m] = [] ->
  only_prunes path folder [Logged level m].
Proof.
  intros H. split; [assumption|]. intros c [Hc|[]]. discriminate.
Qed.

(** The [for] loop of [removeEmptyFolders], given that the walk of every
    child is sound. *)
Lemma removeEmptyFolders_loop_sound (deny : list string) (path name : string)
  (all : list node) :
  Forall (fun c => forall path,
              walk_sound path c (DirectoryManager.removeEmptyFolders deny path c))
    all ->
  forall (n : nat) (children : list node) (count : nat),
    List.length children <= n ->
    incl children all ->
    (forall p,
        filesIn p
          (fst (fst (DirectoryManager.removeEmptyFolders_loop
                       (DirectoryManager.removeEmptyFolders deny) deny path
                       children count)))
        = filesIn p children)
    /\ only_prunes path (TFolder name all)
         (snd (fst (DirectoryManager.removeEmptyFolders_loop
                      (DirectoryManager.removeEmptyFolders deny) deny path
                      children count))).
Proof.
  intros Hall. rewrite Forall_forall in Hall.
  induction n as [|n IH]; intros children count Hlen Hincl.
  - destruct children; [|simpl in Hlen; lia].
    split; [reflexivity | apply only_prunes_nil].
  - destruct children as [|child rest].
    { split; [reflexivity | apply only_prunes_nil]. }
    assert (Hchild : In child all) by (apply Hincl; now left).
    assert (Hrest : incl rest all) by (intros x Hx; apply Hincl; now right).
    simpl in Hlen.
    destruct child as [fname data|cname grandchildren].
    + (* a file: the loop moves on *)
      cbn [DirectoryManager.removeEmptyFolders_loop].
      destruct (IH rest count ltac:(lia) Hrest) as [Hf Hp].
      destruct (DirectoryManager.removeEmptyFolders_loop _ deny path rest count)
        as [[rest' evs] r].
      cbn [fst snd] in *. split; [|assumption].
      intros p. unfold filesIn. cbn [flat_map]. f_equal. apply Hf.
    + (* a folder: recursive call, then the test on its children *)
      cbn [DirectoryManager.removeEmptyFolders_loop].
      pose proof (Hall _ Hchild (Vault.childPath path cname)) as Hsound.
      unfold walk_sound in Hsound.
      destruct (DirectoryManager.removeEmptyFolders deny
                  (Vault.childPath path cname) (TFolder cname grandchildren))
        as [[grandchildren' evs1] r1].
      cbn [fst snd] in Hsound. destruct Hsound as [Hgf Hgp].
      assert (Hdeep : only_prunes path (TFolder name all) evs1).
      { eapply only_prunes_deeper; [exact Hchild | exact Hgp]. }
      assert (Hsame : forall tail p,
                 filesIn p (TFolder cname grandchildren' :: tail)
                 = filesIn p (TFolder cname grandchildren :: tail)).
      { intros tail p. unfold filesIn. cbn [flat_map Spec.files Vault.nodeName].
        f_equal. apply Hgf. }
      destruct r1 as [k|e|].
      * destruct grandchildren' as [|g grandchildren'].
        -- (* the child has no children left: it is deleted *)
           assert (Hnone : forall p, filesIn p grandchildren = []).
           { intros p. now rewrite <- Hgf. }
           assert (Hdel : only_prunes path (TFolder name all)
                            (evs1 ++ [Logged DEBUG (RemovingEmptyFolder
                                                      (Vault.childPath path cname));
                                      Issued (Delete (Vault.childPath path cname))])).
           { apply only_prunes_app; [assumption|].
             apply (only_prunes_delete path name all cname grandchildren);
               [assumption | apply Hnone]. }
           destruct (existsb (String.eqb (Vault.childPath path cname)) deny).
           ++ cbn [fst snd]. split; [|assumption].
              intros p. apply Hsame.
           ++ assert (Hdone : only_prunes path (TFolder name all)
                                ((evs1 ++ [Logged DEBUG (RemovingEmptyFolder
                                                           (Vault.childPath path cname));
                                           Issued (Delete (Vault.childPath path cname))])
                                   ++ [Logged INFO (RemovedEmptyFolder
                                                      (Vault.childPath path cname))])).
              { apply only_prunes_app; [assumption|].
                now apply only_prunes_logged. }
              destruct rest as [|skipped rest'].
              ** cbn [fst snd]. split; [|assumption].
                 intros p. unfold filesIn. cbn [flat_map Spec.files Vault.nodeName].
                 rewrite app_nil_r. symmetry. apply Hnone.
              ** simpl in Hlen.
                 assert (Hrest' : incl rest' all).
                 { intros x Hx. apply Hrest. now right. }
                 destruct (IH rest' (count + k + 1) ltac:(lia) Hrest') as [Hf Hp].
                 destruct (DirectoryManager.removeEmptyFolders_loop _ deny path
                             rest' (count + k + 1)) as [[rest'' evs] r].
                 cbn [fst snd] in *. split.
                 --- intros p. unfold filesIn.
                     cbn [flat_map Spec.files Vault.nodeName].
                     fold (filesIn (Vault.childPath p cname) grandchildren).
                     rewrite Hnone. cbn [app]. f_equal. apply Hf.
                 --- now apply only_prunes_app.
        -- (* the child keeps children: the loop moves on *)
           destruct (IH rest (count + k) ltac:(lia) Hrest) as [Hf Hp].
           destruct (DirectoryManager.removeEmptyFolders_loop _ deny path rest
                       (count + k)) as [[rest' evs] r].
           cbn [fst snd] in *. split.
           ++ intros p. rewrite <- Hsame. unfold filesIn. cbn [flat_map].
              f_equal. apply Hf.
           ++ now apply only_prunes_app.
      * cbn [fst snd]. split; [|assumption]. intros p. apply Hsame.
      * cbn [fst snd]. split; [|assumption]. intros p. apply Hsame.
Qed.

(** Every pruning walk keeps the files and only prunes. *)
Lemma removeEmptyFolders_sound (deny : list string) (folder : node) :
  forall path,
    walk_sound path folder (DirectoryManager.removeEmptyFolders deny path folder).
Proof.
  induction folder as [name data|name children IH] using node_induction;
    intros path.
  - exact I.
  - unfold walk_sound. cbn [DirectoryManager.removeEmptyFolders].
    apply (removeEmptyFolders_loop_sound deny path name children IH
             (List.length children) children 0 (le_n _) (incl_refl _)).
Qed.

(** ** The pruned folder inside the vault *)

Lemma filesIn_app (p : string) (a b : list node) :
  filesIn p (a ++ b) = filesIn p a ++ filesIn p b.
Proof. unfold filesIn. apply flat_map_app. Qed.

Lemma findChild_name (s : string) (r : list node) (c : node) :
  Vault.findChild s r = Some c -> Vault.nodeName c = s.
Proof.
  induction r as [|x r IH]; simpl; [discriminate|].
  destruct (String.eqb_spec (Vault.nodeName x) s) as [Heq|Hne].
  - intros H. now inversion H; subst.
  - exact IH.
Qed.

(** Updating the child that [findChild] finds, keeping its name. *)
Lemma updateChild_found (s : string) (g : node -> option node)
  (r : list node) (c c' : node) :
  Vault.findChild s r = Some c ->
  g c = Some c' ->
  Vault.nodeName c' = Vault.nodeName c ->
  exists pre post,
    r = pre ++ c :: post
    /\ Vault.updateChild s g r = Some (pre ++ c' :: post)
    /\ Vault.findChild s (pre ++ c' :: post) = Some c'.
Proof.
  intros Hfind Hg Hname. induction r as [|x r IH]; simpl in *; [discriminate|].
  destruct (String.eqb_spec (Vault.nodeName x) s) as [Heq|Hne].
  - inversion Hfind; subst x. exists [], r. simpl. rewrite Hg. simpl.
    rewrite Hname. destruct (String.eqb_spec (Vault.nodeName c) s); [|contradiction].
    repeat split.
  - destruct (IH Hfind) as (pre & post & Hr & Hupd & Hfind').
    exists (x :: pre), post. simpl. rewrite Hupd. simpl.
    destruct (String.eqb_spec (Vault.nodeName x) s); [contradiction|].
    subst r. repeat split. exact Hfind'.
Qed.

(** Replacing the children of the folder that a path resolves to: the path
    resolves to the folder with its new children, and the vault holds the
    same files if the folder does. *)
Lemma updateAt_replace (segs : list string) (name : string)
  (ch ch' : list node) :
  forall (n : string) (r : list node),
    Vault.lookup segs (TFolder n r) = Some (TFolder name ch) ->
    exists r',
      Vault.updateAt segs (fun _ => Some ch') r = Some r'
      /\ Vault.lookup segs (TFolder n r') = Some (TFolder name ch')
      /\ ((forall p, filesIn p ch' = filesIn p ch) ->
          forall p, filesIn p r' = filesIn p r).
Proof.
  induction segs as [|s rest IH]; intros n r Hlook.
  - simpl in Hlook. inversion Hlook; subst. exists ch'. simpl. auto.
  - simpl in Hlook.
    destruct (Vault.findChild s r) as [c|] eqn:Hfind; [|discriminate].
    destruct c as [fname data|cname ch0].
    { destruct rest; simpl in Hlook; discriminate. }
    destruct (IH cname ch0 Hlook) as (ch0' & Hupd & Hlook' & Hfiles).
    destruct (updateChild_found s
                (fun c => match c with
                          | TFile _ _ => None
                          | TFolder n0 ch1 =>
                              option_map (TFolder n0)
                                (Vault.updateAt rest (fun _ => Some ch') ch1)
                          end)
                r (TFolder cname ch0) (TFolder cname ch0') Hfind)
      as (pre & post & Hr & Hupd' & Hfind').
    { now rewrite Hupd. }
    { reflexivity. }
    exists (pre ++ TFolder cname ch0' :: post). split; [exact Hupd'|]. split.
    + simpl. now rewrite Hfind'.
    + intros Hsame p. subst r. rewrite !filesIn_app. f_equal.
      unfold filesIn. cbn [flat_map Spec.files Vault.nodeName].
      f_equal. apply (Hfiles Hsame).
Qed.

(** What [removeEmptyFolders] does to the vault, for the folder a path
    resolves to. *)
Lemma removeEmptyFolders_in_vault_spec (path name : string)
  (children : list node) (w : world) :
  Vault.resolve path (root w) = Some (TFolder name children) ->
  let wk := DirectoryManager.removeEmptyFolders (undeletable w) path
              (TFolder name children) in
  let run := DirectoryManager.removeEmptyFolders_in_vault path
               (TFolder name children) w in
  fst run = snd wk
  /\ undeletable (snd run) = undeletable w
  /\ trace (snd run) = trace w ++ snd (fst wk)
  /\ Vault.resolve path (root (snd run)) = Some (TFolder name (fst (fst wk)))
  /\ Spec.vaultFiles (root (snd run)) = Spec.vaultFiles (root w)
  /\ only_prunes path (TFolder name children) (snd (fst wk)).
Proof.
  intros Hres wk run.
  pose proof (removeEmptyFolders_sound (undeletable w) (TFolder name children) path)
    as [Hfiles Hprunes].
  fold wk in Hfiles, Hprunes.
  unfold Vault.resolve in Hres.
  destruct (updateAt_replace (Vault.segments path) name children (fst (fst wk))
              EmptyString (root w) Hres) as (r' & Hupd & Hlook & Hsame).
  subst run. unfold DirectoryManager.removeEmptyFolders_in_vault.
  fold wk. destruct wk as [[children' evs] r]. cbn [fst snd] in *.
  rewrite Hupd. cbn [fst snd root undeletable trace].
  do 3 (split; [reflexivity|]).
  split; [exact Hlook|]. split; [|exact Hprunes].
  unfold Spec.vaultFiles. cbn [Spec.files]. apply (Hsame Hfiles).
Qed.

(** [cleanEmptyDirectories] on a path that resolves to a folder. *)
Lemma cleanEmptyDirectories_folder (path name : string) (children : list node)
  (w : world) :
  Vault.resolve path (root w) = Some (TFolder name children) ->
  let wk := DirectoryManager.removeEmptyFolders (undeletable w) path
              (TFolder name children) in
  let run := DirectoryManager.cleanEmptyDirectories path w in
  fst run = forget (snd wk)
  /\ undeletable (snd run) = undeletable w
  /\ trace (snd run)
     = trace w ++ Logged DEBUG (RemovingEmptyDirectoriesFrom path)
                  :: snd (fst wk) ++ cleanup_report (snd wk)
  /\ Vault.resolve path (root (snd run)) = Some (TFolder name (fst (fst wk)))
  /\ Spec.vaultFiles (root (snd run)) = Spec.vaultFiles (root w).
Proof.
  intros Hres wk run. subst run.
  unfold DirectoryManager.cleanEmptyDirectories.
  set (w1 := mkWorld (root w) (undeletable w)
               (trace w ++ [Logged DEBUG (RemovingEmptyDirectoriesFrom path)])).
  rewrite (bind_returned _ _ w w1 tt) by reflexivity.
  rewrite (bind_returned _ _ w1 w1 (Vault.resolve path (root w))) by reflexivity.
  rewrite Hres.
  destruct (removeEmptyFolders_in_vault_spec path name children w1 Hres)
    as (Hr & Hu & Ht & Hlook & Hf & _).
  change (undeletable w1) with (undeletable w) in *. fold wk in Hr, Ht, Hlook.
  unfold bind.
  destruct (DirectoryManager.removeEmptyFolders_in_vault path
              (TFolder name children) w1) as [r w2].
  cbn [fst snd] in *. rewrite <- Hr.
  assert (Htr : trace w2
                = trace w ++ Logged DEBUG (RemovingEmptyDirectoriesFrom path)
                             :: snd (fst wk)).
  { rewrite Ht. subst w1. cbn [trace]. now rewrite <- app_assoc. }
  destruct r as [removedCount|e|]; cbn [forget cleanup_report].
  - destruct (Nat.ltb 0 removedCount);
      cbn [fst snd root undeletable trace logger notice emit bind ret].
    + repeat split; try assumption.
      rewrite Htr. rewrite <- !app_assoc. reflexivity.
    + repeat split; try assumption. now rewrite app_nil_r.
  - cbn [fst snd]. repeat split; try assumption. now rewrite app_nil_r.
  - cbn [fst snd]. repeat split; try assumption. now rewrite app_nil_r.
Qed.

(** [cleanEmptyDirectories] on a path that does not resolve to a folder. *)
Lemma cleanEmptyDirectories_absent (path : string) (w : world) :
  (forall name children,
      Vault.resolve path (root w) <> Some (TFolder name children)) ->
  DirectoryManager.cleanEmptyDirectories path w
  = (Returned tt,
     mkWorld (root w) (undeletable w)
       (trace w ++ [Logged DEBUG (RemovingEmptyDirectoriesFrom path)])).
Proof.
  intros Habsent.
  unfold DirectoryManager.cleanEmptyDirectories, bind, logger, emit,
    Vault.getAbstractFileByPath, ret. cbn [root undeletable trace].
  destruct (Vault.resolve path (root w)) as [[name data|name children]|] eqn:Hres;
    try reflexivity.
  now destruct (Habsent name children).
Qed.

Lemma resolve_folder_dec (path : string) (r : list node) :
  (exists name children, Vault.resolve path r = Some (TFolder name children))
  \/ (forall name children, Vault.resolve path r <> Some (TFolder name children)).
Proof.
  destruct (Vault.resolve path r) as [[name data|name children]|].
  - right. discriminate.
  - left. eauto.
  - right. discriminate.
Qed.

(** C6 — pruning deletes no file: after [cleanEmptyDirectories], whatever
    the host allows or refuses, the vault holds the same files at the same
    paths with the same content, and every command issued is the deletion
    of a folder below the root path that holds no file. *)
Theorem cleanEmptyDirectories_keeps_files (attachmentPath : string) (w : world) :
  let w' := snd (DirectoryManager.cleanEmptyDirectories attachmentPath w) in
  Spec.vaultFiles (root w') = Spec.vaultFiles (root w)
  /\ exists evs,
       trace w' = trace w ++ evs
       /\ forall c,
            In (Issued c) evs ->
            exists p d folder,
              c = Delete p
              /\ Vault.resolve attachmentPath (root w) = Some folder
              /\ Spec.folderBelow attachmentPath folder p d
              /\ Spec.files p d = [].
Proof.
  intros w'. subst w'.
  destruct (resolve_folder_dec attachmentPath (root w))
    as [(name & children & Hres)|Habsent].
  - destruct (cleanEmptyDirectories_folder attachmentPath name children w Hres)
      as (_ & _ & Ht & _ & Hf).
    split; [exact Hf|]. eexists. split; [exact Ht|].
    intros c [Hc|Hc]; [discriminate|].
    apply in_app_or in Hc. destruct Hc as [Hc|Hc].
    + pose proof (removeEmptyFolders_sound (undeletable w)
                    (TFolder name children) attachmentPath) as Hs.
      unfold walk_sound, only_prunes in Hs. destruct Hs as (_ & _ & Hi).
      destruct (Hi c Hc) as (p & d & H1 & H2 & H3).
      exists p, d, (TFolder name children). auto.
    + exfalso. revert Hc. unfold cleanup_report.
      destruct (snd (DirectoryManager.removeEmptyFolders _ _ _)) as [n| |];
        [destruct (Nat.ltb 0 n)| |];
        simpl; intuition discriminate.
  - rewrite (cleanEmptyDirectories_absent attachmentPath w Habsent).
    split; [reflexivity|]. eexists. split; [reflexivity|].
    intros c [Hc|[]]. discriminate.
Qed.

Lemma pruning_of_mixed_vault :
  let w' := snd (DirectoryManager.cleanEmptyDirectories "Attachments" mixedVault) in
  Spec.vaultFiles (root w')
  = [("Attachments/keep.txt", Some (ascii_bytes "abc"));
     ("Attachments/full/x.bin", None)]
  /\ Spec.issued (trace w')
     = [Delete "Attachments/old/deep"; Delete "Attachments/old";
        Delete "Attachments/locked"].
Proof. vm_compute. split; reflexivity. Qed.

(** C7, as the code has it — [cleanEmptyDirectories] never removes the root
    folder itself: whatever is below it, and also when it has no children at
    all, the root path still resolves to the folder afterwards, and the
    folders deleted are folders strictly below it. *)
Theorem cleanEmptyDirectories_keeps_root (attachmentPath name : string)
  (children : list node) (w : world) :
  Vault.resolve attachmentPath (root w) = Some (TFolder name children) ->
  let w' := snd (DirectoryManager.cleanEmptyDirectories attachmentPath w) in
  (exists children',
      Vault.resolve attachmentPath (root w') = Some (TFolder name children'))
  /\ exists evs,
       trace w' = trace w ++ evs
       /\ forall c,
            In (Issued c) evs ->
            exists p d,
              c = Delete p
              /\ Spec.folderBelow attachmentPath (TFolder name children) p d.
Proof.
  intros Hres w'. subst w'.
  destruct (cleanEmptyDirectories_folder attachmentPath name children w Hres)
    as (_ & _ & Ht & Hlook & _).
  split; [eexists; exact Hlook|].
  eexists. split; [exact Ht|].
  intros c [Hc|Hc]; [discriminate|].
  apply in_app_or in Hc. destruct Hc as [Hc|Hc].
  - pose proof (removeEmptyFolders_sound (undeletable w)
                  (TFolder name children) attachmentPath) as Hs.
    unfold walk_sound, only_prunes in Hs. destruct Hs as (_ & _ & Hi).
    destruct (Hi c Hc) as (p & d & H1 & H2 & _).
    exists p, d. auto.
  - exfalso. revert Hc. unfold cleanup_report.
    destruct (snd (DirectoryManager.removeEmptyFolders _ _ _)) as [n| |];
        [destruct (Nat.ltb 0 n)| |];
      simpl; intuition discriminate.
Qed.

Lemma cleanEmptyDirectories_keeps_root_witness :
  exists children',
    Vault.resolve "Attachments"
      (root (snd (DirectoryManager.cleanEmptyDirectories "Attachments"
                    siblingsVault)))
    = Some (TFolder "Attachments" children').
Proof.
  exact (proj1 (cleanEmptyDirectories_keeps_root "Attachments" "Attachments"
                  [TFolder "a" []; TFolder "b" []] siblingsVault eq_refl)).
Defined.

(** The claim fails on an attachment folder without children: the folder
    is still there after pruning, and nothing was deleted. *)
Lemma root_without_children_is_kept :
  let w' := snd (DirectoryManager.cleanEmptyDirectories "Attachments" bareVault) in
  Vault.resolve "Attachments" (root bareVault) = Some (TFolder "Attachments" [])
  /\ Spec.vaultFiles (TFolder "Attachments" [] :: nil) = []
  /\ Vault.resolve "Attachments" (root w') = Some (TFolder "Attachments" [])
  /\ Vault.resolve "Attachments" (root w') <> None
  /\ Spec.issued (trace w') = [].
Proof. vm_compute. repeat split. discriminate. Qed.

(** ** Pruning as specified reaches the fixpoint *)

Lemma prune_name (n : node) : Vault.nodeName (Spec.prune n) = Vault.nodeName n.
Proof. destruct n; reflexivity. Qed.

Lemma prune_keeps_files (n : node) :
  forall p, Spec.files p (Spec.prune n) = Spec.files p n.
Proof.
  induction n as [name data|name children IH] using node_induction; intros p.
  - reflexivity.
  - cbn [Spec.prune Spec.files]. induction IH as [|c rest Hc _ IHrest].
    + reflexivity.
    + cbn [map filter flat_map]. rewrite <- IHrest.
      destruct (negb (Vault.isFolder (Spec.prune c)) || Spec.hasChildren (Spec.prune c))
        eqn:Hkeep.
      * cbn [flat_map]. now rewrite prune_name, Hc.
      * rewrite <- Hc.
        destruct (Spec.prune c) as [fname data|fname [|g gs]]; try discriminate.
        reflexivity.
Qed.

Lemma pruned_with_children_not_empty (n : node) :
  Spec.pruned n = true -> Spec.hasChildren n = true -> Spec.isEmpty n = false.
Proof.
  destruct n as [name data|name [|c rest]]; try discriminate.
  cbn [Spec.pruned Spec.isEmpty forallb]. intros H _.
  apply andb_prop in H. destruct H as [H _].
  apply andb_prop in H. destruct H as [H _].
  apply negb_true_iff in H. now rewrite H.
Qed.

Lemma prune_pruned (n : node) : Spec.pruned (Spec.prune n) = true.
Proof.
  induction n as [name data|name children IH] using node_induction.
  - reflexivity.
  - cbn [Spec.prune Spec.pruned]. induction IH as [|c rest Hc _ IHrest].
    + reflexivity.
    + cbn [map filter].
      destruct (negb (Vault.isFolder (Spec.prune c)) || Spec.hasChildren (Spec.prune c))
        eqn:Hkeep; [|exact IHrest].
      cbn [forallb]. rewrite IHrest, Hc, andb_true_r. cbn [andb].
      apply orb_prop in Hkeep. destruct Hkeep as [Hfile|Hch].
      * destruct (Spec.prune c); [reflexivity | discriminate].
      * now rewrite (pruned_with_children_not_empty _ Hc Hch).
Qed.

(** C5 on the code: with two empty folders side by side and every deletion
    allowed, [cleanEmptyDirectories] deletes the first one and leaves the
    second: the deletion takes the first folder out of the array the loop
    is walking, the second folder moves into the slot already visited and
    the loop ends.  An empty directory is left below the root; pruning as
    specified leaves none, and a second call removes it. *)
Theorem removeEmptyFolders_skips_sibling :
  let run := DirectoryManager.cleanEmptyDirectories "Attachments" siblingsVault in
  undeletable siblingsVault = []
  /\ fst run = Returned tt
  /\ root (snd run) = [TFolder "Attachments" [TFolder "b" []]]
  /\ Spec.issued (trace (snd run)) = [Delete "Attachments/a"]
  /\ Spec.pruned (TFolder "Attachments" [TFolder "b" []]) = false
  /\ Spec.prune (TFolder "Attachments" [TFolder "a" []; TFolder "b" []])
     = TFolder "Attachments" []
  /\ root (snd (DirectoryManager.cleanEmptyDirectories "Attachments" (snd run)))
     = [TFolder "Attachments" []].
Proof. vm_compute. repeat split. Qed.

(** The older revision collects the empty folders before it deletes any
    and leaves none on the same vault. *)
Lemma findEmptyFolders_removes_both_siblings :
  let run := Part000.DirectoryManager.cleanEmptyDirectories oldSettings2
               siblingsVault in
  fst run = Returned tt
  /\ root (snd run) = [TFolder "Attachments" []]
  /\ Spec.issued (trace (snd run))
     = [Delete "Attachments/b"; Delete "Attachments/a"].
Proof. vm_compute. repeat split. Qed.

(** * The batch: the worklist and what a failure does to it *)

Lemma quiet_cleanEmptyDirectories (path : string) :
  quiet (DirectoryManager.cleanEmptyDirectories path).
Proof.
  intros w r w' Hrun.
  assert (Hw' : w' = snd (DirectoryManager.cleanEmptyDirectories path w))
    by now rewrite Hrun.
  destruct (resolve_folder_dec path (root w)) as [(name & children & Hres)|Habsent].
  - destruct (cleanEmptyDirectories_folder path name children w Hres)
      as (_ & Hu & Ht & _ & _).
    rewrite <- Hw' in Hu, Ht. split; [exact Hu|].
    eexists. split; [exact Ht|].
    pose proof (removeEmptyFolders_sound (undeletable w) (TFolder name children) path)
      as Hs.
    unfold walk_sound, only_prunes in Hs. destruct Hs as (_ & Hp & _).
    change (Logged DEBUG (RemovingEmptyDirectoriesFrom path)
              :: snd (fst (DirectoryManager.removeEmptyFolders (undeletable w) path
                             (TFolder name children)))
              ++ cleanup_report
                   (snd (DirectoryManager.removeEmptyFolders (undeletable w) path
                           (TFolder name children))))
      with ([Logged DEBUG (RemovingEmptyDirectoriesFrom path)]
              ++ snd (fst (DirectoryManager.removeEmptyFolders (undeletable w) path
                             (TFolder name children)))
              ++ cleanup_report
                   (snd (DirectoryManager.removeEmptyFolders (undeletable w) path
                           (TFolder name children)))).
    rewrite !processed_app, Hp. unfold cleanup_report.
    destruct (snd (DirectoryManager.removeEmptyFolders _ _ _)) as [n| |];
      [destruct (Nat.ltb 0 n)| |]; reflexivity.
  - rewrite (cleanEmptyDirectories_absent path w Habsent) in Hrun.
    inversion Hrun; subst. split; [reflexivity|].
    eexists. split; reflexivity.
Qed.

(** The loop over the worklist: the placements started are, in order, a
    prefix of the worklist, and the whole worklist when the loop returns;
    then the count is the number of files. *)
Lemma organize_loop_trace (settings : FolderizeSettings) (files : list string) :
  forall (n : nat) (w : world),
    let run := FileOrganizer.organize_loop files settings n w in
    undeletable (snd run) = undeletable w
    /\ exists evs rest,
         trace (snd run) = trace w ++ evs
         /\ files = Spec.processed evs ++ rest
         /\ forall n', fst run = Returned n' ->
                       rest = [] /\ n' = n + List.length files.
Proof.
  induction files as [|file files IH]; intros n w run; subst run.
  - cbn. split; [reflexivity|]. exists [], []. rewrite app_nil_r.
    repeat split. inversion H. lia.
  - cbn [FileOrganizer.organize_loop]. unfold bind.
    destruct (FileOrganizer.organizeFile file settings w) as [[[]|e|] w1] eqn:Hfile;
      destruct (organizeFile_trace _ _ _ _ _ Hfile) as (Hu1 & evs1 & Ht1 & Hp1).
    + destruct (IH (n + 1) w1) as (Hu2 & evs2 & rest & Ht2 & Hfiles & Hret).
      split; [congruence|].
      exists (Logged DEBUG (OrganizingFile file) :: evs1 ++ evs2), rest.
      split; [|split].
      * rewrite Ht2, Ht1. rewrite <- app_assoc. reflexivity.
      * change (Logged DEBUG (OrganizingFile file) :: evs1 ++ evs2)
          with ([Logged DEBUG (OrganizingFile file)] ++ evs1 ++ evs2).
        rewrite !processed_app, Hp1. cbn. now f_equal.
      * intros n' Hn'. destruct (Hret n' Hn') as [Hrest Hcount].
        split; [assumption|]. cbn [List.length]. lia.
    + cbn [fst snd]. split; [assumption|].
      exists (Logged DEBUG (OrganizingFile file) :: evs1), files.
      split; [assumption|]. split; [|discriminate].
      change (Logged DEBUG (OrganizingFile file) :: evs1)
        with ([Logged DEBUG (OrganizingFile file)] ++ evs1).
      rewrite processed_app, Hp1. reflexivity.
    + cbn [fst snd]. split; [assumption|].
      exists (Logged DEBUG (OrganizingFile file) :: evs1), files.
      split; [assumption|]. split; [|discriminate].
      change (Logged DEBUG (OrganizingFile file) :: evs1)
        with ([Logged DEBUG (OrganizingFile file)] ++ evs1).
      rewrite processed_app, Hp1. reflexivity.
Qed.

Lemma organize_loop_app (settings : FolderizeSettings) (a b : list string) :
  forall (n : nat) (w : world),
    FileOrganizer.organize_loop (a ++ b) settings n w
    = bind (FileOrganizer.organize_loop a settings n)
        (fun n1 => FileOrganizer.organize_loop b settings n1) w.
Proof.
  induction a as [|file a IH]; intros n w.
  - reflexivity.
  - cbn [app FileOrganizer.organize_loop]. unfold bind at 1 2 3.
    destruct (FileOrganizer.organizeFile file settings w) as [[[]|e|] w1];
      [|reflexivity|reflexivity].
    rewrite IH. reflexivity.
Qed.

(** [organizeFile] on a file that cannot be read. *)
Lemma organizeFile_read_fault (file : string) (settings : FolderizeSettings)
  (w : world) :
  Vault.readBinary file w = (Thrown (ReadFault file), w) ->
  FileOrganizer.organizeFile file settings w
  = (Thrown (ReadFault file),
     mkWorld (root w) (undeletable w)
       (trace w ++ [Logged DEBUG (OrganizingFile file)])).
Proof.
  intros Hread. unfold FileOrganizer.organizeFile.
  set (w1 := mkWorld (root w) (undeletable w)
               (trace w ++ [Logged DEBUG (OrganizingFile file)])).
  rewrite (bind_returned _ _ w w1 tt) by reflexivity.
  apply bind_thrown. unfold FileOrganizer.cksum. apply bind_thrown.
  unfold Vault.readBinary in *. change (root w1) with (root w).
  destruct (Vault.resolve file (root w)) as [[name [data|]|name children]|];
    try reflexivity.
  discriminate.
Qed.

(** [organizeAttachments] on a root path that resolves to a folder: the
    worklist is computed from the folder as it is, then the loop runs. *)
Lemma organizeAttachments_folder (settings : FolderizeSettings) (w : world)
  (name : string) (children : list node) :
  Vault.resolve (attachmentPath settings) (root w) = Some (TFolder name children) ->
  let files := FileOrganizer.getFilesInFolder (attachmentPath settings)
                 (TFolder name children) in
  FileOrganizer.organizeAttachments settings w
  = bind (FileOrganizer.organize_loop files settings 0) (conclude settings)
      (announced settings (List.length files) w).
Proof.
  intros Hres files. unfold FileOrganizer.organizeAttachments.
  unfold bind at 1 2 3. unfold logger at 1, notice at 1, emit.
  unfold Vault.getAbstractFileByPath. cbn [root undeletable trace].
  rewrite Hres. unfold bind at 1. unfold logger at 1, emit.
  cbn [root undeletable trace]. rewrite <- !app_assoc. reflexivity.
Qed.

Lemma quiet_conclude (settings : FolderizeSettings) (processedCount : nat) :
  forall w r w',
    conclude settings processedCount w = (r, w') ->
    exists evs,
      trace w' = trace w ++ evs
      /\ Spec.processed evs = []
      /\ In (Notice (OrganizedAttachments processedCount)) evs.
Proof.
  intros w r w' H. unfold conclude in H.
  set (w2 := mkWorld (root w) (undeletable w)
               (trace w ++ [Logged DEBUG (OrganizationComplete processedCount);
                            Notice (OrganizedAttachments processedCount)])).
  assert (Hstep : forall k : M unit,
             bind (logger DEBUG (OrganizationComplete processedCount))
               (fun _ => bind (notice (OrganizedAttachments processedCount))
                           (fun _ => k)) w = k w2).
  { intros k. unfold bind, logger, notice, emit. cbn [root undeletable trace].
    subst w2. now rewrite <- app_assoc. }
  rewrite Hstep in H.
  assert (Hq : quiet (if removeEmptyFolders settings
                      then DirectoryManager.cleanEmptyDirectories
                             (attachmentPath settings)
                      else ret tt)).
  { destruct (removeEmptyFolders settings);
      [apply quiet_cleanEmptyDirectories | apply quiet_ret]. }
  destruct (Hq _ _ _ H) as (_ & evs & Ht & Hp).
  exists ([Logged DEBUG (OrganizationComplete processedCount);
           Notice (OrganizedAttachments processedCount)] ++ evs).
  split; [|split].
  - rewrite Ht. subst w2. cbn [trace]. now rewrite <- app_assoc.
  - now rewrite processed_app, Hp.
  - right. now left.
Qed.

(** C8, as the code has it — the worklist of [organizeAttachments] is the
    list of files enumerated below the root before the first move; the
    files whose placement is started are, in order, a prefix of that list
    (never a file that was not enumerated, never a file twice), and they
    are the whole list whenever the run returns, in which case the count
    shown is the length of the list. *)
Theorem organizeAttachments_frozen_worklist (settings : FolderizeSettings)
  (w : world) (name : string) (children : list node) :
  Vault.resolve (attachmentPath settings) (root w) = Some (TFolder name children) ->
  let files := FileOrganizer.getFilesInFolder (attachmentPath settings)
                 (TFolder name children) in
  let run := FileOrganizer.organizeAttachments settings w in
  exists evs rest,
    trace (snd run) = trace w ++ evs
    /\ files = Spec.processed evs ++ rest
    /\ (fst run = Returned tt ->
        rest = []
        /\ In (Notice (OrganizedAttachments (List.length files))) evs).
Proof.
  intros Hres files run. subst run.
  rewrite (organizeAttachments_folder settings w name children Hres).
  fold files.
  destruct (organize_loop_trace settings files 0 (announced settings (List.length files) w))
    as (_ & evs1 & rest & Ht1 & Hfiles & Hret).
  unfold bind.
  destruct (FileOrganizer.organize_loop files settings 0
              (announced settings (List.length files) w)) as [[count|e|] w1].
  - cbn [fst snd] in *. destruct (Hret count eq_refl) as [Hrest Hcount].
    subst rest. cbn [plus] in Hcount. subst count.
    destruct (conclude settings (List.length files) w1) as [r w2] eqn:Hend.
    destruct (quiet_conclude _ _ _ _ _ Hend) as (evs2 & Ht2 & Hp2 & Hnotice).
    cbn [fst snd].
    exists ([Logged DEBUG OrganizingAttachments; Notice OrganizingAttachments;
             Logged DEBUG (ProcessingFiles (List.length files)
                             (attachmentPath settings))] ++ evs1 ++ evs2), [].
    split; [|split].
    + rewrite Ht2, Ht1. unfold announced. cbn [trace].
      rewrite <- !app_assoc. reflexivity.
    + rewrite !processed_app, Hp2. cbn [Spec.processed flat_map app].
      rewrite !app_nil_r in *. exact Hfiles.
    + intros _. split; [reflexivity|].
      apply in_or_app. right. apply in_or_app. now right.
  - cbn [fst snd] in *.
    exists ([Logged DEBUG OrganizingAttachments; Notice OrganizingAttachments;
             Logged DEBUG (ProcessingFiles (List.length files)
                             (attachmentPath settings))] ++ evs1), rest.
    split; [|split].
    + rewrite Ht1. unfold announced. cbn [trace].
      rewrite <- !app_assoc. reflexivity.
    + rewrite processed_app. exact Hfiles.
    + discriminate.
  - cbn [fst snd] in *.
    exists ([Logged DEBUG OrganizingAttachments; Notice OrganizingAttachments;
             Logged DEBUG (ProcessingFiles (List.length files)
                             (attachmentPath settings))] ++ evs1), rest.
    split; [|split].
    + rewrite Ht1. unfold announced. cbn [trace].
      rewrite <- !app_assoc. reflexivity.
    + rewrite processed_app. exact Hfiles.
    + discriminate.
Qed.

Lemma organizeAttachments_frozen_worklist_witness :
  exists evs rest,
    trace (snd (FileOrganizer.organizeAttachments settings2 faultyVault3))
    = trace faultyVault3 ++ evs
    /\ ["Attachments/first.txt"; "Attachments/inbox/bad.bin";
        "Attachments/last.txt"]
       = Spec.processed evs ++ rest.
Proof.
  destruct (organizeAttachments_frozen_worklist settings2 faultyVault3 "Attachments"
              [TFile "first.txt" (Some (ascii_bytes "abc"));
               TFolder "inbox" [TFile "bad.bin" None];
               TFile "last.txt" (Some (ascii_bytes "hello world"))] eq_refl)
    as (evs & rest & Ht & Hfiles & _).
  exists evs, rest. split; [exact Ht | exact Hfiles].
Defined.

(** The claim fails when a placement throws: the file enumerated after the
    unreadable one is never processed. *)
Lemma worklist_cut_short_by_fault :
  let run := FileOrganizer.organizeAttachments settings2 faultyVault3 in
  FileOrganizer.getFilesInFolder "Attachments"
    (TFolder "Attachments"
       [TFile "first.txt" (Some (ascii_bytes "abc"));
        TFolder "inbox" [TFile "bad.bin" None];
        TFile "last.txt" (Some (ascii_bytes "hello world"))])
  = ["Attachments/first.txt"; "Attachments/inbox/bad.bin"; "Attachments/last.txt"]
  /\ fst run = Thrown (ReadFault "Attachments/inbox/bad.bin")
  /\ Spec.processed (trace (snd run))
     = ["Attachments/first.txt"; "Attachments/inbox/bad.bin"]
  /\ ~ In "Attachments/last.txt" (Spec.processed (trace (snd run))).
Proof.
  vm_compute. repeat split. intros [H|[H|[]]]; discriminate.
Qed.

(** C4, as the code has it — a checksum read that fails is not caught
    anywhere in [organize.ts]: when the files before the unreadable one have
    been placed, [organizeAttachments] throws the read fault; the world is
    the one in which the placement of the unreadable file had just started,
    so the files after it are not processed, nothing is counted and no
    pruning runs. *)
Theorem organizeAttachments_aborts_on_read_fault (settings : FolderizeSettings)
  (w : world) (name : string) (children : list node)
  (before : list string) (file : string) (after : list string)
  (n : nat) (w1 : world) :
  Vault.resolve (attachmentPath settings) (root w) = Some (TFolder name children) ->
  FileOrganizer.getFilesInFolder (attachmentPath settings) (TFolder name children)
  = before ++ file :: after ->
  FileOrganizer.organize_loop before settings 0
    (announced settings (List.length (before ++ file :: after)) w)
  = (Returned n, w1) ->
  Vault.readBinary file w1 = (Thrown (ReadFault file), w1) ->
  FileOrganizer.organizeAttachments settings w
  = (Thrown (ReadFault file),
     mkWorld (root w1) (undeletable w1)
       (trace w1 ++ [Logged DEBUG (OrganizingFile file)])).
Proof.
  intros Hres Hfiles Hbefore Hread.
  rewrite (organizeAttachments_folder settings w name children Hres).
  rewrite Hfiles. apply bind_thrown.
  rewrite organize_loop_app.
  rewrite (bind_returned _ _ _ w1 n) by exact Hbefore.
  cbn [FileOrganizer.organize_loop]. apply bind_thrown.
  now apply organizeFile_read_fault.
Qed.

Lemma organizeAttachments_aborts_on_read_fault_witness :
  exists w1,
    FileOrganizer.organizeAttachments settings2 faultyVault3
    = (Thrown (ReadFault "Attachments/inbox/bad.bin"),
       mkWorld (root w1) (undeletable w1)
         (trace w1 ++ [Logged DEBUG (OrganizingFile "Attachments/inbox/bad.bin")])).
Proof.
  exists (snd (FileOrganizer.organize_loop ["Attachments/first.txt"] settings2 0
                 (announced settings2 3 faultyVault3))).
  apply (organizeAttachments_aborts_on_read_fault settings2 faultyVault3
           "Attachments"
           [TFile "first.txt" (Some (ascii_bytes "abc"));
            TFolder "inbox" [TFile "bad.bin" None];
            TFile "last.txt" (Some (ascii_bytes "hello world"))]
           ["Attachments/first.txt"] "Attachments/inbox/bad.bin"
           ["Attachments/last.txt"] 1).
  - reflexivity.
  - reflexivity.
  - vm_compute. reflexivity.
  - vm_compute. reflexivity.
Defined.

(** The claim fails on a folder whose first file cannot be read: the batch
    throws, the readable file is neither processed nor moved, and no count
    is shown. *)
Lemma read_fault_aborts_batch :
  let run := FileOrganizer.organizeAttachments settings2 faultyVault in
  fst run = Thrown (ReadFault "Attachments/bad.bin")
  /\ Spec.processed (trace (snd run)) = ["Attachments/bad.bin"]
  /\ Vault.resolve "Attachments/good.txt" (root (snd run))
     = Some (TFile "good.txt" (Some (ascii_bytes "abc")))
  /\ Vault.resolve "Attachments/ba/78/good.txt" (root (snd run)) = None
  /\ ~ In (Notice (OrganizedAttachments 2)) (trace (snd run)).
Proof.
  vm_compute. repeat split. intros [H|[H|[H|[H|[]]]]]; discriminate.
Qed.

(** The older revision catches the fault inside [organizeFile]: on the same
    folder it goes on, moves the readable file and counts both. *)
Lemma older_revision_isolates_read_fault :
  let run := Part000.FileOrganizer.organizeAttachments oldSettings2 faultyVault in
  fst run = Returned tt
  /\ Spec.processed (trace (snd run))
     = ["Attachments/bad.bin"; "Attachments/good.txt"]
  /\ Vault.resolve "Attachments/ba/78/good.txt" (root (snd run))
     = Some (TFile "good.txt" (Some (ascii_bytes "abc")))
  /\ In (Notice (OrganizedAttachments 2)) (trace (snd run)).
Proof.
  vm_compute. repeat split. repeat (first [left; reflexivity | right]).
Qed.

(** * The older revision: every placement comes back *)

Lemma halts_ret {A : Type} (a : A) : halts (ret a).
Proof. intros w. discriminate. Qed.

Lemma halts_throw {A : Type} (e : error) : halts (@throw A e).
Proof. intros w. discriminate. Qed.

Lemma halts_emit (e : event) : halts (emit e).
Proof. intros w. discriminate. Qed.

Lemma halts_bind {A B : Type} (m : M A) (k : A -> M B) :
  halts m -> (forall a, halts (k a)) -> halts (bind m k).
Proof.
  intros Hm Hk w. unfold bind. specialize (Hm w).
  destruct (m w) as [[a|e|] w1]; cbn [fst] in *.
  - apply Hk.
  - discriminate.
  - contradiction.
Qed.

Lemma halts_try_catch {A : Type} (m : M A) (handler : error -> M A) :
  halts m -> (forall e, halts (handler e)) -> halts (try_catch m handler).
Proof.
  intros Hm Hh w. unfold try_catch. specialize (Hm w).
  destruct (m w) as [[a|e|] w1]; cbn [fst] in *.
  - discriminate.
  - apply Hh.
  - contradiction.
Qed.

(** [try { m } catch { handler }] returns when [m] comes back and the
    handler returns. *)
Lemma returns_try_catch {A : Type} (m : M A) (handler : error -> M A) :
  halts m -> (forall e, returns (handler e)) -> returns (try_catch m handler).
Proof.
  intros Hm Hh w. unfold try_catch. specialize (Hm w).
  destruct (m w) as [[a|e|] w1]; cbn [fst] in *.
  - now exists a.
  - apply Hh.
  - contradiction.
Qed.

Lemma halts_exists (path : string) : halts (Vault.exists_ path).
Proof. intros w. discriminate. Qed.

Lemma halts_readBinary (path : string) : halts (Vault.readBinary path).
Proof.
  intros w. unfold Vault.readBinary.
  destruct (Vault.resolve path (root w)) as [[name [data|]|name children]|];
    discriminate.
Qed.

Lemma halts_createFolder (path : string) : halts (Vault.createFolder path).
Proof.
  unfold Vault.createFolder.
  apply halts_bind; [apply halts_emit|]. intros _.
  apply halts_bind; [intros w; discriminate|]. intros r.
  destruct (Vault.segments path) as [|s segs]; [apply halts_throw|].
  destruct (Vault.updateAt _ _ r); [intros w; discriminate | apply halts_throw].
Qed.

Lemma halts_rename (file newPath : string) : halts (Vault.rename file newPath).
Proof.
  unfold Vault.rename.
  apply halts_bind; [apply halts_emit|]. intros _.
  apply halts_bind; [intros w; discriminate|]. intros r. cbv zeta.
  destruct (Vault.segments file) as [|s1 src]; [apply halts_throw|].
  destruct (Vault.segments newPath) as [|s2 dst]; [apply halts_throw|].
  destruct (Vault.resolve file r) as [n|]; [|apply halts_throw].
  destruct (Vault.updateAt _ _ r) as [r1|]; [|apply halts_throw].
  destruct (Vault.updateAt _ _ r1); [intros w; discriminate | apply halts_throw].
Qed.

Lemma halts_createDirectoryRecursive_loop (parts : list string) :
  forall currentPath,
    halts (Part000.DirectoryManager.createDirectoryRecursive_loop parts currentPath).
Proof.
  induction parts as [|part rest IH]; intros currentPath; simpl.
  - apply halts_ret.
  - apply halts_bind; [apply halts_exists|]. intros present.
    apply halts_bind; [|intros _; apply IH].
    destruct present; simpl; [apply halts_ret | apply halts_createFolder].
Qed.

Lemma quiet_createDirectoryRecursive_loop (parts : list string) :
  forall currentPath,
    quiet (Part000.DirectoryManager.createDirectoryRecursive_loop parts currentPath).
Proof.
  induction parts as [|part rest IH]; intros currentPath; simpl.
  - apply quiet_ret.
  - apply quiet_bind; [apply quiet_exists|]. intros present.
    apply quiet_bind; [|intros _; apply IH].
    destruct present; simpl; [apply quiet_ret | apply quiet_createFolder].
Qed.

(** With a positive chunk size [calculateChecksum] comes back. *)
Lemma halts_calculateChecksum (filePath : string) (chunkSize : Z) :
  (1 <= chunkSize)%Z ->
  halts (Part000.FileOrganizer.calculateChecksum filePath chunkSize).
Proof.
  intros Hc. unfold Part000.FileOrganizer.calculateChecksum.
  apply halts_try_catch.
  - apply halts_bind; [apply halts_readBinary|]. intros data.
    rewrite cksum_bytes_positive by assumption. apply halts_ret.
  - intros e. apply halts_bind; [apply halts_emit | intros _; apply halts_throw].
Qed.

Lemma quiet_calculateChecksum (filePath : string) (chunkSize : Z) :
  quiet (Part000.FileOrganizer.calculateChecksum filePath chunkSize).
Proof.
  unfold Part000.FileOrganizer.calculateChecksum. apply quiet_try_catch.
  - apply quiet_bind; [apply quiet_readBinary|]. intros data.
    destruct (FileOrganizer.cksum_bytes data chunkSize);
      [apply quiet_ret | apply quiet_hang].
  - intros e. apply quiet_bind; [now apply quiet_emit | intros _; apply quiet_throw].
Qed.

(** In the older revision [organizeFile] returns whatever happens to the
    file, provided the chunk size is positive: every fault is caught,
    logged and shown. *)
Lemma older_organizeFile_returns (file : string)
  (settings : Part000.FolderizeSettings) :
  (1 <= Part000.chunkSize settings)%Z ->
  returns (Part000.FileOrganizer.organizeFile file settings).
Proof.
  intros Hc. unfold Part000.FileOrganizer.organizeFile.
  apply returns_try_catch.
  - apply halts_bind; [apply halts_emit|]. intros _.
    apply halts_bind; [now apply halts_calculateChecksum|]. intros checksum.
    cbv zeta. destruct (String.eqb file _); [apply halts_emit|].
    apply halts_bind; [apply halts_exists|]. intros present.
    apply halts_bind.
    + destruct present; simpl; [apply halts_ret|].
      apply halts_bind; [apply halts_emit|]. intros _.
      apply halts_createDirectoryRecursive_loop.
    + intros _. apply halts_bind; [apply halts_rename|]. intros _.
      apply halts_emit.
  - intros e w. exists tt. reflexivity.
Qed.

Lemma older_organizeFile_trace (file : string)
  (settings : Part000.FolderizeSettings) (w : world) :
  exists evs,
    trace (snd (Part000.FileOrganizer.organizeFile file settings w))
    = trace w ++ Logged DEBUG (OrganizingFile file) :: evs
    /\ Spec.processed evs = [].
Proof.
  unfold Part000.FileOrganizer.organizeFile.
  set (w1 := mkWorld (root w) (undeletable w)
               (trace w ++ [Logged DEBUG (OrganizingFile file)])).
  match goal with
  | |- context [try_catch (bind _ (fun _ => ?k)) ?h] =>
      assert (Hq : quiet (try_catch k h));
      [|assert (Hstep : try_catch (bind (logger DEBUG (OrganizingFile file))
                                     (fun _ => k)) h w
                        = try_catch k h w1) by reflexivity]
  end.
  { apply quiet_try_catch.
    - apply quiet_bind; [apply quiet_calculateChecksum|]. intros checksum.
      cbv zeta. destruct (String.eqb file _); [now apply quiet_emit|].
      apply quiet_bind; [apply quiet_exists|]. intros present.
      apply quiet_bind.
      + destruct present; simpl; [apply quiet_ret|].
        apply quiet_bind; [now apply quiet_emit|]. intros _.
        apply quiet_createDirectoryRecursive_loop.
      + intros _. apply quiet_bind; [apply quiet_rename|]. intros _.
        now apply quiet_emit.
    - intros e. apply quiet_bind; [now apply quiet_emit|]. intros _.
      now apply quiet_emit. }
  rewrite Hstep.
  match goal with
  | |- context [snd ?run] => destruct run as [r w'] eqn:Hrun
  end.
  destruct (Hq _ _ _ Hrun) as (_ & evs & Ht & Hp).
  exists evs. split; [|exact Hp].
  cbn [snd]. rewrite Ht. subst w1. cbn [trace]. now rewrite <- app_assoc.
Qed.

(** Batch isolation in the older revision: with a positive chunk size the
    loop returns whatever happens to the single files, every file of the
    worklist is processed, in order, and the count is their number. *)
Lemma older_organize_loop_isolated (settings : Part000.FolderizeSettings)
  (files : list string) :
  (1 <= Part000.chunkSize settings)%Z ->
  forall (n : nat) (w : world),
    let run := Part000.FileOrganizer.organize_loop files settings n w in
    fst run = Returned (n + List.length files)
    /\ exists evs,
         trace (snd run) = trace w ++ evs /\ Spec.processed evs = files.
Proof.
  intros Hc. induction files as [|file files IH]; intros n w run; subst run.
  - cbn. split; [f_equal; lia|]. exists []. now rewrite app_nil_r.
  - cbn [Part000.FileOrganizer.organize_loop]. unfold bind.
    destruct (older_organizeFile_returns file settings Hc w) as [[] Hret].
    destruct (older_organizeFile_trace file settings w) as (evs1 & Ht1 & Hp1).
    destruct (Part000.FileOrganizer.organizeFile file settings w) as [r w1].
    cbn [fst snd] in *. subst r.
    destruct (IH (n + 1) w1) as (Hr2 & evs2 & Ht2 & Hp2).
    split.
    + rewrite Hr2. f_equal. cbn [List.length]. lia.
    + exists (Logged DEBUG (OrganizingFile file) :: evs1 ++ evs2). split.
      * rewrite Ht2, Ht1. now rewrite <- app_assoc.
      * change (Logged DEBUG (OrganizingFile file) :: evs1 ++ evs2)
          with ([Logged DEBUG (OrganizingFile file)] ++ evs1 ++ evs2).
        rewrite !processed_app, Hp1, Hp2. reflexivity.
Qed.

(** A file in place is left alone by the older revision too. *)
Lemma older_organizeFile_in_place (file : string)
  (settings : Part000.FolderizeSettings) (w : world) (name : string)
  (data : bytes) :
  (1 <= Part000.chunkSize settings)%Z ->
  Vault.resolve file (root w) = Some (TFile name (Some data)) ->
  file = String.append
           (Part000.FileOrganizer.generatePath (Crypto.sha256 data) settings)
           (String.append "/" (NodePath.basename file)) ->
  Part000.FileOrganizer.organizeFile file settings w
  = (Returned tt,
     mkWorld (root w) (undeletable w)
       (trace w ++ [Logged DEBUG (OrganizingFile file);
                    Logged DEBUG (AlreadyInCorrectLocation file)])).
Proof.
  intros Hc Hfile Hpath.
  unfold Part000.FileOrganizer.organizeFile, try_catch.
  set (w1 := mkWorld (root w) (undeletable w)
               (trace w ++ [Logged DEBUG (OrganizingFile file)])).
  rewrite (bind_returned _ _ w w1 tt) by reflexivity.
  assert (Hsum : Part000.FileOrganizer.calculateChecksum file
                   (Part000.chunkSize settings) w1
                 = (Returned (Crypto.sha256 data), w1)).
  { unfold Part000.FileOrganizer.calculateChecksum, try_catch, bind.
    rewrite (readBinary_readable file name data w1 Hfile).
    now rewrite cksum_bytes_positive. }
  rewrite (bind_returned _ _ w1 w1 (Crypto.sha256 data)) by exact Hsum.
  rewrite <- Hpath, String.eqb_refl.
  subst w1. unfold logger, emit. cbn [root undeletable trace].
  now rewrite <- app_assoc.
Qed.

(** The deletions of a pruning walk, replayed on the vault with
    [vault.delete], give the vault the walk leaves. *)
Lemma pruning_replayed_on_vault :
  let run := DirectoryManager.cleanEmptyDirectories "Attachments" mixedVault in
  root (replay ["Attachments/old/deep"; "Attachments/old"; "Attachments/locked"]
          mixedVault)
  = root (snd run)
  /\ root (snd run)
     = [TFolder "Attachments"
          [TFile "keep.txt" (Some (ascii_bytes "abc"));
           TFolder "locked" [];
           TFolder "full" [TFile "x.bin" None]]]
  /\ fst run = Thrown (StorageFault (Delete "Attachments/locked")).
Proof. vm_compute. repeat split. Qed.

(** * Paths and the tree *)

Lemma split_slash_aux_append (a b cur : string) :
  JS.split_slash_aux (String.append a (String "/" b)) cur
  = JS.split_slash_aux a cur ++ JS.split_slash_aux b EmptyString.
Proof.
  revert cur. induction a as [|c a IH]; intros cur; simpl.
  - reflexivity.
  - destruct (Ascii.eqb c "/"); simpl; now rewrite IH.
Qed.

Lemma split_slash_aux_name (n cur : string) :
  forallb (fun c => negb (NodePath.isSlash c)) (list_ascii_of_string n) = true ->
  JS.split_slash_aux n cur = [String.append cur n].
Proof.
  revert cur. induction n as [|c n IH]; intros cur Hn; simpl in *.
  - now rewrite append_empty_r.
  - apply andb_prop in Hn. destruct Hn as [Hc Hn].
    unfold NodePath.isSlash in Hc. apply negb_true_iff in Hc. rewrite Hc.
    rewrite IH by assumption. now rewrite append_assoc.
Qed.

Lemma goodName_not_root (n : string) : goodName n -> n <> "/".
Proof. intros [_ Hn] ->. discriminate. Qed.

(** The names on the way to a child are those on the way to its folder,
    then its own. *)
Lemma segments_childPath (p n : string) :
  goodName n ->
  Vault.segments (Vault.childPath p n) = Vault.segments p ++ [n].
Proof.
  intros Hgood. pose proof Hgood as [Hne Hn].
  unfold Vault.childPath, Vault.segments.
  destruct (String.eqb_spec p "/") as [->|Hp].
  - destruct (String.eqb_spec n "/") as [Heq|_].
    + now destruct (goodName_not_root n Hgood).
    + unfold JS.split_slash. now rewrite split_slash_aux_name.
  - destruct (String.eqb_spec (String.append p (String.append "/" n)) "/")
      as [Heq|_].
    + destruct p as [|c p]; simpl in Heq.
      * inversion Heq. contradiction.
      * inversion Heq. destruct p; discriminate.
    + unfold JS.split_slash. cbn [String.append].
      rewrite split_slash_aux_append. f_equal.
      now rewrite split_slash_aux_name.
Qed.

Lemma lookup_app (a b : list string) (folder : node) :
  Vault.lookup (a ++ b) folder
  = match Vault.lookup a folder with
    | Some f => Vault.lookup b f
    | None => None
    end.
Proof.
  revert folder. induction a as [|s a IH]; intros folder; simpl.
  - reflexivity.
  - destruct folder as [name data|name children]; [reflexivity|].
    destruct (Vault.findChild s children); [apply IH | reflexivity].
Qed.

Lemma updateAt_app (a b : list string) (f : list node -> option (list node))
  (r : list node) :
  Vault.updateAt (a ++ b) f r = Vault.updateAt a (Vault.updateAt b f) r.
Proof.
  revert r. induction a as [|s a IH]; intros r; simpl.
  - reflexivity.
  - induction r as [|c r IHr]; simpl; [reflexivity|].
    destruct (String.eqb (Vault.nodeName c) s).
    + destruct c as [name data|name children]; [reflexivity|]. now rewrite IH.
    + now rewrite IHr.
Qed.

(** Among children with distinct names, a name finds its child. *)
Lemma findChild_middle (pre : list node) (c : node) (rest : list node) :
  NoDup (map Vault.nodeName (pre ++ c :: rest)) ->
  Vault.findChild (Vault.nodeName c) (pre ++ c :: rest) = Some c.
Proof.
  induction pre as [|x pre IH]; simpl; intros Hnd.
  - now rewrite String.eqb_refl.
  - inversion Hnd as [|? ? Hnotin Hnd']; subst.
    destruct (String.eqb_spec (Vault.nodeName x) (Vault.nodeName c)) as [Heq|_].
    + exfalso. apply Hnotin. rewrite Heq, map_app. apply in_or_app.
      right. now left.
    + now apply IH.
Qed.

Lemma updateChild_middle (g : node -> option node) (pre : list node) (c : node)
  (rest : list node) :
  NoDup (map Vault.nodeName (pre ++ c :: rest)) ->
  Vault.updateChild (Vault.nodeName c) g (pre ++ c :: rest)
  = option_map (fun c' => pre ++ c' :: rest) (g c).
Proof.
  induction pre as [|x pre IH]; simpl; intros Hnd.
  - now rewrite String.eqb_refl.
  - inversion Hnd as [|? ? Hnotin Hnd']; subst.
    destruct (String.eqb_spec (Vault.nodeName x) (Vault.nodeName c)) as [Heq|_].
    + exfalso. apply Hnotin. rewrite Heq, map_app. apply in_or_app.
      right. now left.
    + rewrite IH by assumption. now destruct (g c).
Qed.

Lemma removeChild_middle (pre : list node) (c : node) (rest : list node) :
  NoDup (map Vault.nodeName (pre ++ c :: rest)) ->
  Vault.removeChild (Vault.nodeName c) (pre ++ c :: rest) = Some (pre ++ rest).
Proof.
  induction pre as [|x pre IH]; simpl; intros Hnd.
  - now rewrite String.eqb_refl.
  - inversion Hnd as [|? ? Hnotin Hnd']; subst.
    destruct (String.eqb_spec (Vault.nodeName x) (Vault.nodeName c)) as [Heq|_].
    + exfalso. apply Hnotin. rewrite Heq, map_app. apply in_or_app.
      right. now left.
    + now rewrite IH.
Qed.

(** An update at a path only sees the children found there. *)
Lemma updateAt_at (segs : list string) (f : list node -> option (list node))
  (name : string) (ch : list node) :
  forall (n : string) (r : list node),
    Vault.lookup segs (TFolder n r) = Some (TFolder name ch) ->
    Vault.updateAt segs f r
    = match f ch with
      | Some ch' => Vault.updateAt segs (fun _ => Some ch') r
      | None => None
      end.
Proof.
  induction segs as [|s segs IH]; intros n r Hlook; simpl in *.
  - inversion Hlook; subst. now destruct (f ch).
  - induction r as [|c r IHr]; simpl in *; [discriminate|].
    destruct (String.eqb (Vault.nodeName c) s).
    + destruct c as [fname data|cname ch0].
      * destruct segs; simpl in Hlook; discriminate.
      * rewrite (IH cname ch0 Hlook). now destruct (f ch).
    + rewrite (IHr Hlook). now destruct (f ch).
Qed.

(** Two replacements at the same path: the second one wins. *)
Lemma updateAt_twice (segs : list string) (X Y : list node) :
  forall r r1,
    Vault.updateAt segs (fun _ => Some X) r = Some r1 ->
    Vault.updateAt segs (fun _ => Some Y) r1
    = Vault.updateAt segs (fun _ => Some Y) r.
Proof.
  induction segs as [|s segs IH]; intros r r1 H; simpl in *.
  - reflexivity.
  - revert r1 H. induction r as [|c r IHr]; intros r1 H; simpl in *;
      [discriminate|].
    destruct (String.eqb_spec (Vault.nodeName c) s) as [Heq|Hne].
    + destruct c as [fname data|cname ch0]; [discriminate|].
      destruct (Vault.updateAt segs (fun _ => Some X) ch0) as [ch1|] eqn:Hup;
        [|discriminate].
      inversion H; subst r1. simpl in *. rewrite Heq, String.eqb_refl.
      now rewrite (IH ch0 ch1 Hup).
    + destruct (Vault.updateChild s _ r) as [r'|] eqn:Hup; [|discriminate].
      inversion H; subst r1. simpl.
      destruct (String.eqb_spec (Vault.nodeName c) s); [contradiction|].
      now rewrite (IHr r' eq_refl).
Qed.

(** Putting back the children found at a path changes nothing. *)
Lemma updateAt_same (segs : list string) (name : string) (ch : list node) :
  forall (n : string) (r : list node),
    Vault.lookup segs (TFolder n r) = Some (TFolder name ch) ->
    Vault.updateAt segs (fun _ => Some ch) r = Some r.
Proof.
  induction segs as [|s segs IH]; intros n r Hlook; simpl in *.
  - now inversion Hlook.
  - induction r as [|c r IHr]; simpl in *; [discriminate|].
    destruct (String.eqb (Vault.nodeName c) s).
    + destruct c as [fname data|cname ch0].
      * destruct segs; simpl in Hlook; discriminate.
      * now rewrite (IH cname ch0 Hlook).
    + now rewrite (IHr Hlook).
Qed.

(** * The pruning walk and [vault.delete] *)

Lemma deletions_app (a b : list event) :
  deletions (a ++ b) = deletions a ++ deletions b.
Proof. unfold deletions. apply flat_map_app. Qed.

Lemma replay_app (a b : list string) (w : world) :
  replay (a ++ b) w = replay b (replay a w).
Proof. revert w. induction a as [|p a IH]; intros w; simpl; auto. Qed.

Lemma delete_undeletable (p : string) (w : world) :
  undeletable (snd (Vault.delete p w)) = undeletable w.
Proof.
  destruct (Vault.delete p w) as [r w'] eqn:H.
  now destruct (quiet_delete p w r w' H).
Qed.

Lemma replay_undeletable (l : list string) (w : world) :
  undeletable (replay l w) = undeletable w.
Proof.
  revert w. induction l as [|p l IH]; intros w; simpl; [reflexivity|].
  now rewrite IH, delete_undeletable.
Qed.

(** [vault.delete] on a child with a good name: unless the host refuses,
    the child leaves the children of its folder. *)
Lemma delete_child_root (p cname : string) (w : world) :
  goodName cname ->
  root (snd (Vault.delete (Vault.childPath p cname) w))
  = if existsb (String.eqb (Vault.childPath p cname)) (undeletable w)
    then root w
    else match Vault.updateAt (Vault.segments p) (Vault.removeChild cname)
                 (root w) with
         | Some r' => r'
         | None => root w
         end.
Proof.
  intros Hgood. unfold Vault.delete, bind, emit, getRoot, Vault.denied, throw,
    setRoot. cbn [root undeletable trace].
  destruct (existsb _ (undeletable w)); [reflexivity|].
  rewrite (segments_childPath p cname Hgood).
  destruct (Vault.segments p ++ [cname]) as [|s l] eqn:Hsegs.
  - now destruct (Vault.segments p).
  - rewrite <- Hsegs. unfold Vault.parentOf, Vault.nameOf.
    rewrite removelast_last, last_last.
    now destruct (Vault.updateAt _ _ (root w)).
Qed.

Lemma wellFormed_folder_inv (name : string) (children : list node) :
  wellFormed (TFolder name children) ->
  goodName name /\ wellFormedChildren children.
Proof.
  intros H. inversion H as [|? ? Hgood Hnodup Hwf]; subst.
  split; [exact Hgood|]. split; [exact Hnodup | exact Hwf].
Qed.

(** The loop of the walk, replayed: with the folder at [path] holding
    [pre ++ rest] and the loop at the start of [rest], the deletions the
    loop issues, replayed on the vault, leave the folder with [pre] followed
    by what the loop leaves of [rest]. *)
Lemma removeEmptyFolders_loop_replay (deny : list string) (path name : string)
  (all : list node) :
  Forall (fun c =>
            forall path w cname grandchildren,
              c = TFolder cname grandchildren ->
              wellFormedChildren grandchildren ->
              undeletable w = deny ->
              Vault.lookup (Vault.segments path) (TFolder EmptyString (root w))
              = Some c ->
              Vault.updateAt (Vault.segments path)
                (fun _ => Some (fst (fst (DirectoryManager.removeEmptyFolders
                                            deny path c))))
                (root w)
              = Some (root (replay
                              (deletions
                                 (snd (fst (DirectoryManager.removeEmptyFolders
                                              deny path c))))
                              w)))
    all ->
  forall (n : nat) (pre rest : list node) (count : nat) (w : world),
    List.length rest <= n ->
    incl rest all ->
    NoDup (map Vault.nodeName (pre ++ rest)) ->
    Forall wellFormed rest ->
    undeletable w = deny ->
    Vault.lookup (Vault.segments path) (TFolder EmptyString (root w))
    = Some (TFolder name (pre ++ rest)) ->
    Vault.updateAt (Vault.segments path)
      (fun _ => Some (pre ++ fst (fst (DirectoryManager.removeEmptyFolders_loop
                                         (DirectoryManager.removeEmptyFolders deny)
                                         deny path rest count))))
      (root w)
    = Some (root (replay
                    (deletions
                       (snd (fst (DirectoryManager.removeEmptyFolders_loop
                                    (DirectoryManager.removeEmptyFolders deny)
                                    deny path rest count))))
                    w)).
Proof.
  intros Hall. rewrite Forall_forall in Hall.
  induction n as [|n IH];
    intros pre rest count w Hlen Hincl Hnodup Hwfs Hdeny Hlook.
  - destruct rest; [|simpl in Hlen; lia]. cbn.
    eapply updateAt_same. exact Hlook.
  - destruct rest as [|child rest].
    { cbn. eapply updateAt_same. exact Hlook. }
    assert (Hchild : In child all) by (apply Hincl; now left).
    assert (Hrest : incl rest all) by (intros x Hx; apply Hincl; now right).
    simpl in Hlen.
    assert (Hwfchild : wellFormed child) by now inversion Hwfs.
    assert (Hwfrest : Forall wellFormed rest) by now inversion Hwfs.
    destruct child as [fname data|cname grandchildren].
    + (* a file *)
      cbn [DirectoryManager.removeEmptyFolders_loop].
      assert (Hsplit : pre ++ TFile fname data :: rest
                       = (pre ++ [TFile fname data]) ++ rest)
        by now rewrite <- app_assoc.
      specialize (IH (pre ++ [TFile fname data]) rest count w ltac:(lia) Hrest).
      rewrite <- Hsplit in IH. specialize (IH Hnodup Hwfrest Hdeny Hlook).
      destruct (DirectoryManager.removeEmptyFolders_loop _ deny path rest count)
        as [[rest' evs] r].
      cbn [fst snd] in *. now rewrite <- app_assoc in IH.
    + (* a folder *)
      cbn [DirectoryManager.removeEmptyFolders_loop].
      destruct (wellFormed_folder_inv _ _ Hwfchild) as (Hgood & Hgnodup & Hgwf).
      assert (Hsegs : Vault.segments (Vault.childPath path cname)
                      = Vault.segments path ++ [cname])
        by now apply segments_childPath.
      assert (Hlookc : Vault.lookup (Vault.segments (Vault.childPath path cname))
                         (TFolder EmptyString (root w))
                       = Some (TFolder cname grandchildren)).
      { rewrite Hsegs, lookup_app, Hlook. cbn [Vault.lookup].
        pose proof (findChild_middle pre (TFolder cname grandchildren) rest Hnodup)
          as Hfind.
        cbn [Vault.nodeName] in Hfind. now rewrite Hfind. }
      pose proof (Hall _ Hchild (Vault.childPath path cname) w cname grandchildren
                    eq_refl (conj Hgnodup Hgwf) Hdeny Hlookc) as Hrec.
      destruct (DirectoryManager.removeEmptyFolders deny
                  (Vault.childPath path cname) (TFolder cname grandchildren))
        as [[grandchildren' evs1] r1].
      cbn [fst snd] in Hrec.
      set (w1 := replay (deletions evs1) w) in *.
      (* the vault after the recursive call, seen from the folder *)
      assert (Hchildren1 :
                Vault.updateAt (Vault.segments path)
                  (fun _ => Some (pre ++ TFolder cname grandchildren' :: rest))
                  (root w)
                = Some (root w1)).
      { rewrite Hsegs, updateAt_app in Hrec.
        rewrite (updateAt_at _ _ name (pre ++ TFolder cname grandchildren :: rest)
                   EmptyString (root w) Hlook) in Hrec.
        cbn [Vault.updateAt] in Hrec.
        pose proof (fun g => updateChild_middle g pre (TFolder cname grandchildren)
                               rest Hnodup) as Hupd.
        cbn [Vault.nodeName] in Hupd. rewrite Hupd in Hrec.
        exact Hrec. }
      assert (Hdeny1 : undeletable w1 = deny)
        by (subst w1; now rewrite replay_undeletable).
      assert (Hlook1 : forall X,
                 Vault.updateAt (Vault.segments path) (fun _ => Some X) (root w)
                 = Vault.updateAt (Vault.segments path) (fun _ => Some X) (root w1)).
      { intros X. symmetry. eapply updateAt_twice. exact Hchildren1. }
      assert (Hfound1 : Vault.lookup (Vault.segments path)
                          (TFolder EmptyString (root w1))
                        = Some (TFolder name
                                  (pre ++ TFolder cname grandchildren' :: rest))).
      { destruct (updateAt_replace (Vault.segments path) name
                    (pre ++ TFolder cname grandchildren :: rest)
                    (pre ++ TFolder cname grandchildren' :: rest)
                    EmptyString (root w) Hlook) as (r' & Hup & Hl & _).
        rewrite Hchildren1 in Hup. inversion Hup; subst r'. exact Hl. }
      assert (Hnodup1 : forall g,
                 NoDup (map Vault.nodeName (pre ++ TFolder cname g :: rest))).
      { intros g. rewrite map_app in *. exact Hnodup. }
      destruct r1 as [k|e|]; [|exact Hchildren1|exact Hchildren1].
      destruct grandchildren' as [|g grandchildren'].
      * (* the child is empty now *)
        destruct (existsb (String.eqb (Vault.childPath path cname)) deny) eqn:Hden.
        -- cbn [fst snd]. rewrite deletions_app, replay_app. fold w1.
           cbn [deletions flat_map app replay].
           rewrite delete_child_root by assumption.
           rewrite Hdeny1, Hden. exact Hchildren1.
        -- (* deleted: the vault without the child *)
           set (w2 := snd (Vault.delete (Vault.childPath path cname) w1)).
           assert (Hroot2 : Vault.updateAt (Vault.segments path)
                              (fun _ => Some (pre ++ rest)) (root w)
                            = Some (root w2)).
           { subst w2. rewrite delete_child_root by assumption.
             rewrite Hdeny1, Hden.
             rewrite (updateAt_at _ _ name (pre ++ TFolder cname [] :: rest)
                        EmptyString (root w1) Hfound1).
             pose proof (removeChild_middle pre (TFolder cname []) rest (Hnodup1 []))
               as Hrem.
             cbn [Vault.nodeName] in Hrem. rewrite Hrem.
             rewrite <- Hlook1.
             destruct (updateAt_replace (Vault.segments path) name
                         (pre ++ TFolder cname grandchildren :: rest)
                         (pre ++ rest) EmptyString (root w) Hlook)
               as (r' & Hup & _).
             now rewrite Hup. }
           assert (Hdeny2 : undeletable w2 = deny)
             by (subst w2; now rewrite delete_undeletable).
           assert (Hfound2 : Vault.lookup (Vault.segments path)
                               (TFolder EmptyString (root w2))
                             = Some (TFolder name (pre ++ rest))).
           { destruct (updateAt_replace (Vault.segments path) name
                         (pre ++ TFolder cname grandchildren :: rest)
                         (pre ++ rest) EmptyString (root w) Hlook)
               as (r' & Hup & Hl & _).
             rewrite Hroot2 in Hup. inversion Hup; subst r'. exact Hl. }
           assert (Hnodup2 : NoDup (map Vault.nodeName (pre ++ rest))).
           { rewrite map_app in *. eapply NoDup_remove_1. exact Hnodup. }
           assert (Hreplay : forall tail,
                      replay (deletions
                                (((evs1 ++ [Logged DEBUG
                                              (RemovingEmptyFolder
                                                 (Vault.childPath path cname));
                                            Issued (Delete
                                                      (Vault.childPath path cname))])
                                    ++ [Logged INFO
                                          (RemovedEmptyFolder
                                             (Vault.childPath path cname))])
                                   ++ tail)) w
                      = replay (deletions tail) w2).
           { intros tail. rewrite !deletions_app, !replay_app. reflexivity. }
           destruct rest as [|skipped rest].
           ++ cbn [fst snd]. rewrite <- (app_nil_r (_ ++ [Logged INFO _])).
              rewrite Hreplay. cbn [deletions flat_map replay].
              exact Hroot2.
           ++ simpl in Hlen.
              assert (Hrest' : incl rest all).
              { intros x Hx. apply Hrest. now right. }
              assert (Hsplit : pre ++ skipped :: rest = (pre ++ [skipped]) ++ rest)
                by now rewrite <- app_assoc.
              specialize (IH (pre ++ [skipped]) rest (count + k + 1) w2
                            ltac:(lia) Hrest').
              rewrite <- Hsplit in IH.
              assert (Hwfrest' : Forall wellFormed rest) by now inversion Hwfrest.
              specialize (IH Hnodup2 Hwfrest' Hdeny2 Hfound2).
              destruct (DirectoryManager.removeEmptyFolders_loop _ deny path rest
                          (count + k + 1)) as [[rest' evs] r].
              cbn [fst snd] in *. rewrite Hreplay.
              rewrite <- app_assoc in IH. cbn [app] in IH.
              rewrite <- IH. symmetry.
              eapply updateAt_twice. exact Hroot2.
      * (* the child keeps children *)
        assert (Hsplit : pre ++ TFolder cname (g :: grandchildren') :: rest
                         = (pre ++ [TFolder cname (g :: grandchildren')]) ++ rest)
          by now rewrite <- app_assoc.
        specialize (IH (pre ++ [TFolder cname (g :: grandchildren')]) rest
                      (count + k) w1 ltac:(lia) Hrest).
        rewrite <- Hsplit in IH.
        specialize (IH (Hnodup1 _) Hwfrest Hdeny1 Hfound1).
        destruct (DirectoryManager.removeEmptyFolders_loop _ deny path rest
                    (count + k)) as [[rest' evs] r].
        cbn [fst snd] in *. rewrite deletions_app, replay_app. fold w1.
        rewrite <- app_assoc in IH. cbn [app] in IH.
        rewrite <- IH. symmetry.
        eapply updateAt_twice. exact Hchildren1.
Qed.

(** The whole walk, replayed. *)
Lemma removeEmptyFolders_replay (deny : list string) (folder : node) :
  forall path w cname grandchildren,
    folder = TFolder cname grandchildren ->
    wellFormedChildren grandchildren ->
    undeletable w = deny ->
    Vault.lookup (Vault.segments path) (TFolder EmptyString (root w))
    = Some folder ->
    Vault.updateAt (Vault.segments path)
      (fun _ => Some (fst (fst (DirectoryManager.removeEmptyFolders
                                  deny path folder))))
      (root w)
    = Some (root (replay
                    (deletions
                       (snd (fst (DirectoryManager.removeEmptyFolders
                                    deny path folder))))
                    w)).
Proof.
  induction folder as [name data|name children IH] using node_induction;
    intros path w cname grandchildren Heq [Hnodup Hwf] Hdeny Hlook.
  - discriminate.
  - inversion Heq; subst cname grandchildren.
    cbn [DirectoryManager.removeEmptyFolders].
    apply (removeEmptyFolders_loop_replay deny path name children IH
             (List.length children) [] children 0 w (le_n _) (incl_refl _)
             Hnodup Hwf Hdeny Hlook).
Qed.

(** On a well-formed folder, the vault that [cleanEmptyDirectories] leaves
    is the vault after the deletions it issued, made one after the other by
    [vault.delete]. *)
Lemma cleanEmptyDirectories_replay (path name : string) (children : list node)
  (w : world) :
  wellFormedChildren children ->
  Vault.resolve path (root w) = Some (TFolder name children) ->
  let run := DirectoryManager.cleanEmptyDirectories path w in
  exists evs,
    trace (snd run) = trace w ++ evs
    /\ root (snd run) = root (replay (deletions evs) w).
Proof.
  intros Hwf Hres run. subst run.
  pose proof (removeEmptyFolders_replay (undeletable w) (TFolder name children)
                path w name children eq_refl Hwf eq_refl Hres) as Hreplay.
  destruct (cleanEmptyDirectories_folder path name children w Hres)
    as (_ & _ & Ht & Hlook & _).
  eexists. split; [exact Ht|].
  change (Logged DEBUG (RemovingEmptyDirectoriesFrom path)
            :: snd (fst (DirectoryManager.removeEmptyFolders (undeletable w) path
                           (TFolder name children)))
            ++ cleanup_report
                 (snd (DirectoryManager.removeEmptyFolders (undeletable w) path
                         (TFolder name children))))
    with ([Logged DEBUG (RemovingEmptyDirectoriesFrom path)]
            ++ snd (fst (DirectoryManager.removeEmptyFolders (undeletable w) path
                           (TFolder name children)))
            ++ cleanup_report
                 (snd (DirectoryManager.removeEmptyFolders (undeletable w) path
                         (TFolder name children)))).
  rewrite !deletions_app.
  assert (Hnone : deletions
                    (cleanup_report
                       (snd (DirectoryManager.removeEmptyFolders (undeletable w)
                               path (TFolder name children)))) = []).
  { unfold cleanup_report.
    destruct (snd (DirectoryManager.removeEmptyFolders _ _ _)) as [n| |];
      [destruct (Nat.ltb 0 n)| |]; reflexivity. }
  rewrite Hnone, app_nil_r. cbn [deletions flat_map app].
  fold (deletions (snd (fst (DirectoryManager.removeEmptyFolders (undeletable w)
                               path (TFolder name children))))).
  (* the root after the run is the root with the folder's children replaced *)
  unfold DirectoryManager.cleanEmptyDirectories.
  set (w1 := mkWorld (root w) (undeletable w)
               (trace w ++ [Logged DEBUG (RemovingEmptyDirectoriesFrom path)])).
  rewrite (bind_returned _ _ w w1 tt) by reflexivity.
  rewrite (bind_returned _ _ w1 w1 (Vault.resolve path (root w))) by reflexivity.
  rewrite Hres. unfold bind, DirectoryManager.removeEmptyFolders_in_vault.
  change (undeletable w1) with (undeletable w). change (root w1) with (root w).
  destruct (DirectoryManager.removeEmptyFolders (undeletable w) path
              (TFolder name children)) as [[children' evs] r].
  cbn [fst snd] in *. unfold Vault.resolve in Hres. rewrite Hreplay.
  destruct r as [n| |]; [destruct (Nat.ltb 0 n)| |]; reflexivity.
Qed.

(** * The older revision: collect, then delete *)

Lemma findChild_In (l : list node) (c : node) :
  NoDup (map Vault.nodeName l) -> In c l ->
  Vault.findChild (Vault.nodeName c) l = Some c.
Proof.
  intros Hnd Hin. apply in_split in Hin. destruct Hin as (pre & rest & ->).
  now apply findChild_middle.
Qed.

Lemma findChild_none (name : string) (l : list node) :
  ~ In name (map Vault.nodeName l) -> Vault.findChild name l = None.
Proof.
  induction l as [|x l IH]; simpl; intros Hnot; [reflexivity|].
  destruct (String.eqb_spec (Vault.nodeName x) name) as [Heq|_].
  - exfalso. apply Hnot. now left.
  - apply IH. intros H. apply Hnot. now right.
Qed.

Lemma updateChild_none (name : string) (g : node -> option node) (l : list node) :
  Vault.findChild name l = None -> Vault.updateChild name g l = None.
Proof.
  induction l as [|x l IH]; simpl; [reflexivity|].
  destruct (String.eqb (Vault.nodeName x) name); [discriminate|].
  intros H. now rewrite IH.
Qed.

(** An empty folder found below [c] lies on a path of names from [c]. *)
Lemma emptyFolders_located (c : node) :
  forall path q,
    wellFormed c ->
    In q (emptyFolders path c) ->
    exists names d,
      Vault.segments q = Vault.segments path ++ Vault.nodeName c :: names
      /\ Vault.lookup names c = Some d
      /\ Spec.isEmpty d = true.
Proof.
  induction c as [name data|cname grandchildren IH] using node_induction;
    intros path q Hwf Hin.
  - destruct Hin.
  - destruct (wellFormed_folder_inv _ _ Hwf) as (Hgood & Hnodup & Hwfs).
    cbn [emptyFolders] in Hin. apply in_app_or in Hin.
    destruct Hin as [Hin|Hin].
    + apply in_flat_map in Hin. destruct Hin as (g & Hg & Hin).
      rewrite Forall_forall in IH, Hwfs.
      destruct (IH g Hg (Vault.childPath path cname) q (Hwfs g Hg) Hin)
        as (names & d & Hsegs & Hlook & Hempty).
      exists (Vault.nodeName g :: names), d. repeat split.
      * rewrite Hsegs, segments_childPath by assumption.
        now rewrite <- app_assoc.
      * cbn [Vault.lookup]. now rewrite (findChild_In _ _ Hnodup Hg).
      * exact Hempty.
    + destruct (Spec.isEmpty (TFolder cname grandchildren)) eqn:Hempty;
        [|destruct Hin].
      destruct Hin as [<-|[]].
      exists [], (TFolder cname grandchildren). repeat split.
      * now apply segments_childPath.
      * exact Hempty.
Qed.

Lemma same_name_same_child (l : list node) (a b : node) :
  NoDup (map Vault.nodeName l) -> In a l -> In b l ->
  Vault.nodeName a = Vault.nodeName b -> a = b.
Proof.
  intros Hnd Ha Hb Hname.
  pose proof (findChild_In l a Hnd Ha) as H1.
  pose proof (findChild_In l b Hnd Hb) as H2.
  rewrite Hname in H1. congruence.
Qed.

Lemma includes_In (l : list string) (q : string) :
  Part000.DirectoryManager.includes l q = true <-> In q l.
Proof.
  unfold Part000.DirectoryManager.includes. rewrite existsb_exists. split.
  - intros (x & Hx & Heq). apply String.eqb_eq in Heq. now subst.
  - intros H. exists q. split; [assumption | apply String.eqb_refl].
Qed.

(** The test of [findEmptyFolders] on a grandchild folder: its path is
    among the folders collected so far exactly when it is empty. *)
Lemma includes_grandchild (path cname : string) (pre grandchildren : list node)
  (gname : string) (below : list node) :
  Forall wellFormed pre ->
  ~ In cname (map Vault.nodeName pre) ->
  goodName cname ->
  wellFormedChildren grandchildren ->
  In (TFolder gname below) grandchildren ->
  Part000.DirectoryManager.includes
    (emptyBelow path pre ++ emptyBelow (Vault.childPath path cname) grandchildren)
    (Vault.childPath (Vault.childPath path cname) gname)
  = Spec.isEmpty (TFolder gname below).
Proof.
  intros Hwfpre Hfresh Hgood [Hnodup Hwfs] Hg.
  set (g := TFolder gname below) in *.
  set (cp := Vault.childPath path cname).
  assert (Hwfg : wellFormed g) by (rewrite Forall_forall in Hwfs; now apply Hwfs).
  destruct (wellFormed_folder_inv _ _ Hwfg) as (Hgoodg & _).
  assert (Hsegs : Vault.segments (Vault.childPath cp gname)
                  = Vault.segments cp ++ [gname])
    by now apply segments_childPath.
  assert (Hsegs' : Vault.segments cp = Vault.segments path ++ [cname])
    by now apply segments_childPath.
  destruct (Spec.isEmpty g) eqn:Hempty.
  - apply includes_In. apply in_or_app. right.
    unfold emptyBelow. apply in_flat_map. exists g. split; [assumption|].
    subst g. cbn [emptyFolders]. apply in_or_app. right.
    fold (Spec.isEmpty (TFolder gname below)). rewrite Hempty. now left.
  - destruct (Part000.DirectoryManager.includes _ _) eqn:Hinc; [|reflexivity].
    exfalso. apply includes_In in Hinc. apply in_app_or in Hinc.
    destruct Hinc as [Hin|Hin]; unfold emptyBelow in Hin;
      apply in_flat_map in Hin; destruct Hin as (s & Hs & Hin).
    + rewrite Forall_forall in Hwfpre.
      destruct (emptyFolders_located s path _ (Hwfpre s Hs) Hin)
        as (names & d & Hq & _ & _).
      rewrite Hsegs, Hsegs', <- app_assoc in Hq. apply app_inv_head in Hq.
      inversion Hq as [[Hname Hnames]].
      apply Hfresh. rewrite Hname. now apply in_map.
    + rewrite Forall_forall in Hwfs.
      destruct (emptyFolders_located s cp _ (Hwfs s Hs) Hin)
        as (names & d & Hq & Hlook & Hd).
      rewrite Hsegs in Hq. apply app_inv_head in Hq.
      inversion Hq as [[Hname Hnames]]. subst names.
      cbn [Vault.lookup] in Hlook. inversion Hlook; subst d.
      assert (s = g) by (apply (same_name_same_child grandchildren); auto).
      subst s. congruence.
Qed.

(** What [findEmptyFolders] tests on the children of a folder. *)
Lemma empty_test (includes : string -> bool) (grandchildren : list node) :
  Forall (fun g => match g with
                   | TFile _ _ => True
                   | TFolder gname _ => includes gname = Spec.isEmpty g
                   end) grandchildren ->
  negb (existsb Part000.DirectoryManager.isFile grandchildren)
  && negb (existsb (fun c => Vault.isFolder c && negb (includes (Vault.nodeName c)))
             grandchildren)
  = forallb Spec.isEmpty grandchildren.
Proof.
  induction 1 as [|g gs Hg _ IH]; [reflexivity|].
  cbn [existsb forallb]. rewrite <- IH.
  destruct g as [fname data|gname below].
  - reflexivity.
  - cbn [Part000.DirectoryManager.isFile Vault.isFolder Vault.nodeName negb orb andb].
    rewrite Hg.
    destruct (Spec.isEmpty (TFolder gname below)); cbn [negb orb andb].
    + reflexivity.
    + now rewrite andb_false_r.
Qed.

Lemma emptyBelow_app (path : string) (a b : list node) :
  emptyBelow path (a ++ b) = emptyBelow path a ++ emptyBelow path b.
Proof. unfold emptyBelow. apply flat_map_app. Qed.

Lemma emptyBelow_folder (path cname : string) (grandchildren : list node) :
  emptyBelow path [TFolder cname grandchildren]
  = emptyBelow (Vault.childPath path cname) grandchildren
      ++ (if forallb Spec.isEmpty grandchildren
          then [Vault.childPath path cname] else []).
Proof. unfold emptyBelow. cbn. now rewrite app_nil_r. Qed.

(** The loop of [findEmptyFolders] adds the empty folders of what is left
    to those of what has been visited. *)
Lemma findEmptyFolders_loop_spec (path : string) (all : list node) :
  Forall (fun c =>
            forall p cname grandchildren,
              c = TFolder cname grandchildren ->
              wellFormedChildren grandchildren ->
              Part000.DirectoryManager.findEmptyFolders p c
              = emptyBelow p grandchildren)
    all ->
  forall rest pre,
    incl rest all ->
    NoDup (map Vault.nodeName (pre ++ rest)) ->
    Forall wellFormed (pre ++ rest) ->
    Part000.DirectoryManager.findEmptyFolders_loop
      Part000.DirectoryManager.findEmptyFolders path rest (emptyBelow path pre)
    = emptyBelow path (pre ++ rest).
Proof.
  intros Hall. rewrite Forall_forall in Hall.
  induction rest as [|child rest IH]; intros pre Hincl Hnodup Hwf.
  - cbn. now rewrite app_nil_r.
  - assert (Hchild : In child all) by (apply Hincl; now left).
    assert (Hrest : incl rest all) by (intros x Hx; apply Hincl; now right).
    assert (Hsplit : pre ++ child :: rest = (pre ++ [child]) ++ rest)
      by now rewrite <- app_assoc.
    cbn [Part000.DirectoryManager.findEmptyFolders_loop].
    destruct child as [fname data|cname grandchildren].
    + rewrite Hsplit in *. rewrite <- (IH (pre ++ [TFile fname data]) Hrest Hnodup Hwf).
      rewrite emptyBelow_app. cbn. now rewrite app_nil_r.
    + assert (Hwfchild : wellFormed (TFolder cname grandchildren)).
      { rewrite Forall_forall in Hwf. apply Hwf. apply in_or_app. right. now left. }
      destruct (wellFormed_folder_inv _ _ Hwfchild) as (Hgood & Hgwf).
      rewrite (Hall _ Hchild (Vault.childPath path cname) cname grandchildren
                 eq_refl Hgwf).
      assert (Hwfpre : Forall wellFormed pre)
        by (apply Forall_app in Hwf; tauto).
      assert (Hfresh : ~ In cname (map Vault.nodeName pre)).
      { rewrite map_app in Hnodup. apply NoDup_remove_2 in Hnodup.
        intros H. apply Hnodup. apply in_or_app. now left. }
      rewrite (empty_test
                 (fun gname =>
                    Part000.DirectoryManager.includes
                      (emptyBelow path pre
                         ++ emptyBelow (Vault.childPath path cname) grandchildren)
                      (Vault.childPath (Vault.childPath path cname) gname))).
      * rewrite Hsplit in *.
        rewrite <- (IH (pre ++ [TFolder cname grandchildren]) Hrest Hnodup Hwf).
        f_equal. rewrite emptyBelow_app, emptyBelow_folder.
        destruct (forallb Spec.isEmpty grandchildren);
          now rewrite <- ?app_assoc, ?app_nil_r.
      * apply Forall_forall. intros g Hg. destruct g as [|gname below]; [exact I|].
        now apply includes_grandchild.
Qed.

(** On a well-formed folder [findEmptyFolders] returns the empty folders
    below it, deepest first. *)
Lemma findEmptyFolders_spec (folder : node) :
  forall p cname grandchildren,
    folder = TFolder cname grandchildren ->
    wellFormedChildren grandchildren ->
    Part000.DirectoryManager.findEmptyFolders p folder
    = emptyBelow p grandchildren.
Proof.
  induction folder as [name data|name children IH] using node_induction;
    intros p cname grandchildren Heq [Hnodup Hwf].
  - discriminate.
  - inversion Heq; subst cname grandchildren.
    cbn [Part000.DirectoryManager.findEmptyFolders].
    apply (findEmptyFolders_loop_spec p children IH children []
             (incl_refl _) Hnodup Hwf).
Qed.

(** ** Deleting the collected folders, last one first *)

(** Pruning keeps a child exactly when it is not an empty folder. *)
Lemma prune_keeps_nonempty (c : node) :
  negb (Vault.isFolder (Spec.prune c)) || Spec.hasChildren (Spec.prune c)
  = negb (Spec.isEmpty c).
Proof.
  induction c as [name data|name children IH] using node_induction.
  - reflexivity.
  - cbn [Spec.prune Vault.isFolder negb orb Spec.isEmpty].
    induction IH as [|c rest Hc _ IHrest]; [reflexivity|].
    cbn [map filter forallb]. rewrite Hc.
    destruct (Spec.isEmpty c); cbn [negb andb]; [exact IHrest | reflexivity].
Qed.

Lemma pruneList_app (a b : list node) :
  pruneList (a ++ b) = pruneList a ++ pruneList b.
Proof. unfold pruneList. now rewrite map_app, filter_app. Qed.

Lemma pruneList_one (c : node) :
  pruneList [c] = if Spec.isEmpty c then [] else [Spec.prune c].
Proof.
  unfold pruneList. cbn [map filter]. rewrite prune_keeps_nonempty.
  now destruct (Spec.isEmpty c).
Qed.

Lemma delete_ext (p : string) (w w' : world) :
  root w = root w' -> undeletable w = undeletable w' ->
  root (snd (Vault.delete p w)) = root (snd (Vault.delete p w'))
  /\ undeletable (snd (Vault.delete p w)) = undeletable (snd (Vault.delete p w')).
Proof.
  intros Hr Hu. unfold Vault.delete, bind, emit, getRoot, Vault.denied, throw,
    setRoot. cbn [root undeletable trace]. rewrite Hr, Hu.
  destruct (existsb _ (undeletable w')); [now split|].
  destruct (Vault.segments p) as [|s l]; [now split|].
  destruct (Vault.updateAt _ _ (root w')); now split.
Qed.

Lemma replay_ext (l : list string) :
  forall w w',
    root w = root w' -> undeletable w = undeletable w' ->
    root (replay l w) = root (replay l w').
Proof.
  induction l as [|p l IH]; intros w w' Hr Hu; simpl; [assumption|].
  destruct (delete_ext p w w' Hr Hu) as [Hr' Hu']. now apply IH.
Qed.

(** A deletion below a child that is not there changes nothing. *)
Lemma delete_below_missing (q : string) (segs names : list string)
  (cname name : string) (ch : list node) (w : world) :
  Vault.segments q = segs ++ cname :: names ->
  names <> [] ->
  Vault.lookup segs (TFolder EmptyString (root w)) = Some (TFolder name ch) ->
  Vault.findChild cname ch = None ->
  root (snd (Vault.delete q w)) = root w.
Proof.
  intros Hsegs Hnames Hlook Hnone.
  unfold Vault.delete, bind, emit, getRoot, Vault.denied, throw, setRoot.
  cbn [root undeletable trace].
  destruct (existsb _ (undeletable w)); [reflexivity|].
  rewrite Hsegs.
  destruct (segs ++ cname :: names) as [|s l] eqn:Heq;
    [now destruct segs|].
  rewrite <- Heq. unfold Vault.parentOf.
  rewrite removelast_app by discriminate.
  replace (removelast (cname :: names)) with (cname :: removelast names)
    by (destruct names; [contradiction | reflexivity]).
  rewrite updateAt_app.
  rewrite (updateAt_at _ _ name ch EmptyString (root w) Hlook).
  cbn [Vault.updateAt]. now rewrite updateChild_none.
Qed.

Lemma replay_below_missing (l : list string) (segs : list string)
  (cname name : string) (ch : list node) :
  forall w,
    (forall q, In q l ->
               exists names, names <> []
                             /\ Vault.segments q = segs ++ cname :: names) ->
    Vault.lookup segs (TFolder EmptyString (root w)) = Some (TFolder name ch) ->
    Vault.findChild cname ch = None ->
    root (replay l w) = root w.
Proof.
  induction l as [|q l IH]; intros w Hall Hlook Hnone; simpl; [reflexivity|].
  destruct (Hall q (or_introl eq_refl)) as (names & Hnames & Hsegs).
  pose proof (delete_below_missing q segs names cname name ch w Hsegs Hnames
                Hlook Hnone) as Hroot.
  rewrite IH; [assumption | | now rewrite Hroot | assumption].
  intros q' Hq'. apply Hall. now right.
Qed.

Lemma emptyBelow_one (path cname : string) (grandchildren : list node) :
  emptyBelow path [TFolder cname grandchildren]
  = emptyBelow (Vault.childPath path cname) grandchildren
      ++ (if Spec.isEmpty (TFolder cname grandchildren)
          then [Vault.childPath path cname] else []).
Proof.
  unfold emptyBelow at 1. cbn [flat_map]. rewrite app_nil_r. reflexivity.
Qed.

(** The deletions of the collected folders, replayed last one first, on
    the children of one folder: with the folder at [path] holding
    [pre ++ done], the folders collected below [pre] are deleted, and [pre]
    is pruned. *)
Lemma replay_collected_loop (path name : string) :
  forall (pre done : list node) (w : world),
    Forall prunes_by_replay pre ->
    Forall wellFormed pre ->
    NoDup (map Vault.nodeName (pre ++ done)) ->
    undeletable w = [] ->
    Vault.lookup (Vault.segments path) (TFolder EmptyString (root w))
    = Some (TFolder name (pre ++ done)) ->
    Vault.updateAt (Vault.segments path)
      (fun _ => Some (pruneList pre ++ done)) (root w)
    = Some (root (replay (rev (emptyBelow path pre)) w)).
Proof.
  induction pre as [|c pre IH] using rev_ind;
    intros done w Hall Hwfs Hnodup Hdeny Hlook.
  - cbn. eapply updateAt_same. exact Hlook.
  - apply Forall_app in Hall. destruct Hall as [Hall Hc].
    apply Forall_app in Hwfs. destruct Hwfs as [Hwfs Hwfc].
    assert (Hrec : prunes_by_replay c) by now inversion Hc.
    assert (Hwfchild : wellFormed c) by now inversion Hwfc.
    rewrite <- app_assoc in Hnodup, Hlook. cbn [app] in Hnodup, Hlook.
    rewrite emptyBelow_app, rev_app_distr, replay_app, pruneList_app.
    rewrite <- app_assoc.
    destruct c as [fname data|cname grandchildren].
    + (* a file *)
      cbn. now apply IH.
    + (* a folder *)
      destruct (wellFormed_folder_inv _ _ Hwfchild) as (Hgood & Hgnodup & Hgwf).
      assert (Hsegs : Vault.segments (Vault.childPath path cname)
                      = Vault.segments path ++ [cname])
        by now apply segments_childPath.
      assert (Hlookc : Vault.lookup (Vault.segments (Vault.childPath path cname))
                         (TFolder EmptyString (root w))
                       = Some (TFolder cname grandchildren)).
      { rewrite Hsegs, lookup_app, Hlook. cbn [Vault.lookup].
        pose proof (findChild_middle pre (TFolder cname grandchildren) done
                      Hnodup) as Hfind.
        cbn [Vault.nodeName] in Hfind. now rewrite Hfind. }
      rewrite pruneList_one.
      rewrite emptyBelow_one.
      assert (Hnodup2 : NoDup (map Vault.nodeName (pre ++ done))).
      { rewrite map_app in *. eapply NoDup_remove_1. exact Hnodup. }
      destruct (Spec.isEmpty (TFolder cname grandchildren)) eqn:Hempty.
      * (* an empty folder: deleted first, then nothing is found below it *)
        rewrite rev_app_distr. cbn [rev app replay].
        set (w1 := snd (Vault.delete (Vault.childPath path cname) w)).
        assert (Hroot1 : Vault.updateAt (Vault.segments path)
                           (fun _ => Some (pre ++ done)) (root w)
                         = Some (root w1)).
        { subst w1. rewrite delete_child_root by assumption.
          rewrite Hdeny. cbn [existsb].
          rewrite (updateAt_at _ (Vault.removeChild cname) name
                     (pre ++ TFolder cname grandchildren :: done)
                     EmptyString (root w) Hlook).
          pose proof (removeChild_middle pre (TFolder cname grandchildren) done
                        Hnodup) as Hrem.
          cbn [Vault.nodeName] in Hrem. rewrite Hrem.
          destruct (updateAt_replace (Vault.segments path) name
                      (pre ++ TFolder cname grandchildren :: done)
                      (pre ++ done) EmptyString (root w) Hlook)
            as (r' & Hup & _).
          now rewrite Hup. }
        assert (Hdeny1 : undeletable w1 = [])
          by (subst w1; now rewrite delete_undeletable).
        assert (Hfound1 : Vault.lookup (Vault.segments path)
                            (TFolder EmptyString (root w1))
                          = Some (TFolder name (pre ++ done))).
        { destruct (updateAt_replace (Vault.segments path) name
                      (pre ++ TFolder cname grandchildren :: done)
                      (pre ++ done) EmptyString (root w) Hlook)
            as (r' & Hup & Hl & _).
          rewrite Hroot1 in Hup. inversion Hup; subst r'. exact Hl. }
        assert (Hmissing : Vault.findChild cname (pre ++ done) = None).
        { apply findChild_none. intros Hin.
          rewrite map_app in Hnodup. apply NoDup_remove_2 in Hnodup.
          apply Hnodup. now rewrite <- map_app. }
        set (w2 := replay (rev (emptyBelow (Vault.childPath path cname)
                                  grandchildren)) w1).
        assert (Hroot2 : root w2 = root w1).
        { subst w2.
          apply (replay_below_missing _ (Vault.segments path) cname name
                   (pre ++ done)); [|exact Hfound1|exact Hmissing].
          intros q Hq. apply in_rev in Hq. unfold emptyBelow in Hq.
          apply in_flat_map in Hq. destruct Hq as (g & Hg & Hq).
          rewrite Forall_forall in Hgwf.
          destruct (emptyFolders_located g _ q (Hgwf g Hg) Hq)
            as (names & d & Hs & _).
          exists (Vault.nodeName g :: names). split; [discriminate|].
          rewrite Hs, Hsegs, <- app_assoc. reflexivity. }
        assert (Hdeny2 : undeletable w2 = [])
          by (subst w2; now rewrite replay_undeletable).
        specialize (IH done w2 Hall Hwfs Hnodup2 Hdeny2).
        rewrite Hroot2 in IH. specialize (IH Hfound1).
        cbn [app]. rewrite <- IH. symmetry.
        eapply updateAt_twice. exact Hroot1.
      * (* a folder that keeps something: pruned in place *)
        rewrite app_nil_r.
        pose proof (Hrec (Vault.childPath path cname) w cname grandchildren
                      eq_refl (conj Hgnodup Hgwf) Hdeny Hlookc) as Hchild.
        set (w1 := replay (rev (emptyBelow (Vault.childPath path cname)
                                  grandchildren)) w) in *.
        assert (Hchildren1 :
                  Vault.updateAt (Vault.segments path)
                    (fun _ => Some (pre ++ TFolder cname (pruneList grandchildren)
                                      :: done))
                    (root w)
                  = Some (root w1)).
        { rewrite Hsegs, updateAt_app in Hchild.
          rewrite (updateAt_at _ _ name
                     (pre ++ TFolder cname grandchildren :: done)
                     EmptyString (root w) Hlook) in Hchild.
          cbn [Vault.updateAt] in Hchild.
          pose proof (fun g => updateChild_middle g pre
                                 (TFolder cname grandchildren) done Hnodup)
            as Hupd.
          cbn [Vault.nodeName] in Hupd. rewrite Hupd in Hchild.
          exact Hchild. }
        assert (Hdeny1 : undeletable w1 = [])
          by (subst w1; now rewrite replay_undeletable).
        assert (Hfound1 : Vault.lookup (Vault.segments path)
                            (TFolder EmptyString (root w1))
                          = Some (TFolder name
                                    (pre ++ TFolder cname (pruneList grandchildren)
                                       :: done))).
        { destruct (updateAt_replace (Vault.segments path) name
                      (pre ++ TFolder cname grandchildren :: done)
                      (pre ++ TFolder cname (pruneList grandchildren) :: done)
                      EmptyString (root w) Hlook) as (r' & Hup & Hl & _).
          rewrite Hchildren1 in Hup. inversion Hup; subst r'. exact Hl. }
        assert (Hnodup1 : NoDup (map Vault.nodeName
                                   (pre ++ TFolder cname (pruneList grandchildren)
                                      :: done))).
        { rewrite map_app in *. exact Hnodup. }
        specialize (IH (TFolder cname (pruneList grandchildren) :: done) w1
                      Hall Hwfs Hnodup1 Hdeny1 Hfound1).
        cbn [app Spec.prune]. fold (pruneList grandchildren).
        rewrite <- IH. symmetry.
        eapply updateAt_twice. exact Hchildren1.
Qed.

Lemma replay_collected (c : node) : prunes_by_replay c.
Proof.
  induction c as [name data|name children IH] using node_induction;
    intros path w cname grandchildren Heq [Hnodup Hwf] Hdeny Hlook.
  - discriminate.
  - inversion Heq; subst cname grandchildren.
    pose proof (replay_collected_loop path name children [] w IH Hwf) as H.
    rewrite !app_nil_r in H. now apply H.
Qed.

Lemma halts_delete (path : string) : halts (Vault.delete path).
Proof.
  unfold Vault.delete.
  apply halts_bind; [apply halts_emit|]. intros _.
  apply halts_bind; [intros w; discriminate|]. intros r.
  apply halts_bind; [intros w; discriminate|]. intros refused.
  destruct refused; [apply halts_throw|].
  destruct (Vault.segments path) as [|s segs]; [apply halts_throw|].
  destruct (Vault.updateAt _ _ r); [intros w; discriminate | apply halts_throw].
Qed.

(** The deleting loop of the older revision returns, whatever the host
    refuses, and leaves the vault of the replayed deletions. *)
Lemma older_delete_loop_replay (folders : list string) :
  forall (removedCount : nat) (w : world),
    (exists n, fst (Part000.DirectoryManager.delete_loop folders removedCount w)
               = Returned n)
    /\ root (snd (Part000.DirectoryManager.delete_loop folders removedCount w))
       = root (replay folders w).
Proof.
  induction folders as [|folder rest IH]; intros removedCount w.
  - cbn. split; [now exists removedCount | reflexivity].
  - assert (Hstep : exists n' w',
               Part000.DirectoryManager.delete_loop (folder :: rest)
                 removedCount w
               = Part000.DirectoryManager.delete_loop rest n' w'
               /\ root w' = root (snd (Vault.delete folder w))
               /\ undeletable w' = undeletable (snd (Vault.delete folder w))).
    { cbn [Part000.DirectoryManager.delete_loop].
      unfold bind, try_catch, logger, emit, ret.
      pose proof (halts_delete folder w) as Hhalt.
      destruct (Vault.delete folder w) as [[[]|e|] w1]; cbn [fst snd] in *;
        [| |contradiction];
        eexists _, _; (split; [reflexivity|split; reflexivity]). }
    destruct Hstep as (n' & w' & -> & Hroot' & Hdeny').
    destruct (IH n' w') as [Hret Hroot].
    split; [exact Hret|]. rewrite Hroot. cbn [replay]. now apply replay_ext.
Qed.

(** X20. The older revision on a well-formed attachment folder, with a host
    that refuses nothing: the run returns, and the attachment folder is left
    pruned, with no empty folder below it and every file where it was. *)
Lemma older_cleanEmptyDirectories_prunes (settings : Part000.FolderizeSettings)
  (name : string) (children : list node) (w : world) :
  wellFormedChildren children ->
  undeletable w = [] ->
  Vault.resolve (Part000.attachmentPath settings) (root w)
  = Some (TFolder name children) ->
  let run := Part000.DirectoryManager.cleanEmptyDirectories settings w in
  fst run = Returned tt
  /\ Vault.resolve (Part000.attachmentPath settings) (root (snd run))
     = Some (Spec.prune (TFolder name children))
  /\ Spec.pruned (Spec.prune (TFolder name children)) = true
  /\ (forall p, Spec.files p (Spec.prune (TFolder name children))
                = Spec.files p (TFolder name children)).
Proof.
  intros Hwf Hdeny Hres run.
  assert (Hrun : exists w',
             run = (Returned tt, w')
             /\ root w'
                = root (replay
                          (rev (emptyBelow (Part000.attachmentPath settings)
                                  children)) w)).
  { subst run. unfold Part000.DirectoryManager.cleanEmptyDirectories.
    unfold try_catch, bind at 1, logger at 1, emit at 1.
    unfold bind at 1, Vault.getAbstractFileByPath. cbn [root].
    rewrite Hres.
    rewrite (findEmptyFolders_spec (TFolder name children) _ name children
               eq_refl Hwf).
    unfold bind at 1, logger at 1, emit at 1. unfold bind at 1.
    match goal with
    | |- context [Part000.DirectoryManager.delete_loop ?l ?n ?w'] =>
        destruct (older_delete_loop_replay l n w') as [[k Hret] Hroot];
        rewrite (replay_ext l w' w eq_refl eq_refl) in Hroot;
        destruct (Part000.DirectoryManager.delete_loop l n w') as [r w2]
    end.
    cbn [fst snd] in *. subst r.
    destruct (Nat.ltb 0 k); cbn; eexists; (split; [reflexivity | exact Hroot]). }
  destruct Hrun as (w' & -> & Hroot). cbn [fst snd].
  split; [reflexivity|]. split; [|split].
  - unfold Vault.resolve in *. rewrite Hroot.
    pose proof (replay_collected (TFolder name children)
                  (Part000.attachmentPath settings) w name children eq_refl
                  Hwf Hdeny Hres) as Hprune.
    destruct (updateAt_replace (Vault.segments (Part000.attachmentPath settings))
                name children (pruneList children) EmptyString (root w) Hres)
      as (r' & Hup & Hl & _).
    rewrite Hprune in Hup. inversion Hup; subst r'. exact Hl.
  - apply prune_pruned.
  - apply prune_keeps_files.
Qed.

(** * The older revision: what a batch never does *)

Lemma returns_bind {A B : Type} (m : M A) (k : A -> M B) :
  returns m -> (forall a, returns (k a)) -> returns (bind m k).
Proof.
  intros Hm Hk w. unfold bind. destruct (Hm w) as [a Ha].
  destruct (m w) as [r w1]. cbn [fst] in Ha. subst r. apply Hk.
Qed.

Lemma returns_ret {A : Type} (a : A) : returns (ret a).
Proof. intros w. now exists a. Qed.

Lemma returns_emit (e : event) : returns (emit e).
Proof. intros w. now exists tt. Qed.

Lemma returns_halts {A : Type} (m : M A) : returns m -> halts m.
Proof. intros H w. destruct (H w) as [a Ha]. rewrite Ha. discriminate. Qed.

Lemma returns_older_delete_loop (folders : list string) (removedCount : nat) :
  returns (Part000.DirectoryManager.delete_loop folders removedCount).
Proof.
  intros w. exact (proj1 (older_delete_loop_replay folders removedCount w)).
Qed.

Lemma quiet_older_delete_loop (folders : list string) :
  forall removedCount,
    quiet (Part000.DirectoryManager.delete_loop folders removedCount).
Proof.
  induction folders as [|folder rest IH]; intros removedCount; simpl.
  - apply quiet_ret.
  - apply quiet_bind; [|intros n; apply IH].
    apply quiet_try_catch.
    + apply quiet_bind; [apply quiet_delete|]. intros _.
      apply quiet_bind; [now apply quiet_emit|]. intros _. apply quiet_ret.
    + intros e. apply quiet_bind; [now apply quiet_emit|]. intros _.
      apply quiet_ret.
Qed.

Lemma returns_older_cleanEmptyDirectories (settings : Part000.FolderizeSettings) :
  returns (Part000.DirectoryManager.cleanEmptyDirectories settings).
Proof.
  unfold Part000.DirectoryManager.cleanEmptyDirectories.
  apply returns_try_catch; [|intros e; apply returns_emit].
  apply returns_halts.
  apply returns_bind; [apply returns_emit|]. intros _.
  apply returns_bind; [intros w; eexists; reflexivity|].
  intros [[name data|name children]|]; try apply returns_ret.
  apply returns_bind; [apply returns_emit|]. intros _.
  apply returns_bind; [apply returns_older_delete_loop|]. intros n.
  destruct (Nat.ltb 0 n); [|apply returns_ret].
  apply returns_bind; [apply returns_emit|]. intros _. apply returns_emit.
Qed.

Lemma quiet_older_cleanEmptyDirectories (settings : Part000.FolderizeSettings) :
  quiet (Part000.DirectoryManager.cleanEmptyDirectories settings).
Proof.
  unfold Part000.DirectoryManager.cleanEmptyDirectories.
  apply quiet_try_catch; [|intros e; now apply quiet_emit].
  apply quiet_bind; [now apply quiet_emit|]. intros _.
  apply quiet_bind; [apply quiet_getAbstractFileByPath|].
  intros [[name data|name children]|]; try apply quiet_ret.
  apply quiet_bind; [now apply quiet_emit|]. intros _.
  apply quiet_bind; [apply quiet_older_delete_loop|]. intros n.
  destruct (Nat.ltb 0 n); [|apply quiet_ret].
  apply quiet_bind; [now apply quiet_emit|]. intros _. now apply quiet_emit.
Qed.


Lemma keeps_policy_quiet {A : Type} (m : M A) : quiet m -> keeps_policy m.
Proof.
  intros Hq w. destruct (m w) as [r w'] eqn:Hm.
  exact (proj1 (Hq _ _ _ Hm)).
Qed.

Lemma keeps_policy_bind {A B : Type} (m : M A) (k : A -> M B) :
  keeps_policy m -> (forall a, keeps_policy (k a)) -> keeps_policy (bind m k).
Proof.
  intros Hm Hk w. unfold bind. specialize (Hm w).
  destruct (m w) as [[a|e|] w1]; cbn [snd] in *; [|assumption|assumption].
  now rewrite Hk.
Qed.

Lemma keeps_policy_try_catch {A : Type} (m : M A) (handler : error -> M A) :
  keeps_policy m -> (forall e, keeps_policy (handler e)) ->
  keeps_policy (try_catch m handler).
Proof.
  intros Hm Hh w. unfold try_catch. specialize (Hm w).
  destruct (m w) as [[a|e|] w1]; cbn [snd] in *; [assumption| |assumption].
  now rewrite Hh.
Qed.

Lemma keeps_policy_emit (e : event) : keeps_policy (emit e).
Proof. intros w. reflexivity. Qed.

Lemma keeps_policy_older_organizeFile (file : string)
  (settings : Part000.FolderizeSettings) :
  keeps_policy (Part000.FileOrganizer.organizeFile file settings).
Proof.
  unfold Part000.FileOrganizer.organizeFile.
  apply keeps_policy_try_catch.
  - apply keeps_policy_bind; [apply keeps_policy_emit|]. intros _.
    apply keeps_policy_quiet.
    apply quiet_bind; [apply quiet_calculateChecksum|]. intros checksum.
    cbv zeta. destruct (String.eqb file _); [now apply quiet_emit|].
    apply quiet_bind; [apply quiet_exists|]. intros present.
    apply quiet_bind.
    + destruct present; simpl; [apply quiet_ret|].
      apply quiet_bind; [now apply quiet_emit|]. intros _.
      apply quiet_createDirectoryRecursive_loop.
    + intros _. apply quiet_bind; [apply quiet_rename|]. intros _.
      now apply quiet_emit.
  - intros e. apply keeps_policy_bind; [apply keeps_policy_emit|]. intros _.
    apply keeps_policy_emit.
Qed.

Lemma keeps_policy_older_organize_loop (settings : Part000.FolderizeSettings)
  (files : list string) :
  forall n, keeps_policy (Part000.FileOrganizer.organize_loop files settings n).
Proof.
  induction files as [|f l IH]; intros n; simpl.
  - intros w. reflexivity.
  - apply keeps_policy_bind; [apply keeps_policy_older_organizeFile|].
    intros _. apply IH.
Qed.

(** X1. The older revision isolates every failure of a batch: with a
    positive chunk size [organizeAttachments] returns on every vault, and
    when the attachment folder exists every enumerated file is handed to
    [organizeFile] exactly once, in the order of the enumeration, and the
    notice counts them all. *)
Theorem older_organizeAttachments_processes_all
  (settings : Part000.FolderizeSettings) (w : world) :
  (1 <= Part000.chunkSize settings)%Z ->
  let run := Part000.FileOrganizer.organizeAttachments settings w in
  fst run = Returned tt
  /\ undeletable (snd run) = undeletable w
  /\ forall name children,
       Vault.resolve (Part000.attachmentPath settings) (root w)
       = Some (TFolder name children) ->
       let files := Part000.FileOrganizer.getAllFiles
                      (Part000.attachmentPath settings) (TFolder name children) in
       exists evs,
         trace (snd run) = trace w ++ evs
         /\ Spec.processed evs = files
         /\ In (Notice (OrganizedAttachments (List.length files))) evs.
Proof.
  intros Hc run.
  assert (Hmain : exists w',
             Part000.FileOrganizer.organizeAttachments settings w
             = (Returned tt, w')
             /\ undeletable w' = undeletable w
             /\ forall name children,
                  Vault.resolve (Part000.attachmentPath settings) (root w)
                  = Some (TFolder name children) ->
                  let files := Part000.FileOrganizer.getAllFiles
                                 (Part000.attachmentPath settings)
                                 (TFolder name children) in
                  exists evs,
                    trace w' = trace w ++ evs
                    /\ Spec.processed evs = files
                    /\ In (Notice (OrganizedAttachments (List.length files))) evs);
    [|destruct Hmain as (w' & Hrun & Hd & Hall); subst run; rewrite Hrun;
      cbn [fst snd]; auto].
  clear run.
  unfold Part000.FileOrganizer.organizeAttachments.
  set (w0 := mkWorld (root w) (undeletable w)
               (trace w ++ [Logged DEBUG OrganizingAttachments;
                            Notice OrganizingAttachments])).
  match goal with
  | |- context [try_catch (bind _ (fun _ => bind _ (fun _ => bind _ ?k))) ?h] =>
      assert (Hstep :
                try_catch (bind (logger DEBUG OrganizingAttachments)
                             (fun _ => bind (notice OrganizingAttachments)
                                         (fun _ => bind
                                                     (Vault.getAbstractFileByPath
                                                        (Part000.attachmentPath settings))
                                                     k))) h w
                = try_catch (k (Vault.resolve (Part000.attachmentPath settings)
                                  (root w))) h w0)
  end.
  { unfold try_catch, bind, logger, notice, emit, Vault.getAbstractFileByPath.
    cbn [root undeletable trace]. subst w0. now rewrite <- app_assoc. }
  rewrite Hstep. clear Hstep.
  destruct (Vault.resolve (Part000.attachmentPath settings) (root w))
    as [[fname data|name children]|] eqn:Hres.
  - cbn. eexists. split; [reflexivity|]. split; [reflexivity|]. discriminate.
  - set (files := Part000.FileOrganizer.getAllFiles
                    (Part000.attachmentPath settings) (TFolder name children)).
    set (w1 := mkWorld (root w0) (undeletable w0)
                 (trace w0 ++ [Logged DEBUG
                                 (ProcessingFiles (List.length files)
                                    (Part000.attachmentPath settings))])).
    destruct (older_organize_loop_isolated settings files Hc 0 w1)
      as (Hret & evs1 & Ht1 & Hp1).
    pose proof (keeps_policy_older_organize_loop settings files 0 w1) as Hd1.
    change (undeletable w1) with (undeletable w) in Hd1.
    unfold try_catch.
    change (bind (logger DEBUG (ProcessingFiles (List.length files)
                                  (Part000.attachmentPath settings))) ?k w0)
      with (k tt w1).
    cbv beta. unfold bind at 1.
    destruct (Part000.FileOrganizer.organize_loop files settings 0 w1)
      as [r w2].
    cbn [fst snd] in *. subst r.
    unfold bind at 1, logger at 1, emit at 1.
    unfold bind at 1, notice at 1, emit at 1. cbn [root undeletable trace].
    set (w3 := mkWorld (root w2) (undeletable w2)
                 ((trace w2
                   ++ [Logged DEBUG (OrganizationComplete (0 + List.length files))])
                  ++ [Notice (OrganizedAttachments (0 + List.length files))])).
    assert (Ht3 : trace w3
                  = trace w
                    ++ ([Logged DEBUG OrganizingAttachments;
                         Notice OrganizingAttachments;
                         Logged DEBUG (ProcessingFiles (List.length files)
                                         (Part000.attachmentPath settings))]
                        ++ evs1
                        ++ [Logged DEBUG (OrganizationComplete (List.length files));
                            Notice (OrganizedAttachments (List.length files))])).
    { subst w3. cbn [trace]. rewrite Ht1. subst w1 w0. cbn [trace].
      rewrite <- !app_assoc. reflexivity. }
    assert (Hfinal : exists w4 evs4,
               (if Part000.removeEmptyFolders settings
                then Part000.DirectoryManager.cleanEmptyDirectories settings
                else ret tt) w3 = (Returned tt, w4)
               /\ undeletable w4 = undeletable w3
               /\ trace w4 = trace w3 ++ evs4
               /\ Spec.processed evs4 = []).
    { destruct (Part000.removeEmptyFolders settings).
      - destruct (returns_older_cleanEmptyDirectories settings w3) as [[] Hr].
        destruct (Part000.DirectoryManager.cleanEmptyDirectories settings w3)
          as [r w4] eqn:Hrun.
        cbn [fst] in Hr. subst r.
        destruct (quiet_older_cleanEmptyDirectories settings _ _ _ Hrun)
          as (Hd & evs4 & Ht4 & Hp4).
        exists w4, evs4. auto.
      - exists w3, []. rewrite app_nil_r. auto. }
    destruct Hfinal as (w4 & evs4 & Hrun & Hd4 & Ht4 & Hp4).
    rewrite Hrun. exists w4.
    split; [reflexivity|]. split; [now rewrite Hd4|].
    intros name' children' Heq. inversion Heq; subst name' children'.
    cbv zeta. fold files.
    eexists. split; [rewrite Ht4, Ht3, <- app_assoc; reflexivity|].
    split.
    + rewrite !processed_app, Hp1, Hp4. cbn [Spec.processed flat_map app].
      now rewrite !app_nil_r.
    + apply in_or_app. left. apply in_or_app. right. apply in_or_app. right.
      right. now left.
  - cbn. eexists. split; [reflexivity|]. split; [reflexivity|]. discriminate.
Qed.

Lemma older_organizeAttachments_processes_all_witness :
  fst (Part000.FileOrganizer.organizeAttachments oldSettings2 faultyVault)
  = Returned tt.
Proof.
  refine (proj1 (older_organizeAttachments_processes_all oldSettings2
                   faultyVault _)).
  cbn. lia.
Defined.

(** * The older revision: deleting what was collected *)

Lemma delete_trace (p : string) (w : world) :
  trace (snd (Vault.delete p w)) = trace w ++ [Issued (Delete p)].
Proof.
  unfold Vault.delete, bind, emit, getRoot, Vault.denied, throw, setRoot.
  cbn [root undeletable trace].
  destruct (existsb _ (undeletable w)); [reflexivity|].
  destruct (Vault.segments p) as [|s l]; [reflexivity|].
  destruct (Vault.updateAt _ _ (root w)); reflexivity.
Qed.

Lemma older_delete_loop_issued (folders : list string) :
  forall (removedCount : nat) (w : world),
    exists evs,
      trace (snd (Part000.DirectoryManager.delete_loop folders removedCount w))
      = trace w ++ evs
      /\ Spec.issued evs = map Delete folders.
Proof.
  induction folders as [|folder rest IH]; intros removedCount w.
  - exists []. cbn. now rewrite app_nil_r.
  - assert (Hstep : exists n' w' l,
               Part000.DirectoryManager.delete_loop (folder :: rest)
                 removedCount w
               = Part000.DirectoryManager.delete_loop rest n' w'
               /\ trace w' = trace w ++ Issued (Delete folder) :: l
               /\ Spec.issued l = []).
    { cbn [Part000.DirectoryManager.delete_loop].
      unfold bind, try_catch, logger, emit, ret.
      pose proof (halts_delete folder w) as Hhalt.
      pose proof (delete_trace folder w) as Ht.
      destruct (Vault.delete folder w) as [[[]|e|] w1]; cbn [fst snd] in *;
        [| |contradiction];
        eexists _, _, [_]; cbn [trace]; rewrite Ht, <- app_assoc;
        (split; [reflexivity|split; reflexivity]). }
    destruct Hstep as (n' & w' & l & -> & Ht & Hl).
    destruct (IH n' w') as (evs & Hevs & Hissued).
    exists (Issued (Delete folder) :: l ++ evs). split.
    + rewrite Hevs, Ht, <- app_assoc. reflexivity.
    + change (Issued (Delete folder) :: l ++ evs)
        with ([Issued (Delete folder)] ++ l ++ evs).
      rewrite !issued_app, Hl, Hissued. reflexivity.
Qed.

(** X2. The older revision isolates every refused deletion: whatever the
    host refuses, [cleanEmptyDirectories] returns, and [vault.delete] has
    been called once for every folder that [findEmptyFolders] collected, in
    the reverse of the order of collection; nothing else reaches the
    vault. *)
Theorem older_cleanEmptyDirectories_tries_all
  (settings : Part000.FolderizeSettings) (w : world) (name : string)
  (children : list node) :
  Vault.resolve (Part000.attachmentPath settings) (root w)
  = Some (TFolder name children) ->
  let run := Part000.DirectoryManager.cleanEmptyDirectories settings w in
  fst run = Returned tt
  /\ exists evs,
       trace (snd run) = trace w ++ evs
       /\ Spec.issued evs
          = map Delete
              (rev (Part000.DirectoryManager.findEmptyFolders
                      (Part000.attachmentPath settings)
                      (TFolder name children))).
Proof.
  intros Hres run.
  assert (Hmain : exists w' evs,
             Part000.DirectoryManager.cleanEmptyDirectories settings w
             = (Returned tt, w')
             /\ trace w' = trace w ++ evs
             /\ Spec.issued evs
                = map Delete
                    (rev (Part000.DirectoryManager.findEmptyFolders
                            (Part000.attachmentPath settings)
                            (TFolder name children))));
    [|destruct Hmain as (w' & evs & Hrun & Ht & Hi); subst run; rewrite Hrun;
      split; [reflexivity | now exists evs]].
  clear run.
  unfold Part000.DirectoryManager.cleanEmptyDirectories.
  unfold try_catch, bind at 1, logger at 1, emit at 1.
  unfold bind at 1, Vault.getAbstractFileByPath. cbn [root].
  rewrite Hres.
  unfold bind at 1, logger at 1, emit at 1. unfold bind at 1.
  match goal with
  | |- context [Part000.DirectoryManager.delete_loop ?l ?n ?w'] =>
      destruct (older_delete_loop_replay l n w') as [[k Hret] _];
      destruct (older_delete_loop_issued l n w') as (evs & Ht & Hi);
      destruct (Part000.DirectoryManager.delete_loop l n w') as [r w2]
  end.
  cbn [fst snd trace] in *. subst r.
  unfold Spec.issued in *.
  destruct (Nat.ltb 0 k).
  - eexists _, (_ :: _ :: evs ++ [_; _]).
    split; [reflexivity|]. split.
    + cbn [trace]. rewrite Ht, <- !app_assoc. reflexivity.
    + cbn [flat_map app]. rewrite flat_map_app. cbn [flat_map app].
      rewrite app_nil_r. exact Hi.
  - eexists _, (_ :: _ :: evs).
    split; [reflexivity|]. split.
    + cbn [trace]. rewrite Ht, <- !app_assoc. reflexivity.
    + cbn [flat_map app]. exact Hi.
Qed.

Lemma older_cleanEmptyDirectories_tries_all_witness :
  fst (Part000.DirectoryManager.cleanEmptyDirectories oldSettings2 mixedVault)
  = Returned tt.
Proof.
  refine (proj1 (older_cleanEmptyDirectories_tries_all oldSettings2 mixedVault
                   "Attachments" _ _)).
  reflexivity.
Defined.


Lemma emptyFolders_below (c : node) :
  forall path q,
    In q (emptyFolders path c) ->
    exists d,
      Spec.isEmpty d = true
      /\ ((q = Vault.childPath path (Vault.nodeName c) /\ d = c
           /\ Vault.isFolder c = true)
          \/ Spec.folderBelow (Vault.childPath path (Vault.nodeName c)) c q d).
Proof.
  induction c as [name data|cname grandchildren IH] using node_induction;
    intros path q Hin.
  - destruct Hin.
  - cbn [emptyFolders] in Hin. apply in_app_or in Hin.
    destruct Hin as [Hin|Hin].
    + apply in_flat_map in Hin. destruct Hin as (g & Hg & Hin).
      rewrite Forall_forall in IH.
      destruct (IH g Hg (Vault.childPath path cname) q Hin)
        as (d & Hempty & [(-> & -> & Hfolder)|Hbelow]).
      * exists g. split; [exact Hempty|]. right.
        destruct g as [gname gdata|gname ggc]; [discriminate|].
        cbn [Vault.nodeName]. now apply Spec.below_child.
      * exists d. split; [exact Hempty|]. right.
        cbn [Vault.nodeName]. eapply Spec.below_deeper; eassumption.
    + destruct (Spec.isEmpty (TFolder cname grandchildren)) eqn:Hempty;
        [|destruct Hin].
      destruct Hin as [<-|[]].
      exists (TFolder cname grandchildren). split; [exact Hempty|].
      left. repeat split.
Qed.

Lemma emptyBelow_below (path name : string) (children : list node) (q : string) :
  In q (emptyBelow path children) ->
  exists d,
    Spec.folderBelow path (TFolder name children) q d /\ Spec.isEmpty d = true.
Proof.
  intros Hin. unfold emptyBelow in Hin. apply in_flat_map in Hin.
  destruct Hin as (c & Hc & Hin).
  destruct (emptyFolders_below c path q Hin)
    as (d & Hempty & [(-> & -> & Hfolder)|Hbelow]).
  - exists c. split; [|exact Hempty].
    destruct c as [cname data|cname gc]; [discriminate|].
    now apply Spec.below_child.
  - exists d. split; [|exact Hempty].
    eapply Spec.below_deeper; eassumption.
Qed.

Lemma below_emptyBelow (path : string) (folder : node) (q : string) (d : node) :
  Spec.folderBelow path folder q d ->
  Spec.isEmpty d = true ->
  forall name children,
    folder = TFolder name children -> In q (emptyBelow path children).
Proof.
  intros Hbelow Hempty.
  induction Hbelow as [path name children cname grandchildren Hin
                      |path name children c p d Hin Hbelow IH];
    intros name' children' Heq; inversion Heq; subst name' children'.
  - unfold emptyBelow. apply in_flat_map.
    exists (TFolder cname grandchildren). split; [exact Hin|].
    cbn [emptyFolders]. apply in_or_app. right. rewrite Hempty. now left.
  - unfold emptyBelow. apply in_flat_map. exists c. split; [exact Hin|].
    destruct c as [cname data|cname gc]; [inversion Hbelow|].
    cbn [emptyFolders]. apply in_or_app. left.
    exact (IH Hempty cname gc eq_refl).
Qed.

(** X3. On a well-formed folder [findEmptyFolders] collects exactly the
    folders strictly below it that are empty, that is, that hold no file at
    any depth. *)
Theorem findEmptyFolders_collects_empty (path name : string)
  (children : list node) (q : string) :
  wellFormedChildren children ->
  In q (Part000.DirectoryManager.findEmptyFolders path (TFolder name children))
  <-> exists d,
        Spec.folderBelow path (TFolder name children) q d
        /\ Spec.isEmpty d = true.
Proof.
  intros Hwf.
  rewrite (findEmptyFolders_spec (TFolder name children) path name children
             eq_refl Hwf).
  split.
  - apply emptyBelow_below.
  - intros (d & Hbelow & Hempty).
    exact (below_emptyBelow path _ q d Hbelow Hempty name children eq_refl).
Qed.

Lemma findEmptyFolders_collects_empty_witness :
  In "Attachments/old/deep"
    (Part000.DirectoryManager.findEmptyFolders "Attachments"
       (TFolder "Attachments"
          [TFolder "old" [TFolder "deep" []];
           TFile "keep.txt" (Some (ascii_bytes "abc"))]))
  <-> exists d,
        Spec.folderBelow "Attachments"
          (TFolder "Attachments"
             [TFolder "old" [TFolder "deep" []];
              TFile "keep.txt" (Some (ascii_bytes "abc"))])
          "Attachments/old/deep" d
        /\ Spec.isEmpty d = true.
Proof.
  apply (findEmptyFolders_collects_empty "Attachments" "Attachments"
           [TFolder "old" [TFolder "deep" []];
            TFile "keep.txt" (Some (ascii_bytes "abc"))]
           "Attachments/old/deep").
  solve_wellFormedChildren.
Defined.

(** * The count of a pruning walk *)

Lemma no_notice_app (a b : list event) :
  (forall m, ~ In (Notice m) a) -> (forall m, ~ In (Notice m) b) ->
  forall m, ~ In (Notice m) (a ++ b).
Proof.
  intros Ha Hb m Hin. apply in_app_or in Hin.
  destruct Hin; [now apply (Ha m) | now apply (Hb m)].
Qed.

Lemma no_notice_deleting (p : string) :
  forall m, ~ In (Notice m) [Logged DEBUG (RemovingEmptyFolder p);
                             Issued (Delete p)].
Proof. intros m [H|[H|[]]]; discriminate. Qed.

Lemma no_notice_logged (level : LogLevel) (msg : message) :
  forall m, ~ In (Notice m) [Logged level msg].
Proof. intros m [H|[]]; discriminate. Qed.

Lemma removeEmptyFolders_loop_counts (deny : list string) (path : string)
  (all : list node) :
  Forall (fun c => forall path,
              counts_from 0 deny (DirectoryManager.removeEmptyFolders deny path c))
    all ->
  forall (n : nat) (children : list node) (count : nat),
    List.length children <= n ->
    incl children all ->
    counts_from count deny
      (DirectoryManager.removeEmptyFolders_loop
         (DirectoryManager.removeEmptyFolders deny) deny path children count).
Proof.
  intros Hall. rewrite Forall_forall in Hall.
  induction n as [|n IH]; intros children count Hlen Hincl.
  - destruct children; [|simpl in Hlen; lia]. cbn. unfold counts_from. cbn.
    split; [tauto | lia].
  - destruct children as [|child rest].
    { cbn. unfold counts_from. cbn. split; [tauto | lia]. }
    assert (Hchild : In child all) by (apply Hincl; now left).
    assert (Hrest : incl rest all) by (intros x Hx; apply Hincl; now right).
    simpl in Hlen.
    destruct child as [fname data|cname grandchildren].
    + cbn [DirectoryManager.removeEmptyFolders_loop].
      specialize (IH rest count ltac:(lia) Hrest).
      destruct (DirectoryManager.removeEmptyFolders_loop _ deny path rest count)
        as [[rest' evs] r].
      exact IH.
    + cbn [DirectoryManager.removeEmptyFolders_loop].
      pose proof (Hall _ Hchild (Vault.childPath path cname)) as Hrec.
      destruct (DirectoryManager.removeEmptyFolders deny
                  (Vault.childPath path cname) (TFolder cname grandchildren))
        as [[grandchildren' evs1] r1].
      unfold counts_from in Hrec. cbn [fst snd] in Hrec.
      destruct Hrec as [Hquiet1 Hrec].
      destruct r1 as [k|e|]; [|split; assumption|destruct Hrec].
      destruct grandchildren' as [|g grandchildren'].
      * destruct (existsb (String.eqb (Vault.childPath path cname)) deny) eqn:Hden.
        -- unfold counts_from. cbn [fst snd]. split.
           { apply no_notice_app; [exact Hquiet1 | apply no_notice_deleting]. }
           exists (Vault.childPath path cname), (deletions evs1).
           split; [reflexivity|]. split; [|exact Hden].
           rewrite deletions_app. reflexivity.
        -- assert (Hquiet3 :
                     forall m,
                       ~ In (Notice m)
                           ((evs1 ++ [Logged DEBUG
                                        (RemovingEmptyFolder
                                           (Vault.childPath path cname));
                                      Issued (Delete (Vault.childPath path cname))])
                              ++ [Logged INFO
                                    (RemovedEmptyFolder
                                       (Vault.childPath path cname))])).
           { apply no_notice_app; [|apply no_notice_logged].
             apply no_notice_app; [exact Hquiet1 | apply no_notice_deleting]. }
           destruct rest as [|skipped rest].
           ++ unfold counts_from. cbn [fst snd]. split; [exact Hquiet3|].
              rewrite !deletions_app, !length_app. cbn. lia.
           ++ simpl in Hlen.
              assert (Hrest' : incl rest all).
              { intros x Hx. apply Hrest. now right. }
              specialize (IH rest (count + k + 1) ltac:(lia) Hrest').
              destruct (DirectoryManager.removeEmptyFolders_loop _ deny path rest
                          (count + k + 1)) as [[rest' evs] r].
              unfold counts_from in *. cbn [fst snd] in *.
              destruct IH as [Hquiet IH].
              split; [now apply no_notice_app|].
              destruct r as [m|e|]; [| |exact IH].
              ** rewrite !deletions_app, !length_app. cbn. lia.
              ** destruct IH as (p & before & He & Hd & Hp).
                 exists p, ((deletions evs1 ++ [Vault.childPath path cname]) ++ before).
                 split; [exact He|]. split; [|exact Hp].
                 rewrite !deletions_app, Hd. cbn.
                 rewrite <- !app_assoc. reflexivity.
      * specialize (IH rest (count + k) ltac:(lia) Hrest).
        destruct (DirectoryManager.removeEmptyFolders_loop _ deny path rest
                    (count + k)) as [[rest' evs] r].
        unfold counts_from in *. cbn [fst snd] in *.
        destruct IH as [Hquiet IH].
        split; [now apply no_notice_app|].
        destruct r as [m|e|]; [| |exact IH].
        -- rewrite deletions_app, length_app. lia.
        -- destruct IH as (p & before & He & Hd & Hp).
           exists p, (deletions evs1 ++ before).
           split; [exact He|]. split; [|exact Hp].
           rewrite deletions_app, Hd. now rewrite <- app_assoc.
Qed.

Lemma removeEmptyFolders_counts (deny : list string) (folder : node) :
  forall path,
    counts_from 0 deny (DirectoryManager.removeEmptyFolders deny path folder).
Proof.
  induction folder as [name data|name children IH] using node_induction;
    intros path.
  - unfold counts_from. cbn. split; [tauto | reflexivity].
  - cbn [DirectoryManager.removeEmptyFolders].
    apply (removeEmptyFolders_loop_counts deny path children IH
             (List.length children) children 0 (le_n _) (incl_refl _)).
Qed.

Lemma existsb_eqb_In (p : string) (l : list string) :
  existsb (String.eqb p) l = true -> In p l.
Proof.
  intros H. apply existsb_exists in H. destruct H as (x & Hx & Heq).
  apply String.eqb_eq in Heq. now subst x.
Qed.

(** X4. What [cleanEmptyDirectories] tells the user is accurate, and it
    always comes back.  When it returns, the number in its notice is the
    number of [vault.delete] calls it made, and there is no notice when it
    made none.  When it throws, the error is the host's refusal of the last
    deletion it tried, a folder the host does not let go, and no notice is
    shown. *)
Theorem cleanEmptyDirectories_reports_count (attachmentPath : string)
  (w : world) :
  let run := DirectoryManager.cleanEmptyDirectories attachmentPath w in
  exists evs,
    trace (snd run) = trace w ++ evs
    /\ match fst run with
       | Returned _ =>
           forall n,
             In (Notice (RemovedEmptyDirectories n)) evs
             <-> (n = List.length (deletions evs) /\ 0 < n)
       | Thrown e =>
           exists p before,
             e = StorageFault (Delete p)
             /\ deletions evs = before ++ [p]
             /\ In p (undeletable w)
             /\ forall m, ~ In (Notice m) evs
       | Hangs => False
       end.
Proof.
  intros run. subst run.
  destruct (resolve_folder_dec attachmentPath (root w))
    as [(name & children & Hres)|Habsent].
  - destruct (cleanEmptyDirectories_folder attachmentPath name children w Hres)
      as (Hr & _ & Ht & _).
    pose proof (removeEmptyFolders_counts (undeletable w) (TFolder name children)
                  attachmentPath) as Hcount.
    destruct (DirectoryManager.removeEmptyFolders (undeletable w) attachmentPath
                (TFolder name children)) as [[children' evs] r].
    unfold counts_from in Hcount. cbn [fst snd] in *.
    destruct Hcount as [Hquiet Hcount].
    eexists. split; [exact Ht|]. rewrite Hr.
    assert (Hdel : forall tail,
               deletions tail = [] ->
               deletions (Logged DEBUG (RemovingEmptyDirectoriesFrom attachmentPath)
                            :: evs ++ tail)
               = deletions evs).
    { intros tail Htail.
      change (Logged DEBUG (RemovingEmptyDirectoriesFrom attachmentPath)
                :: evs ++ tail)
        with ([Logged DEBUG (RemovingEmptyDirectoriesFrom attachmentPath)]
                ++ evs ++ tail).
      rewrite !deletions_app, Htail, app_nil_r. reflexivity. }
    destruct r as [k|e|]; cbn [forget cleanup_report].
    + destruct (Nat.ltb_spec 0 k) as [Hpos|Hzero].
      * rewrite Hdel by reflexivity. cbn in Hcount. subst k.
        intros n. split.
        -- intros [Hin|Hin]; [discriminate|].
           apply in_app_or in Hin. destruct Hin as [Hin|Hin].
           ++ destruct (Hquiet _ Hin).
           ++ destruct Hin as [Hin|[Hin|[]]]; [discriminate|].
              inversion Hin; subst n. split; [reflexivity | exact Hpos].
        -- intros [-> _]. right. apply in_or_app. right. right. now left.
      * rewrite Hdel by reflexivity. cbn in Hcount. subst k.
        intros n. split.
        -- intros [Hin|Hin]; [discriminate|].
           rewrite app_nil_r in Hin. destruct (Hquiet _ Hin).
        -- intros [-> Hpos]. lia.
    + destruct Hcount as (p & before & He & Hd & Hp).
      exists p, before. split; [exact He|].
      rewrite Hdel by reflexivity. split; [exact Hd|].
      split; [now apply existsb_eqb_In|].
      intros m [Hin|Hin]; [discriminate|].
      rewrite app_nil_r in Hin. exact (Hquiet _ Hin).
    + destruct Hcount.
  - rewrite (cleanEmptyDirectories_absent attachmentPath w Habsent).
    cbn [fst snd trace]. eexists. split; [reflexivity|].
    intros n. cbn. split.
    + intros [Hin|[]]. discriminate.
    + intros [-> Hpos]. lia.
Qed.


(** * One pass over empty siblings *)

Lemma every_other_lengths {A : Type} (n : nat) :
  forall l : list A,
    List.length l <= n ->
    List.length (the_others l) + List.length (every_other l) = List.length l
    /\ List.length (every_other l) = Nat.div2 (List.length l).
Proof.
  induction n as [|n IH]; intros l Hlen.
  - destruct l; [|simpl in Hlen; lia]. split; reflexivity.
  - destruct l as [|a [|b rest]]; [split; reflexivity..|].
    simpl in Hlen. destruct (IH rest ltac:(lia)) as [H1 H2].
    cbn [the_others every_other List.length Nat.div2]. split; lia.
Qed.

Lemma removeEmptyFolders_loop_every_other (path : string) (n : nat) :
  forall (names : list string) (count : nat),
    List.length names <= n ->
    let wk := DirectoryManager.removeEmptyFolders_loop
                (DirectoryManager.removeEmptyFolders []) [] path
                (map emptyFolder names) count in
    fst (fst wk) = map emptyFolder (every_other names)
    /\ deletions (snd (fst wk)) = map (Vault.childPath path) (the_others names)
    /\ snd wk = Returned (count + List.length (the_others names)).
Proof.
  induction n as [|n IH]; intros names count Hlen wk; subst wk.
  - destruct names; [|simpl in Hlen; lia]. cbn. repeat split. f_equal. lia.
  - destruct names as [|a [|b rest]].
    + cbn. repeat split. f_equal. lia.
    + cbn. repeat split. f_equal. lia.
    + simpl in Hlen.
      specialize (IH rest (count + 0 + 1) ltac:(lia)). cbv zeta in IH.
      cbn [map emptyFolder DirectoryManager.removeEmptyFolders_loop
             DirectoryManager.removeEmptyFolders existsb].
      fold (emptyFolder b).
      change (map (fun name => TFolder name []) rest) with (map emptyFolder rest).
      destruct (DirectoryManager.removeEmptyFolders_loop
                  (DirectoryManager.removeEmptyFolders []) [] path
                  (map emptyFolder rest) (count + 0 + 1)) as [[rest' evs] r].
      cbn [fst snd] in *. destruct IH as (Hkept & Hdel & Hr).
      cbn [every_other the_others map List.length].
      split; [now rewrite Hkept|]. split.
      * rewrite !deletions_app, Hdel. reflexivity.
      * rewrite Hr. f_equal. lia.
Qed.

(** X5. One pass of [removeEmptyFolders] over a folder whose children are
    empty folders, with nothing refused: the folders at the first, third,
    ... place are deleted, those at the second, fourth, ... place are
    stepped over and stay, and the count is the number of the former, half
    of them rounded up. *)
Theorem removeEmptyFolders_every_other (path name : string)
  (names : list string) :
  let wk := DirectoryManager.removeEmptyFolders [] path
              (TFolder name (map emptyFolder names)) in
  fst (fst wk) = map emptyFolder (every_other names)
  /\ deletions (snd (fst wk)) = map (Vault.childPath path) (the_others names)
  /\ snd wk = Returned (List.length (the_others names))
  /\ List.length (the_others names) + List.length (every_other names)
     = List.length names
  /\ List.length (every_other names) = Nat.div2 (List.length names).
Proof.
  intros wk. subst wk. cbn [DirectoryManager.removeEmptyFolders].
  destruct (removeEmptyFolders_loop_every_other path (List.length names) names 0
              (le_n _)) as (H1 & H2 & H3).
  destruct (every_other_lengths (List.length names) names (le_n _)) as [H4 H5].
  repeat split; assumption.
Qed.

(** * The digest and the length of the derived path *)

Lemma round_length (s : list N) (kw : N * N) :
  List.length s = 8 -> List.length (Crypto.round s kw) = 8.
Proof.
  intros H.
  destruct s as [|a [|b [|c [|d [|e [|f [|g [|h [|i s]]]]]]]]];
    try discriminate. reflexivity.
Qed.

Lemma rounds_length (l : list (N * N)) :
  forall s, List.length s = 8 -> List.length (fold_left Crypto.round l s) = 8.
Proof.
  induction l as [|kw l IH]; intros s H; simpl; [exact H|].
  apply IH. now apply round_length.
Qed.

Lemma compress_length (H : list N) (block : bytes) :
  List.length H = 8 -> List.length (Crypto.compress H block) = 8.
Proof.
  intros Hlen. unfold Crypto.compress.
  rewrite length_map, length_combine, rounds_length by exact Hlen.
  rewrite Hlen. reflexivity.
Qed.

Lemma blocks_length (fuel : nat) :
  forall (H : list N) (l : bytes),
    List.length H = 8 -> List.length (Crypto.blocks fuel H l) = 8.
Proof.
  induction fuel as [|fuel IH]; intros H l Hlen; simpl; [exact Hlen|].
  destruct l as [|b l]; [exact Hlen|].
  apply IH. now apply compress_length.
Qed.

Lemma fromWords_length (l : list N) :
  List.length (flat_map Crypto.fromWord l) = 4 * List.length l.
Proof.
  induction l as [|x l IH]; [reflexivity|].
  cbn [flat_map]. rewrite length_app, IH. cbn. lia.
Qed.

Lemma sha256_length (msg : bytes) : List.length (Crypto.sha256 msg) = 32.
Proof.
  unfold Crypto.sha256. rewrite fromWords_length, blocks_length; reflexivity.
Qed.

Lemma length_append (a b : string) :
  String.length (String.append a b) = String.length a + String.length b.
Proof. induction a as [|c a IH]; simpl; congruence. Qed.

Lemma segments_length (l : bytes) :
  String.length
    (String.concat EmptyString
       (map (fun seg => String.append "/" seg) (map FileOrganizer.hexByte l)))
  = 3 * List.length l.
Proof.
  induction l as [|b l IH]; [reflexivity|].
  cbn [map]. rewrite concat_empty_cons, length_append, IH.
  rewrite hexByte_hexPair. cbn [String.append String.length Spec.hexPair List.length].
  lia.
Qed.

Lemma generatePath_unfolded (checksum : bytes) (settings : FolderizeSettings) :
  FileOrganizer.generatePath checksum settings
  = String.append (attachmentPath settings)
      (String.concat EmptyString
         (map (fun seg => String.append "/" seg)
            (map FileOrganizer.hexByte
               (firstn (Z.to_nat (pathDepth settings)) checksum)))).
Proof.
  unfold FileOrganizer.generatePath.
  rewrite generatePath_loop_spec, Z.sub_0_r. cbn [app].
  apply join_slash_cons.
Qed.

(** X6. The checksum of a file is always 32 bytes long, so the folder of a
    file is the attachment path followed by exactly min(pathDepth, 32)
    segments of three characters (a separator and two digits) each. *)
Theorem cksum_gives_32_bytes (data : bytes) (chunkSize : Z)
  (settings : FolderizeSettings) :
  (1 <= chunkSize)%Z ->
  (0 <= pathDepth settings)%Z ->
  exists checksum,
    FileOrganizer.cksum_bytes data chunkSize = Some checksum
    /\ List.length checksum = 32
    /\ String.length (FileOrganizer.generatePath checksum settings)
       = String.length (attachmentPath settings)
         + 3 * Z.to_nat (Z.min (pathDepth settings) 32).
Proof.
  intros Hc Hd. exists (Crypto.sha256 data).
  split; [now apply cksum_bytes_positive|].
  split; [apply sha256_length|].
  rewrite generatePath_unfolded, length_append, segments_length.
  rewrite length_firstn, sha256_length. lia.
Qed.

Lemma cksum_gives_32_bytes_witness :
  exists checksum,
    FileOrganizer.cksum_bytes (ascii_bytes "abc") 4096 = Some checksum
    /\ List.length checksum = 32
    /\ String.length (FileOrganizer.generatePath checksum settings2)
       = String.length "Attachments" + 3 * Z.to_nat (Z.min 2 32).
Proof.
  refine (cksum_gives_32_bytes (ascii_bytes "abc") 4096 settings2 _ _);
    cbn; lia.
Defined.

(** * Which checksums share a folder *)

Lemma append_inj_l (a x y : string) :
  String.append a x = String.append a y -> x = y.
Proof.
  induction a as [|c a IH]; simpl; intros H; [exact H|].
  inversion H. now apply IH.
Qed.

Lemma hexPair_inj (a b : byte) : Spec.hexPair a = Spec.hexPair b -> a = b.
Proof.
  intros H.
  pose proof (proj2 (proj2 (hexPair_shape a))) as Ha.
  pose proof (proj2 (proj2 (hexPair_shape b))) as Hb.
  rewrite H in Ha. rewrite Ha in Hb. inversion Hb as [Heq].
  pose proof (Byte.of_to_N a) as H1. pose proof (Byte.of_to_N b) as H2.
  rewrite Heq in H1. congruence.
Qed.

Lemma segments_inj (l1 : bytes) :
  forall l2,
    String.concat EmptyString
      (map (fun seg => String.append "/" seg) (map FileOrganizer.hexByte l1))
    = String.concat EmptyString
        (map (fun seg => String.append "/" seg) (map FileOrganizer.hexByte l2)) ->
    l1 = l2.
Proof.
  induction l1 as [|a l1 IH]; intros [|b l2] H.
  - reflexivity.
  - cbn [map] in H. rewrite concat_empty_cons in H. discriminate.
  - cbn [map] in H. rewrite concat_empty_cons in H. discriminate.
  - cbn [map] in H. rewrite !concat_empty_cons, !hexByte_hexPair in H.
    cbn [String.append Spec.hexPair] in H.
    inversion H as [[Hh Hl Hrest]].
    f_equal.
    + apply hexPair_inj. unfold Spec.hexPair. now rewrite Hh, Hl.
    + now apply IH.
Qed.

(** X7. Two checksums are given the same folder exactly when they agree on
    their first [pathDepth] bytes: the derivation of the folder loses
    nothing of the bytes it uses. *)
Theorem generatePath_injective (c1 c2 : bytes) (settings : FolderizeSettings) :
  FileOrganizer.generatePath c1 settings = FileOrganizer.generatePath c2 settings
  <-> firstn (Z.to_nat (pathDepth settings)) c1
      = firstn (Z.to_nat (pathDepth settings)) c2.
Proof.
  rewrite !generatePath_unfolded. split.
  - intros H. apply append_inj_l in H. now apply segments_inj.
  - intros H. now rewrite H.
Qed.

(** * Adding to the vault *)

Lemma updateChild_lookup (s : string) (g : node -> option node) :
  (forall c c', g c = Some c' -> Vault.nodeName c' = Vault.nodeName c) ->
  forall r r',
    Vault.updateChild s g r = Some r' ->
    exists c c',
      Vault.findChild s r = Some c
      /\ g c = Some c'
      /\ Vault.findChild s r' = Some c'
      /\ forall t, t <> s -> Vault.findChild t r' = Vault.findChild t r.
Proof.
  intros Hg. induction r as [|x r IH]; intros r' H; simpl in H; [discriminate|].
  destruct (String.eqb_spec (Vault.nodeName x) s) as [Heq|Hne].
  - destruct (g x) as [c'|] eqn:Hgx; [|discriminate].
    inversion H; subst r'. exists x, c'. simpl.
    rewrite (Hg _ _ Hgx). destruct (String.eqb_spec (Vault.nodeName x) s);
      [|contradiction].
    repeat split; try assumption; try reflexivity.
    intros t Ht. rewrite Heq.
    destruct (String.eqb_spec s t) as [->|_]; [contradiction | reflexivity].
  - destruct (Vault.updateChild s g r) as [rest'|] eqn:Hup; [|discriminate].
    inversion H; subst r'.
    destruct (IH rest' eq_refl) as (c & c' & Hf & Hgc & Hf' & Hother).
    exists c, c'. simpl.
    destruct (String.eqb_spec (Vault.nodeName x) s); [contradiction|].
    repeat split; try assumption.
    intros t Ht. destruct (String.eqb (Vault.nodeName x) t); [reflexivity|].
    now apply Hother.
Qed.

Lemma updateAt_step_name (rest : list string)
  (f : list node -> option (list node)) (c c' : node) :
  match c with
  | TFile _ _ => None
  | TFolder n ch => option_map (TFolder n) (Vault.updateAt rest f ch)
  end = Some c' ->
  Vault.nodeName c' = Vault.nodeName c.
Proof.
  destruct c as [name data|name ch]; [discriminate|].
  destruct (Vault.updateAt rest f ch); [|discriminate].
  intros H. inversion H. reflexivity.
Qed.

Lemma extends_refl (r : list node) : extends r r.
Proof. intros segs n x H. exists x. auto. Qed.

Lemma extends_trans (a b c : list node) :
  extends a b -> extends b c -> extends a c.
Proof.
  intros Hab Hbc segs n x H.
  destruct (Hab segs n x H) as (x1 & H1 & Hk1 & Hn1 & Hf1).
  destruct (Hbc segs n x1 H1) as (x2 & H2 & Hk2 & Hn2 & Hf2).
  exists x2. split; [exact H2|]. split; [congruence|]. split; [congruence|].
  intros Hfile. rewrite <- (Hf1 Hfile). apply Hf2. congruence.
Qed.

Lemma updateAt_extends (f : list node -> option (list node)) :
  grows f ->
  forall segs' r r',
    Vault.updateAt segs' f r = Some r' -> extends r r'.
Proof.
  intros Hf segs' r r' Hup segs. revert segs' r r' Hup.
  induction segs as [|s rest IH]; intros segs' r r' Hup n x Hlook.
  - simpl in Hlook. inversion Hlook; subst x. exists (TFolder n r').
    simpl. repeat split. discriminate.
  - simpl in Hlook.
    destruct (Vault.findChild s r) as [c0|] eqn:Hfind; [|discriminate].
    destruct segs' as [|s' rest'].
    + simpl in Hup. exists x. simpl. rewrite (Hf _ _ _ _ Hup Hfind).
      repeat split. exact Hlook.
    + simpl in Hup.
      destruct (updateChild_lookup s' _ (updateAt_step_name rest' f) r r' Hup)
        as (c1 & c1' & Hf1 & Hg & Hf1' & Hother).
      destruct (String.eqb_spec s s') as [->|Hne].
      * rewrite Hfind in Hf1. inversion Hf1; subst c1.
        destruct c0 as [name data|n1 ch1]; [discriminate|].
        destruct (Vault.updateAt rest' f ch1) as [ch1'|] eqn:Hup1;
          [|discriminate].
        inversion Hg; subst c1'.
        destruct (IH rest' ch1 ch1' Hup1 n1 x Hlook) as (x' & Hx' & Hrest).
        exists x'. simpl. rewrite Hf1'. split; assumption.
      * exists x. simpl. rewrite (Hother s Hne), Hfind.
        repeat split. exact Hlook.
Qed.

Lemma findChild_app_found (t : string) (a b : list node) (x : node) :
  Vault.findChild t a = Some x -> Vault.findChild t (a ++ b) = Some x.
Proof.
  induction a as [|c a IH]; simpl; [discriminate|].
  destruct (String.eqb (Vault.nodeName c) t); auto.
Qed.

Lemma findChild_app_missing (t : string) (a b : list node) :
  Vault.findChild t a = None ->
  Vault.findChild t (a ++ b) = Vault.findChild t b.
Proof.
  induction a as [|c a IH]; simpl; [reflexivity|].
  destruct (String.eqb (Vault.nodeName c) t); [discriminate | auto].
Qed.

Lemma addChild_grows (c : node) : grows (Vault.addChild c).
Proof.
  intros ch ch' t x H Hfind. unfold Vault.addChild in H.
  destruct (Vault.findChild (Vault.nodeName c) ch); [discriminate|].
  destruct (JS.truthy (Vault.nodeName c)); [|discriminate].
  inversion H. now apply findChild_app_found.
Qed.

Lemma addChild_found (c : node) (ch ch' : list node) :
  Vault.addChild c ch = Some ch' ->
  Vault.findChild (Vault.nodeName c) ch' = Some c
  /\ JS.truthy (Vault.nodeName c) = true.
Proof.
  unfold Vault.addChild.
  destruct (Vault.findChild (Vault.nodeName c) ch) eqn:Hfind; [discriminate|].
  destruct (JS.truthy (Vault.nodeName c)); [|discriminate].
  intros H. inversion H. rewrite findChild_app_missing by assumption.
  simpl. now rewrite String.eqb_refl.
Qed.

(** The child just added is found at its path. *)
Lemma updateAt_added (c : node) (segs : list string) :
  forall n r r',
    Vault.updateAt segs (Vault.addChild c) r = Some r' ->
    Vault.lookup (segs ++ [Vault.nodeName c]) (TFolder n r') = Some c
    /\ JS.truthy (Vault.nodeName c) = true.
Proof.
  induction segs as [|s rest IH]; intros n r r' Hup.
  - simpl in Hup. destruct (addChild_found c r r' Hup) as [Hf Ht].
    simpl. now rewrite Hf.
  - simpl in Hup.
    destruct (updateChild_lookup s _ (updateAt_step_name rest _) r r' Hup)
      as (c1 & c1' & Hf1 & Hg & Hf1' & _).
    destruct c1 as [name data|n1 ch1]; [discriminate|].
    destruct (Vault.updateAt rest (Vault.addChild c) ch1) as [ch1'|] eqn:Hup1;
      [|discriminate].
    inversion Hg; subst c1'.
    destruct (IH n1 ch1 ch1' Hup1) as [Hl Ht].
    split; [|exact Ht]. simpl. now rewrite Hf1'.
Qed.

(** * [vault.createFolder] and [mkdirs] *)

Lemma createFolder_spec (path : string) (w : world) :
  let run := Vault.createFolder path w in
  undeletable (snd run) = undeletable w
  /\ trace (snd run) = trace w ++ [Issued (CreateFolder path)]
  /\ extends (root w) (root (snd run))
  /\ (fst run = Returned tt \/ fst run = Thrown (StorageFault (CreateFolder path)))
  /\ (fst run = Returned tt -> Vault.resolve path (root (snd run)) <> None).
Proof.
  unfold Vault.createFolder, bind, emit, getRoot, throw, setRoot.
  cbn [root undeletable trace].
  destruct (Vault.segments path) as [|s l] eqn:Hsegs.
  - cbn. split; [reflexivity|]. split; [reflexivity|].
    split; [apply extends_refl|]. split; [now right | discriminate].
  - rewrite <- Hsegs.
    destruct (Vault.updateAt _ _ (root w)) as [r'|] eqn:Hup.
    + cbn. split; [reflexivity|]. split; [reflexivity|]. split.
      { eapply updateAt_extends; [apply addChild_grows | exact Hup]. }
      split; [now left|].
      intros _. unfold Vault.resolve.
      destruct (updateAt_added _ _ EmptyString _ _ Hup) as [Hl _].
      cbn [Vault.nodeName] in Hl. unfold Vault.parentOf, Vault.nameOf in Hl.
      rewrite <- app_removelast_last in Hl by (rewrite Hsegs; discriminate).
      rewrite Hl. discriminate.
    + cbn. split; [reflexivity|]. split; [reflexivity|].
      split; [apply extends_refl|]. split; [now right | discriminate].
Qed.

Lemma extends_exists (r r' : list node) (path : string) :
  extends r r' -> Vault.resolve path r <> None -> Vault.resolve path r' <> None.
Proof.
  intros Hext H. unfold Vault.resolve in *.
  destruct (Vault.lookup (Vault.segments path) (TFolder EmptyString r))
    as [x|] eqn:Hl; [|contradiction].
  destruct (Hext _ _ _ Hl) as (x' & Hx' & _). rewrite Hx'. discriminate.
Qed.

Lemma extends_file (r r' : list node) (path name : string)
  (data : option bytes) :
  extends r r' ->
  Vault.resolve path r = Some (TFile name data) ->
  Vault.resolve path r' = Some (TFile name data).
Proof.
  intros Hext H. unfold Vault.resolve in *.
  destruct (Hext _ _ _ H) as (x' & Hx' & _ & _ & Hfile).
  now rewrite Hx', (Hfile eq_refl).
Qed.

Lemma mkdirs_loop_step (part : string) (rest : list string)
  (currentPath : string) (w : world) :
  let cur := if JS.truthy currentPath
             then String.append currentPath (String.append "/" part)
             else part in
  DirectoryManager.mkdirs_loop (part :: rest) currentPath w
  = match Vault.resolve cur (root w) with
    | Some _ => DirectoryManager.mkdirs_loop rest cur w
    | None =>
        match Vault.createFolder cur w with
        | (Returned _, w1) => DirectoryManager.mkdirs_loop rest cur w1
        | (Thrown e, w1) => (Thrown e, w1)
        | (Hangs, w1) => (Hangs, w1)
        end
    end.
Proof.
  cbn [DirectoryManager.mkdirs_loop]. cbv zeta.
  unfold bind at 1, Vault.exists_ at 1.
  destruct (Vault.resolve _ (root w)); cbn [negb]; reflexivity.
Qed.

(** What a run of the loop of [mkdirs] does: only [createFolder] commands,
    each for a path it looked at and did not find; everything that was in
    the vault is still there; and when the loop returns, every path it
    looked at exists. *)
Lemma mkdirs_loop_spec (parts : list string) :
  forall (currentPath : string) (w : world),
    let run := DirectoryManager.mkdirs_loop parts currentPath w in
    undeletable (snd run) = undeletable w
    /\ extends (root w) (root (snd run))
    /\ (exists created,
           trace (snd run) = trace w ++ map (fun p => Issued (CreateFolder p)) created
           /\ incl created (mkdirs_paths parts currentPath)
           /\ forall p, In p created -> Vault.resolve p (root w) = None)
    /\ (fst run = Returned tt \/ exists p, fst run = Thrown (StorageFault (CreateFolder p)))
    /\ (fst run = Returned tt ->
        forall p, In p (mkdirs_paths parts currentPath) ->
                  Vault.resolve p (root (snd run)) <> None).
Proof.
  induction parts as [|part rest IH]; intros currentPath w run; subst run.
  - cbn. split; [reflexivity|]. split; [apply extends_refl|]. split.
    { exists []. cbn. rewrite app_nil_r. split; [reflexivity|].
      split; [intros x [] | intros p []]. }
    split; [now left | intros _ p []].
  - rewrite mkdirs_loop_step. cbn [mkdirs_paths].
    set (cur := if JS.truthy currentPath
                then String.append currentPath (String.append "/" part)
                else part).
    destruct (Vault.resolve cur (root w)) as [x|] eqn:Hres.
    + destruct (IH cur w)
        as (Hd & Hext & (created & Ht & Hincl & Hnew) & Hout & Hall).
      split; [exact Hd|]. split; [exact Hext|]. split.
      { exists created. split; [exact Ht|]. split; [|exact Hnew].
        intros p Hp. right. now apply Hincl. }
      split; [exact Hout|].
      intros Hret p [<-|Hp]; [|now apply Hall].
      apply (extends_exists _ _ cur Hext). rewrite Hres. discriminate.
    + destruct (createFolder_spec cur w) as (Hd1 & Ht1 & Hext1 & Hout1 & Hnew1).
      destruct (Vault.createFolder cur w) as [r1 w1]. cbn [fst snd] in *.
      destruct Hout1 as [->| ->].
      * destruct (IH cur w1)
          as (Hd & Hext & (created & Ht & Hincl & Hnew) & Hout & Hall).
        split; [congruence|].
        split; [eapply extends_trans; eassumption|]. split.
        { exists (cur :: created). split; [|split].
          - rewrite Ht, Ht1, <- app_assoc. reflexivity.
          - intros p [<-|Hp]; [now left | right; now apply Hincl].
          - intros p [<-|Hp]; [exact Hres|].
            destruct (Vault.resolve p (root w)) eqn:Hp0; [|reflexivity].
            exfalso.
            apply (extends_exists _ _ p Hext1); [now rewrite Hp0|].
            now apply Hnew. }
        split; [exact Hout|].
        intros Hret p [<-|Hp]; [|now apply Hall].
        apply (extends_exists _ _ cur Hext). now apply Hnew1.
      * cbn [fst snd]. split; [exact Hd1|]. split; [exact Hext1|]. split.
        { exists [cur]. split; [exact Ht1|]. split.
          - intros p [<-|[]]. now left.
          - intros p [<-|[]]. exact Hres. }
        split; [right; now exists cur | discriminate].
Qed.

Lemma mkdirs_spec (dir : string) (w : world) :
  let run := DirectoryManager.mkdirs dir w in
  undeletable (snd run) = undeletable w
  /\ extends (root w) (root (snd run))
  /\ (exists created,
         trace (snd run)
         = trace w ++ Logged DEBUG (CreatingDirectoryStructure dir)
                      :: map (fun p => Issued (CreateFolder p)) created
         /\ incl created (mkdirs_paths (JS.split_slash dir) EmptyString)
         /\ forall p, In p created -> Vault.resolve p (root w) = None)
  /\ (fst run = Returned tt
      \/ exists p, fst run = Thrown (StorageFault (CreateFolder p)))
  /\ (fst run = Returned tt ->
      forall p, In p (mkdirs_paths (JS.split_slash dir) EmptyString) ->
                Vault.resolve p (root (snd run)) <> None).
Proof.
  intros run. subst run. unfold DirectoryManager.mkdirs.
  set (w1 := mkWorld (root w) (undeletable w)
               (trace w ++ [Logged DEBUG (CreatingDirectoryStructure dir)])).
  rewrite (bind_returned _ _ w w1 tt) by reflexivity.
  destruct (mkdirs_loop_spec (JS.split_slash dir) EmptyString w1)
    as (Hd & Hext & (created & Ht & Hincl & Hnew) & Hout & Hall).
  split; [exact Hd|]. split; [exact Hext|]. split; [|split; assumption].
  exists created. split; [|split; assumption].
  rewrite Ht. subst w1. cbn [trace]. now rewrite <- app_assoc.
Qed.

(** X8. [mkdirs] only adds folders.  It always comes back; every command
    it sends is a [createFolder] for a path that did not exist; every file
    of the vault is afterwards where it was, with its content, and every
    path that existed still exists. *)
Theorem mkdirs_only_adds (dir : string) (w : world) :
  let run := DirectoryManager.mkdirs dir w in
  fst run <> Hangs
  /\ undeletable (snd run) = undeletable w
  /\ (exists created,
         trace (snd run)
         = trace w ++ Logged DEBUG (CreatingDirectoryStructure dir)
                      :: map (fun p => Issued (CreateFolder p)) created
         /\ forall p, In p created -> Vault.resolve p (root w) = None)
  /\ (forall path name data,
         Vault.resolve path (root w) = Some (TFile name data) ->
         Vault.resolve path (root (snd run)) = Some (TFile name data))
  /\ (forall path,
         Vault.resolve path (root w) <> None ->
         Vault.resolve path (root (snd run)) <> None).
Proof.
  intros run.
  destruct (mkdirs_spec dir w)
    as (Hd & Hext & (created & Ht & _ & Hnew) & Hout & _).
  fold run in Hd, Hext, Ht, Hout.
  split.
  { destruct Hout as [H|[p H]]; rewrite H; discriminate. }
  split; [exact Hd|]. split; [now exists created|]. split.
  - intros path name data. now apply extends_file.
  - intros path. now apply extends_exists.
Qed.

Lemma mkdirs_loop_noop (parts : list string) :
  forall (currentPath : string) (w : world),
    (forall p, In p (mkdirs_paths parts currentPath) ->
               Vault.resolve p (root w) <> None) ->
    DirectoryManager.mkdirs_loop parts currentPath w = (Returned tt, w).
Proof.
  induction parts as [|part rest IH]; intros currentPath w Hall.
  - reflexivity.
  - rewrite mkdirs_loop_step. cbn [mkdirs_paths] in Hall.
    destruct (Vault.resolve _ (root w)) eqn:Hres.
    + apply IH. intros p Hp. apply Hall. now right.
    + exfalso. apply (Hall _ (or_introl eq_refl)). exact Hres.
Qed.

(** X9. [mkdirs] is idempotent: once it has returned, a second call for the
    same directory finds every folder on the way, sends nothing to the
    vault and leaves it as it is. *)
Theorem mkdirs_twice (dir : string) (w w1 : world) :
  DirectoryManager.mkdirs dir w = (Returned tt, w1) ->
  DirectoryManager.mkdirs dir w1
  = (Returned tt,
     mkWorld (root w1) (undeletable w1)
       (trace w1 ++ [Logged DEBUG (CreatingDirectoryStructure dir)])).
Proof.
  intros Hrun.
  destruct (mkdirs_spec dir w) as (_ & _ & _ & _ & Hall).
  rewrite Hrun in Hall. cbn [fst snd] in Hall. specialize (Hall eq_refl).
  unfold DirectoryManager.mkdirs.
  set (w2 := mkWorld (root w1) (undeletable w1)
               (trace w1 ++ [Logged DEBUG (CreatingDirectoryStructure dir)])).
  rewrite (bind_returned _ _ w1 w2 tt) by reflexivity.
  now apply mkdirs_loop_noop.
Qed.


Lemma mkdirs_twice_witness :
  DirectoryManager.mkdirs "Attachments/ba/78"
    (snd (DirectoryManager.mkdirs "Attachments/ba/78" looseVault))
  = (Returned tt,
     mkWorld (root (snd (DirectoryManager.mkdirs "Attachments/ba/78" looseVault)))
       (undeletable (snd (DirectoryManager.mkdirs "Attachments/ba/78" looseVault)))
       (trace (snd (DirectoryManager.mkdirs "Attachments/ba/78" looseVault))
          ++ [Logged DEBUG (CreatingDirectoryStructure "Attachments/ba/78")])).
Proof.
  apply (mkdirs_twice "Attachments/ba/78" looseVault). reflexivity.
Defined.

(** * Names and paths *)

Lemma list_ascii_append (a b : string) :
  list_ascii_of_string (String.append a b)
  = list_ascii_of_string a ++ list_ascii_of_string b.
Proof. induction a as [|c a IH]; simpl; congruence. Qed.

Lemma takeName_no_slash (l : list ascii) :
  forallb (fun c => negb (NodePath.isSlash c)) (NodePath.takeName l) = true.
Proof.
  induction l as [|c l IH]; simpl; [reflexivity|].
  destruct (NodePath.isSlash c) eqn:Hc; simpl; [reflexivity|].
  now rewrite Hc, IH.
Qed.

Lemma forallb_rev {A : Type} (f : A -> bool) (l : list A) :
  forallb f (rev l) = forallb f l.
Proof.
  induction l as [|x l IH]; simpl; [reflexivity|].
  rewrite forallb_app, IH. simpl. rewrite andb_true_r. apply andb_comm.
Qed.

(** [path.basename] never gives a separator. *)
Lemma basename_no_slash (p : string) :
  forallb (fun c => negb (NodePath.isSlash c))
    (list_ascii_of_string (NodePath.basename p)) = true.
Proof.
  unfold NodePath.basename.
  rewrite list_ascii_of_string_of_list_ascii, forallb_rev.
  apply takeName_no_slash.
Qed.

Lemma takeName_all (l rest : list ascii) :
  forallb (fun c => negb (NodePath.isSlash c)) l = true ->
  NodePath.takeName (l ++ "/"%char :: rest) = l.
Proof.
  induction l as [|c l IH]; simpl; intros H; [reflexivity|].
  apply andb_prop in H. destruct H as [Hc Hl].
  apply negb_true_iff in Hc. rewrite Hc. now rewrite IH.
Qed.

(** The name of a file survives the derivation of its new path. *)
Lemma basename_append (hive base : string) :
  base <> EmptyString ->
  forallb (fun c => negb (NodePath.isSlash c)) (list_ascii_of_string base) = true ->
  NodePath.basename (String.append hive (String.append "/" base)) = base.
Proof.
  intros Hne Hbase. unfold NodePath.basename.
  rewrite list_ascii_append. cbn [String.append list_ascii_of_string].
  rewrite rev_app_distr. cbn [rev]. rewrite <- app_assoc. cbn [app].
  assert (Hrev : forallb (fun c => negb (NodePath.isSlash c))
                   (rev (list_ascii_of_string base)) = true)
    by now rewrite forallb_rev.
  destruct (rev (list_ascii_of_string base)) as [|c l] eqn:Hl.
  - exfalso. apply Hne.
    rewrite <- (string_of_list_ascii_of_string base).
    rewrite <- (rev_involutive (list_ascii_of_string base)), Hl. reflexivity.
  - cbn [app NodePath.dropSlashes].
    pose proof Hrev as Hrev'. simpl in Hrev'. apply andb_prop in Hrev'.
    destruct Hrev' as [Hc _]. apply negb_true_iff in Hc. rewrite Hc.
    change (c :: l ++ "/"%char :: rev (list_ascii_of_string hive))
      with ((c :: l) ++ "/"%char :: rev (list_ascii_of_string hive)).
    rewrite takeName_all by exact Hrev.
    rewrite <- Hl, rev_involutive. apply string_of_list_ascii_of_string.
Qed.

(** The names on the way to [hive/base]. *)
Lemma segments_append (hive base : string) :
  forallb (fun c => negb (NodePath.isSlash c)) (list_ascii_of_string base) = true ->
  Vault.segments (String.append hive (String.append "/" base))
  = if String.eqb (String.append hive (String.append "/" base)) "/" then []
    else JS.split_slash hive ++ [base].
Proof.
  intros Hbase. unfold Vault.segments.
  destruct (String.eqb _ "/"); [reflexivity|].
  unfold JS.split_slash. cbn [String.append].
  rewrite split_slash_aux_append. f_equal.
  now rewrite split_slash_aux_name.
Qed.

Lemma lookup_name (segs : list string) :
  forall folder x,
    segs <> [] ->
    Vault.lookup segs folder = Some x ->
    Vault.nodeName x = last segs EmptyString.
Proof.
  induction segs as [|s rest IH]; intros folder x Hne H; [contradiction|].
  simpl in H. destruct folder as [name data|name children]; [discriminate|].
  destruct (Vault.findChild s children) as [c|] eqn:Hfind; [|discriminate].
  destruct rest as [|s2 rest].
  - simpl in H. inversion H; subst x. now apply findChild_name in Hfind.
  - rewrite (IH c x) by (discriminate || assumption). reflexivity.
Qed.

(** * [vault.rename] *)

Lemma rename_returned (file newPath : string) (w w' : world) :
  Vault.rename file newPath w = (Returned tt, w') ->
  exists nd r1,
    Vault.resolve file (root w) = Some nd
    /\ Vault.segments file <> []
    /\ Vault.segments newPath <> []
    /\ Vault.updateAt (Vault.parentOf (Vault.segments file))
         (Vault.removeChild (Vault.nameOf (Vault.segments file))) (root w)
       = Some r1
    /\ Vault.updateAt (Vault.parentOf (Vault.segments newPath))
         (Vault.addChild
            (Vault.rename_node (Vault.nameOf (Vault.segments newPath)) nd)) r1
       = Some (root w')
    /\ undeletable w' = undeletable w
    /\ trace w' = trace w ++ [Issued (Rename file newPath)].
Proof.
  unfold Vault.rename, bind, emit, getRoot, throw, setRoot.
  cbn [root undeletable trace]. cbv zeta.
  destruct (Vault.segments file) as [|s1 src] eqn:Hsrc; [discriminate|].
  destruct (Vault.segments newPath) as [|s2 dst] eqn:Hdst; [discriminate|].
  destruct (Vault.resolve file (root w)) as [nd|]; [|discriminate].
  destruct (Vault.updateAt (Vault.parentOf (s1 :: src)) _ (root w)) as [r1|];
    [|discriminate].
  destruct (Vault.updateAt (Vault.parentOf (s2 :: dst)) _ r1) as [r2|] eqn:Hup;
    [|discriminate].
  intros H. inversion H; subst w'. cbn [root undeletable trace].
  exists nd, r1. repeat split; try discriminate; try reflexivity. exact Hup.
Qed.

Lemma rename_node_name (name : string) (n : node) :
  Vault.nodeName (Vault.rename_node name n) = name.
Proof. destruct n; reflexivity. Qed.

(** After a rename that returned, the node is found at its new path. *)
Lemma rename_arrives (file newPath : string) (w w' : world) :
  Vault.rename file newPath w = (Returned tt, w') ->
  exists nd,
    Vault.resolve file (root w) = Some nd
    /\ Vault.resolve newPath (root w')
       = Some (Vault.rename_node (Vault.nameOf (Vault.segments newPath)) nd)
    /\ JS.truthy (Vault.nameOf (Vault.segments newPath)) = true
    /\ Vault.segments newPath <> [].
Proof.
  intros H.
  destruct (rename_returned _ _ _ _ H)
    as (nd & r1 & Hres & _ & Hdst & _ & Hadd & _).
  exists nd. split; [exact Hres|].
  destruct (updateAt_added _ _ EmptyString _ _ Hadd) as [Hl Ht].
  rewrite rename_node_name in Hl, Ht.
  unfold Vault.parentOf, Vault.nameOf in Hl.
  rewrite <- app_removelast_last in Hl by exact Hdst.
  split; [exact Hl|]. split; [exact Ht | exact Hdst].
Qed.

(** * Where [organizeFile] puts a file *)

Lemma HASH_CHUNK_SIZE_positive : (1 <= FileOrganizer.HASH_CHUNK_SIZE)%Z.
Proof. unfold FileOrganizer.HASH_CHUNK_SIZE. lia. Qed.

(** [organizeFile] on a readable file, step by step. *)
Lemma organizeFile_readable (file : string) (settings : FolderizeSettings)
  (w : world) (name : string) (data : bytes) :
  Vault.resolve file (root w) = Some (TFile name (Some data)) ->
  let newPath := placement file data settings in
  let w1 := mkWorld (root w) (undeletable w)
              (trace w ++ [Logged DEBUG (OrganizingFile file)]) in
  FileOrganizer.organizeFile file settings w
  = if String.eqb file newPath
    then logger DEBUG (AlreadyInCorrectLocation file) w1
    else
      match DirectoryManager.mkdirs (NodePath.dirname newPath) w1 with
      | (Returned _, w2) =>
          match Vault.rename file newPath w2 with
          | (Returned _, w3) => logger INFO (Moved newPath newPath) w3
          | (Thrown e, w3) => (Thrown e, w3)
          | (Hangs, w3) => (Hangs, w3)
          end
      | (Thrown e, w2) => (Thrown e, w2)
      | (Hangs, w2) => (Hangs, w2)
      end.
Proof.
  intros Hres newPath w1.
  unfold FileOrganizer.organizeFile.
  rewrite (bind_returned _ _ w w1 tt) by reflexivity.
  rewrite (bind_returned _ _ w1 w1 (Crypto.sha256 data))
    by (apply cksum_readable;
        [apply HASH_CHUNK_SIZE_positive
        | now apply (readBinary_readable file name data w1)]).
  fold (placement file data settings). fold newPath.
  destruct (String.eqb file newPath); [reflexivity|].
  unfold bind.
  destruct (DirectoryManager.mkdirs (NodePath.dirname newPath) w1)
    as [[[]|e|] w2]; reflexivity.
Qed.

(** Where the content is once [organizeFile] has returned. *)
Lemma organizeFile_arrives (file : string)
  (settings : FolderizeSettings) (w w' : world) (name : string) (data : bytes) :
  Vault.resolve file (root w) = Some (TFile name (Some data)) ->
  FileOrganizer.organizeFile file settings w = (Returned tt, w') ->
  Vault.resolve (placement file data settings) (root w')
  = Some (TFile (NodePath.basename file) (Some data))
  /\ NodePath.basename (placement file data settings) = NodePath.basename file
  /\ undeletable w' = undeletable w.
Proof.
  intros Hres Hrun.
  rewrite (organizeFile_readable file settings w name data Hres) in Hrun.
  cbv zeta in Hrun.
  set (newPath := placement file data settings) in *.
  assert (Hsegs : Vault.segments newPath
                  = if String.eqb newPath "/" then []
                    else JS.split_slash
                           (FileOrganizer.generatePath (Crypto.sha256 data) settings)
                           ++ [NodePath.basename file]).
  { apply segments_append. apply basename_no_slash. }
  destruct (String.eqb_spec file newPath) as [Heq|Hne].
  - (* in place *)
    inversion Hrun; subst w'. cbn [root undeletable]. rewrite <- Heq.
    assert (Hname : name = NodePath.basename file).
    { assert (Hne : Vault.segments file <> []).
      { intros Hnil. unfold Vault.resolve in Hres. rewrite Hnil in Hres.
        discriminate. }
      pose proof (lookup_name _ _ _ Hne Hres) as Hn. cbn [Vault.nodeName] in Hn.
      rewrite Hn. rewrite Heq, Hsegs in *.
      destruct (String.eqb newPath "/"); [contradiction|].
      apply last_last. }
    rewrite <- Hname. auto.
  - (* moved *)
    destruct (mkdirs_spec (NodePath.dirname newPath)
                (mkWorld (root w) (undeletable w)
                   (trace w ++ [Logged DEBUG (OrganizingFile file)])))
      as (Hd & Hext & _).
    destruct (DirectoryManager.mkdirs (NodePath.dirname newPath) _)
      as [[[]|e|] w2]; try discriminate.
    cbn [fst snd root undeletable] in Hext, Hd.
    pose proof (extends_file _ _ _ _ _ Hext Hres) as Hres2.
    destruct (Vault.rename file newPath w2) as [[[]|e|] w3] eqn:Hren;
      try discriminate.
    inversion Hrun; subst w'. cbn [root undeletable].
    destruct (rename_arrives _ _ _ _ Hren) as (nd & Hnd & Hnew & Htruthy & Hdst).
    destruct (rename_returned _ _ _ _ Hren) as (_ & _ & _ & _ & _ & _ & _ & Hd3 & _).
    rewrite Hres2 in Hnd. inversion Hnd; subst nd.
    rewrite Hnew. cbn [Vault.rename_node]. unfold Vault.nameOf in *.
    rewrite Hsegs in *. destruct (String.eqb newPath "/"); [contradiction|].
    rewrite last_last in *. split; [reflexivity|]. split; [|congruence].
    apply basename_append; [|apply basename_no_slash].
    intros Hempty. rewrite Hempty in Htruthy. discriminate.
Qed.

(** X10. When [organizeFile] returns for a readable file, the content of
    the file is at the path derived from it: the attachment path, the
    first bytes of the SHA-256 of the content as folders, and the name the
    file had. *)
Theorem organizeFile_places_content (file : string)
  (settings : FolderizeSettings) (w w' : world) (name : string) (data : bytes) :
  Vault.resolve file (root w) = Some (TFile name (Some data)) ->
  FileOrganizer.organizeFile file settings w = (Returned tt, w') ->
  Vault.resolve
    (String.append (FileOrganizer.generatePath (Crypto.sha256 data) settings)
       (String.append "/" (NodePath.basename file)))
    (root w')
  = Some (TFile (NodePath.basename file) (Some data)).
Proof.
  intros Hres Hrun.
  exact (proj1 (organizeFile_arrives file settings w w' name data Hres Hrun)).
Qed.

Lemma organizeFile_places_content_witness :
  Vault.resolve
    (String.append
       (FileOrganizer.generatePath (Crypto.sha256 (ascii_bytes "abc")) settings2)
       (String.append "/" (NodePath.basename "Attachments/a.txt")))
    (root (snd (FileOrganizer.organizeFile "Attachments/a.txt" settings2
                  looseVault)))
  = Some (TFile (NodePath.basename "Attachments/a.txt")
            (Some (ascii_bytes "abc"))).
Proof.
  apply (organizeFile_places_content "Attachments/a.txt" settings2 looseVault
           (snd (FileOrganizer.organizeFile "Attachments/a.txt" settings2
                   looseVault))
           "a.txt" (ascii_bytes "abc")).
  - reflexivity.
  - vm_compute. reflexivity.
Defined.

(** The file that is where its content puts it. *)
Lemma organizeFile_placed (file : string) (settings : FolderizeSettings)
  (w : world) (name : string) (data : bytes) :
  Vault.resolve file (root w) = Some (TFile name (Some data)) ->
  file = placement file data settings ->
  FileOrganizer.organizeFile file settings w
  = (Returned tt,
     mkWorld (root w) (undeletable w)
       (trace w ++ [Logged DEBUG (OrganizingFile file);
                    Logged DEBUG (AlreadyInCorrectLocation file)])).
Proof.
  intros Hres Hplace.
  rewrite (organizeFile_readable file settings w name data Hres). cbv zeta.
  rewrite <- Hplace, String.eqb_refl.
  unfold logger, emit. cbn [root undeletable trace].
  now rewrite <- app_assoc.
Qed.

(** X11. [organizeFile] is idempotent: once it has returned for a readable
    file, a second call on the file at its new path only writes two debug
    lines; nothing is sent to the vault and the vault is unchanged. *)
Theorem organizeFile_twice (file : string) (settings : FolderizeSettings)
  (w w' : world) (name : string) (data : bytes) :
  Vault.resolve file (root w) = Some (TFile name (Some data)) ->
  FileOrganizer.organizeFile file settings w = (Returned tt, w') ->
  let newPath :=
    String.append (FileOrganizer.generatePath (Crypto.sha256 data) settings)
      (String.append "/" (NodePath.basename file)) in
  FileOrganizer.organizeFile newPath settings w'
  = (Returned tt,
     mkWorld (root w') (undeletable w')
       (trace w' ++ [Logged DEBUG (OrganizingFile newPath);
                     Logged DEBUG (AlreadyInCorrectLocation newPath)])).
Proof.
  intros Hres Hrun newPath.
  destruct (organizeFile_arrives file settings w w' name data Hres Hrun)
    as (Hnew & Hbase & _).
  apply (organizeFile_placed newPath settings w' (NodePath.basename file) data).
  - exact Hnew.
  - unfold placement in *. fold newPath in Hbase. rewrite Hbase. reflexivity.
Qed.

Lemma organizeFile_twice_witness :
  fst (FileOrganizer.organizeFile
         (String.append
            (FileOrganizer.generatePath (Crypto.sha256 (ascii_bytes "abc"))
               settings2)
            (String.append "/" (NodePath.basename "Attachments/a.txt")))
         settings2
         (snd (FileOrganizer.organizeFile "Attachments/a.txt" settings2
                 looseVault)))
  = Returned tt.
Proof.
  refine (f_equal fst
            (organizeFile_twice "Attachments/a.txt" settings2 looseVault
               (snd (FileOrganizer.organizeFile "Attachments/a.txt" settings2
                       looseVault))
               "a.txt" (ascii_bytes "abc") _ _)).
  - reflexivity.
  - vm_compute. reflexivity.
Defined.

(** * A path names one node *)

Lemma split_slash_aux_nonempty (s cur : string) : JS.split_slash_aux s cur <> [].
Proof.
  revert cur. induction s as [|c s IH]; intros cur; simpl; [discriminate|].
  destruct (Ascii.eqb c "/"); [discriminate | apply IH].
Qed.

Lemma join_cons (sep p : string) (rest : list string) :
  rest <> [] ->
  JS.join sep (p :: rest)
  = String.append p (String.append sep (JS.join sep rest)).
Proof. destruct rest; [contradiction | reflexivity]. Qed.

Lemma join_split_aux (s : string) :
  forall cur, JS.join "/" (JS.split_slash_aux s cur) = String.append cur s.
Proof.
  induction s as [|c s IH]; intros cur; simpl.
  - now rewrite append_empty_r.
  - destruct (Ascii.eqb_spec c "/"%char) as [->|Hc].
    + rewrite join_cons by apply split_slash_aux_nonempty.
      now rewrite IH.
    + rewrite IH, append_assoc. reflexivity.
Qed.

(** [parts.join("/")] undoes [s.split("/")]. *)
Lemma join_split (s : string) : JS.join "/" (JS.split_slash s) = s.
Proof. unfold JS.split_slash. now rewrite join_split_aux. Qed.

Lemma path_segments_inj (p q : string) :
  Vault.segments p = Vault.segments q -> p = q.
Proof.
  unfold Vault.segments.
  destruct (String.eqb_spec p "/") as [->|Hp];
    destruct (String.eqb_spec q "/") as [->|Hq]; intros H.
  - reflexivity.
  - symmetry in H. now apply split_slash_aux_nonempty in H.
  - now apply split_slash_aux_nonempty in H.
  - rewrite <- (join_split p), <- (join_split q). now rewrite H.
Qed.

(** * What a removal or an addition leaves alone *)

Lemma removeChild_only_touches (name : string) :
  only_touches name (Vault.removeChild name).
Proof.
  intros ch. induction ch as [|c ch IH]; intros ch' t H Ht; simpl in H;
    [discriminate|].
  destruct (String.eqb_spec (Vault.nodeName c) name) as [Heq|Hne].
  - inversion H; subst ch'. simpl. rewrite Heq.
    destruct (String.eqb_spec name t) as [->|_]; [contradiction | reflexivity].
  - destruct (Vault.removeChild name ch) as [rest'|] eqn:Hrem; [|discriminate].
    inversion H; subst ch'. simpl.
    destruct (String.eqb (Vault.nodeName c) t); [reflexivity|].
    now apply IH.
Qed.

Lemma addChild_only_touches (c : node) :
  only_touches (Vault.nodeName c) (Vault.addChild c).
Proof.
  intros ch ch' t H Ht. unfold Vault.addChild in H.
  destruct (Vault.findChild (Vault.nodeName c) ch); [discriminate|].
  destruct (JS.truthy (Vault.nodeName c)); [|discriminate].
  inversion H.
  destruct (Vault.findChild t ch) as [x|] eqn:Hfind.
  - now apply findChild_app_found.
  - rewrite findChild_app_missing by assumption. simpl.
    destruct (String.eqb_spec (Vault.nodeName c) t) as [Heq|_];
      [now symmetry in Heq | reflexivity].
Qed.








(** * The worklist *)

Lemma findChild_some_In (s : string) (l : list node) (c : node) :
  Vault.findChild s l = Some c -> In c l /\ Vault.nodeName c = s.
Proof.
  induction l as [|x l IH]; simpl; [discriminate|].
  destruct (String.eqb_spec (Vault.nodeName x) s) as [Heq|_].
  - intros H. inversion H; subst x. split; [now left | exact Heq].
  - intros H. destruct (IH H). split; [now right | assumption].
Qed.

Lemma getFilesInFolder_loop_In (self : string -> node -> list string)
  (path p : string) (children : list node) :
  In p (FileOrganizer.getFilesInFolder_loop self path children)
  <-> exists c,
        In c children
        /\ match c with
           | TFile fname _ => p = Vault.childPath path fname
           | TFolder cname _ => In p (self (Vault.childPath path cname) c)
           end.
Proof.
  induction children as [|c rest IH]; simpl.
  - split; [intros [] | intros (c & [] & _)].
  - destruct c as [fname data|cname gc]; simpl.
    + rewrite IH. split.
      * intros [<-|(c & Hc & Hp)].
        -- exists (TFile fname data). split; [now left | reflexivity].
        -- exists c. split; [now right | exact Hp].
      * intros (c & [<-|Hc] & Hp).
        -- left. now symmetry.
        -- right. now exists c.
    + rewrite in_app_iff, IH. split.
      * intros [Hp|(c & Hc & Hp)].
        -- exists (TFolder cname gc). split; [now left | exact Hp].
        -- exists c. split; [now right | exact Hp].
      * intros (c & [<-|Hc] & Hp).
        -- now left.
        -- right. now exists c.
Qed.

(** A path is listed exactly when it leads, from the folder, to a file. *)
Lemma getFilesInFolder_In (folder : node) :
  forall path name children p,
    folder = TFolder name children ->
    wellFormedChildren children ->
    In p (FileOrganizer.getFilesInFolder path folder)
    <-> exists names fname data,
          Vault.segments p = Vault.segments path ++ names
          /\ Vault.lookup names folder = Some (TFile fname data).
Proof.
  induction folder as [name0 data0|name0 children0 IH] using node_induction;
    intros path name children p Heq [Hnodup Hwf]; [discriminate|].
  inversion Heq; subst name0 children0. clear Heq.
  cbn [FileOrganizer.getFilesInFolder]. rewrite getFilesInFolder_loop_In.
  rewrite Forall_forall in IH, Hwf.
  split.
  - intros (c & Hc & Hp).
    pose proof (Hwf c Hc) as Hwfc.
    destruct c as [fname data|cname gc].
    + inversion Hwfc as [? ? Hgood|]; subst.
      exists [fname], fname, data. split.
      * now apply segments_childPath.
      * cbn [Vault.lookup].
        pose proof (findChild_In children (TFile fname data) Hnodup Hc) as Hf.
        cbn [Vault.nodeName] in Hf. now rewrite Hf.
    + destruct (wellFormed_folder_inv _ _ Hwfc) as (Hgood & Hwfgc).
      destruct (proj1 (IH _ Hc (Vault.childPath path cname) cname gc p
                         eq_refl Hwfgc) Hp)
        as (names & fname & data & Hsegs & Hlook).
      exists (cname :: names), fname, data. split.
      * rewrite Hsegs, segments_childPath by assumption.
        now rewrite <- app_assoc.
      * cbn [Vault.lookup].
        pose proof (findChild_In children (TFolder cname gc) Hnodup Hc) as Hf.
        cbn [Vault.nodeName] in Hf. now rewrite Hf.
  - intros (names & fname & data & Hsegs & Hlook).
    destruct names as [|s rest]; [discriminate|].
    cbn [Vault.lookup] in Hlook.
    destruct (Vault.findChild s children) as [c|] eqn:Hfind; [|discriminate].
    destruct (findChild_some_In _ _ _ Hfind) as [Hc Hname].
    pose proof (Hwf c Hc) as Hwfc.
    exists c. split; [exact Hc|].
    destruct c as [fname0 data1|cname gc]; cbn [Vault.nodeName] in Hname;
      subst s.
    + destruct rest; [|discriminate].
      inversion Hwfc as [? ? Hgood|]; subst.
      apply path_segments_inj.
      now rewrite Hsegs, segments_childPath.
    + destruct (wellFormed_folder_inv _ _ Hwfc) as (Hgood & Hwfgc).
      apply (IH _ Hc (Vault.childPath path cname) cname gc p eq_refl Hwfgc).
      exists rest, fname, data. split; [|exact Hlook].
      rewrite Hsegs, segments_childPath by assumption.
      now rewrite <- app_assoc.
Qed.

Lemma getFilesInFolder_loop_NoDup (self : string -> node -> list string)
  (path : string) (all : list node) :
  NoDup (map Vault.nodeName all) ->
  Forall wellFormed all ->
  (forall c, In c all -> NoDup (self (Vault.childPath path (Vault.nodeName c)) c)) ->
  (forall c p, In c all ->
               In p (self (Vault.childPath path (Vault.nodeName c)) c) ->
               exists names,
                 Vault.segments p
                 = Vault.segments path ++ Vault.nodeName c :: names) ->
  forall children,
    incl children all ->
    NoDup (map Vault.nodeName children) ->
    NoDup (FileOrganizer.getFilesInFolder_loop self path children).
Proof.
  intros Hnd Hwf Hself Hloc. rewrite Forall_forall in Hwf.
  assert (Hfirst : forall c p,
             In c all ->
             match c with
             | TFile fname _ => p = Vault.childPath path fname
             | TFolder cname _ => In p (self (Vault.childPath path cname) c)
             end ->
             exists names,
               Vault.segments p = Vault.segments path ++ Vault.nodeName c :: names).
  { intros c p Hc Hp. pose proof (Hwf c Hc) as Hwfc.
    destruct c as [fname data|cname gc].
    - inversion Hwfc as [? ? Hgood|]; subst. exists [].
      now apply segments_childPath.
    - now apply (Hloc (TFolder cname gc) p Hc). }
  induction children as [|c rest IH]; intros Hincl Hnames; simpl;
    [apply NoDup_nil|].
  assert (Hc : In c all) by (apply Hincl; now left).
  assert (Hrest : incl rest all) by (intros x Hx; apply Hincl; now right).
  inversion Hnames as [|? ? Hnotin Hnames']; subst.
  assert (Hdisjoint : forall p,
             match c with
             | TFile fname _ => p = Vault.childPath path fname
             | TFolder cname _ => In p (self (Vault.childPath path cname) c)
             end ->
             ~ In p (FileOrganizer.getFilesInFolder_loop self path rest)).
  { intros p Hp Hin. apply getFilesInFolder_loop_In in Hin.
    destruct Hin as (c' & Hc' & Hp').
    destruct (Hfirst c p Hc Hp) as (n1 & H1).
    destruct (Hfirst c' p (Hrest _ Hc') Hp') as (n2 & H2).
    rewrite H1 in H2. apply app_inv_head in H2. injection H2 as Hname _.
    apply Hnotin. rewrite Hname. now apply in_map. }
  destruct c as [fname data|cname gc].
  - apply NoDup_cons; [now apply Hdisjoint | now apply IH].
  - apply NoDup_app.
    + exact (Hself _ Hc).
    + now apply IH.
    + intros p Hp. now apply Hdisjoint.
Qed.

Lemma getFilesInFolder_NoDup (folder : node) :
  forall path name children,
    folder = TFolder name children ->
    wellFormedChildren children ->
    NoDup (FileOrganizer.getFilesInFolder path folder).
Proof.
  induction folder as [name0 data0|name0 children0 IH] using node_induction;
    intros path name children Heq [Hnodup Hwf]; [discriminate|].
  inversion Heq; subst name0 children0. clear Heq.
  cbn [FileOrganizer.getFilesInFolder].
  rewrite Forall_forall in IH.
  apply (getFilesInFolder_loop_NoDup _ path children Hnodup Hwf);
    [| |apply incl_refl|exact Hnodup].
  - intros c Hc. rewrite Forall_forall in Hwf. pose proof (Hwf c Hc) as Hwfc.
    destruct c as [fname data|cname gc]; [apply NoDup_nil|].
    destruct (wellFormed_folder_inv _ _ Hwfc) as (Hgood & Hwfgc).
    now apply (IH _ Hc _ cname gc).
  - intros c p Hc Hp. rewrite Forall_forall in Hwf. pose proof (Hwf c Hc) as Hwfc.
    destruct c as [fname data|cname gc]; [destruct Hp|].
    destruct (wellFormed_folder_inv _ _ Hwfc) as (Hgood & Hwfgc).
    destruct (proj1 (getFilesInFolder_In (TFolder cname gc) _ cname gc p
                       eq_refl Hwfgc) Hp)
      as (names & _ & _ & Hsegs & _).
    exists names. cbn [Vault.nodeName] in *.
    rewrite Hsegs, segments_childPath by assumption.
    now rewrite <- app_assoc.
Qed.

(** X13. The worklist of a batch is exactly the files below the attachment
    folder.  On a well-formed vault a path is in the list that
    [getFilesInFolder] returns if and only if it lies below the folder and
    is the path of a file of the vault, and no path is listed twice. *)
Theorem getFilesInFolder_lists_files (path name : string)
  (children r : list node) :
  Vault.resolve path r = Some (TFolder name children) ->
  wellFormedChildren children ->
  NoDup (FileOrganizer.getFilesInFolder path (TFolder name children))
  /\ forall p,
       In p (FileOrganizer.getFilesInFolder path (TFolder name children))
       <-> exists names fname data,
             Vault.segments p = Vault.segments path ++ names
             /\ Vault.resolve p r = Some (TFile fname data).
Proof.
  intros Hres Hwf. split.
  - now apply (getFilesInFolder_NoDup _ path name children).
  - intros p.
    rewrite (getFilesInFolder_In (TFolder name children) path name children p
               eq_refl Hwf).
    split; intros (names & fname & data & Hsegs & Hlook);
      exists names, fname, data; (split; [exact Hsegs|]).
    + unfold Vault.resolve in *. now rewrite Hsegs, lookup_app, Hres.
    + unfold Vault.resolve in *. now rewrite Hsegs, lookup_app, Hres in Hlook.
Qed.

Lemma getFilesInFolder_lists_files_witness :
  NoDup (FileOrganizer.getFilesInFolder "Attachments"
           (TFolder "Attachments"
              [TFile "a.txt" (Some (ascii_bytes "abc"));
               TFile "b.txt" (Some (ascii_bytes "hello world"))])).
Proof.
  refine (proj1 (getFilesInFolder_lists_files "Attachments" "Attachments"
                   [TFile "a.txt" (Some (ascii_bytes "abc"));
                    TFile "b.txt" (Some (ascii_bytes "hello world"))]
                   (root looseVault) _ _)).
  - reflexivity.
  - solve_wellFormedChildren.
Defined.

(** * The logger registry *)

Lemma logging_has_get (key : string) (m : list (string * nat)) :
  Logging.has key m = true <-> exists v, Logging.get key m = Some v.
Proof.
  induction m as [|[k v] m IH]; simpl.
  - split; [discriminate | intros [v H]; discriminate].
  - destruct (String.eqb k key); simpl.
    + split; [intros _; now exists v | reflexivity].
    + exact IH.
Qed.

Lemma logging_has_In (key : string) (m : list (string * nat)) :
  Logging.has key m = true <-> In key (map fst m).
Proof.
  unfold Logging.has. rewrite existsb_exists. split.
  - intros ([k v] & Hin & Heq). apply String.eqb_eq in Heq. simpl in Heq.
    subst k. now apply (in_map fst) in Hin.
  - intros Hin. apply in_map_iff in Hin. destruct Hin as ([k v] & Hk & Hin).
    simpl in Hk. subst k. exists (key, v). split; [exact Hin|].
    apply String.eqb_refl.
Qed.

Lemma logging_set_new (key : string) (value : nat) (m : list (string * nat)) :
  Logging.has key m = false ->
  Logging.set key value m = m ++ [(key, value)].
Proof.
  induction m as [|[k v] m IH]; simpl; [reflexivity|].
  destruct (String.eqb k key); simpl; [discriminate|].
  intros H. now rewrite IH.
Qed.

Lemma logging_get_last (key : string) (value : nat) (m : list (string * nat)) :
  Logging.has key m = false ->
  Logging.get key (m ++ [(key, value)]) = Some value.
Proof.
  induction m as [|[k v] m IH]; simpl.
  - now rewrite String.eqb_refl.
  - destruct (String.eqb k key); simpl; [discriminate | exact IH].
Qed.

Lemma setLogLevelAt_spec (address : nat) (level : LogLevel)
  (st : Logging.Loggers) :
  Logging.loggers (Logging.setLogLevelAt address level st) = Logging.loggers st
  /\ Logging.globalLogLevel (Logging.setLogLevelAt address level st)
     = Logging.globalLogLevel st
  /\ map Logging.name (Logging.heap (Logging.setLogLevelAt address level st))
     = map Logging.name (Logging.heap st)
  /\ forall i,
       nth_error (Logging.heap (Logging.setLogLevelAt address level st)) i
       = if Nat.eqb i address
         then option_map (Logging.setLogLevel level)
                (nth_error (Logging.heap st) i)
         else nth_error (Logging.heap st) i.
Proof.
  unfold Logging.setLogLevelAt.
  destruct (nth_error (Logging.heap st) address) as [this|] eqn:Hnth.
  - cbn [Logging.loggers Logging.globalLogLevel Logging.heap].
    split; [reflexivity|]. split; [reflexivity|].
    pose proof (nth_error_split _ _ Hnth) as (l1 & l2 & Hheap & Hlen).
    assert (Hfirst : firstn address (Logging.heap st) = l1).
    { rewrite Hheap, <- Hlen. clear. induction l1; simpl; congruence. }
    assert (Hskip : skipn (S address) (Logging.heap st) = l2).
    { rewrite Hheap, <- Hlen. clear. induction l1; simpl; auto. }
    rewrite Hfirst, Hskip. split.
    + rewrite Hheap, !map_app. reflexivity.
    + intros i. destruct (Nat.eqb_spec i address) as [->|Hne].
      * rewrite Hnth, <- Hlen, nth_error_app2, Nat.sub_diag by lia. reflexivity.
      * rewrite Hheap.
        destruct (Nat.ltb_spec i (List.length l1)) as [Hlt|Hge].
        -- now rewrite !nth_error_app1 by assumption.
        -- rewrite !nth_error_app2 by assumption.
           destruct (i - List.length l1) as [|k] eqn:Hk; [lia | reflexivity].
  - split; [reflexivity|]. split; [reflexivity|]. split; [reflexivity|].
    intros i. destruct (Nat.eqb_spec i address) as [->|_]; [|reflexivity].
    now rewrite Hnth.
Qed.

(** Setting the level of the objects at [addresses], one after the other. *)
Lemma setLogLevel_all (level : LogLevel) (addresses : list nat) :
  forall st,
    let st' := fold_left (fun st address => Logging.setLogLevelAt address level st)
                 addresses st in
    Logging.loggers st' = Logging.loggers st
    /\ Logging.globalLogLevel st' = Logging.globalLogLevel st
    /\ map Logging.name (Logging.heap st') = map Logging.name (Logging.heap st)
    /\ forall i this',
         nth_error (Logging.heap st') i = Some this' ->
         exists this,
           nth_error (Logging.heap st) i = Some this
           /\ Logging.name this' = Logging.name this
           /\ (In i addresses -> Logging.logLevel this' = level)
           /\ (~ In i addresses -> this' = this).
Proof.
  induction addresses as [|a rest IH]; intros st st'; subst st'.
  - cbn. split; [reflexivity|]. split; [reflexivity|]. split; [reflexivity|].
    intros i this' H. exists this'. repeat split; tauto.
  - cbn [fold_left].
    destruct (setLogLevelAt_spec a level st) as (Hl & Hg & Hn & Hnth).
    destruct (IH (Logging.setLogLevelAt a level st)) as (Hl' & Hg' & Hn' & Hnth').
    split; [congruence|]. split; [congruence|]. split; [congruence|].
    intros i this' Hi.
    destruct (Hnth' i this' Hi) as (this1 & H1 & Hname1 & Hin1 & Hout1).
    rewrite Hnth in H1.
    destruct (Nat.eqb_spec i a) as [->|Hne].
    + destruct (nth_error (Logging.heap st) a) as [this|]; [|discriminate].
      inversion H1; subst this1. exists this.
      split; [reflexivity|]. split; [exact Hname1|]. split.
      * intros _. destruct (in_dec Nat.eq_dec a rest) as [Hin|Hnot].
        -- now apply Hin1.
        -- rewrite (Hout1 Hnot). reflexivity.
      * intros Hnot. exfalso. apply Hnot. now left.
    + exists this1. split; [exact H1|]. split; [exact Hname1|]. split.
      * intros [Heq|Hin]; [now symmetry in Heq | now apply Hin1].
      * intros Hnot. apply Hout1. intros Hin. apply Hnot. now right.
Qed.

Lemma consistent_initial : Logging.consistent Logging.initial.
Proof.
  unfold Logging.consistent. cbn.
  split; [reflexivity|]. split; [reflexivity|]. split; constructor.
Qed.

Lemma consistent_getLogger (name : string) (st : Logging.Loggers) :
  Logging.consistent st ->
  Logging.consistent (snd (Logging.getLogger name st))
  /\ Logging.globalLogLevel (snd (Logging.getLogger name st))
     = Logging.globalLogLevel st
  /\ exists address this,
       fst (Logging.getLogger name st) = Some address
       /\ nth_error (Logging.heap (snd (Logging.getLogger name st))) address
          = Some this
       /\ Logging.name this = name
       /\ (Logging.has name (Logging.loggers st) = true ->
           snd (Logging.getLogger name st) = st).
Proof.
  intros (Haddr & Hnames & Hnodup & Hlevels).
  unfold Logging.getLogger.
  destruct (Logging.has name (Logging.loggers st)) eqn:Hhas; cbn [negb].
  - cbn [fst snd]. split; [repeat split; assumption|]. split; [reflexivity|].
    destruct (proj1 (logging_has_get _ _) Hhas) as [address Hget].
    assert (Hin : exists this,
               nth_error (Logging.heap st) address = Some this
               /\ Logging.name this = name).
    { clear Hhas Hlevels Hnodup. revert Hget Haddr Hnames.
      generalize (Logging.heap st) as objects.
      generalize (Logging.loggers st) as m.
      assert (Hgen : forall (m : list (string * nat)) (objects : list Logging.LoggerInstance) base,
                 Logging.get name m = Some address ->
                 map snd m = seq base (List.length objects) ->
                 map fst m = map Logging.name objects ->
                 exists this,
                   nth_error objects (address - base) = Some this
                   /\ Logging.name this = name /\ base <= address).
      { induction m as [|[k v] m IH]; intros objects base Hget Haddr Hnames;
          [discriminate|].
        destruct objects as [|o objects]; [discriminate|].
        simpl in *. inversion Haddr as [[Hv Hrest]].
        inversion Hnames as [[Hk Hrest']].
        destruct (String.eqb_spec k name) as [Heq|Hne].
        - inversion Hget; subst. rewrite Nat.sub_diag. exists o.
          repeat split. lia.
        - destruct (IH objects (S base) Hget Hrest Hrest')
            as (this & Hnth & Hname & Hle).
          exists this. replace (address - base) with (S (address - S base)) by lia.
          repeat split; [exact Hnth | exact Hname | lia]. }
      intros m objects Hget Haddr Hnames.
      destruct (Hgen m objects 0 Hget Haddr Hnames) as (this & Hnth & Hname & _).
      rewrite Nat.sub_0_r in Hnth. now exists this. }
    destruct Hin as (this & Hnth & Hname).
    exists address, this. repeat split; assumption.
  - unfold Logging.new_LoggerInstance.
    cbn [fst snd Logging.heap Logging.loggers Logging.globalLogLevel].
    rewrite logging_set_new by exact Hhas.
    split; [|split; [reflexivity|]].
    + unfold Logging.consistent.
      cbn [Logging.heap Logging.loggers Logging.globalLogLevel].
      rewrite !map_app, length_app, seq_app, Haddr, Hnames. cbn.
      split; [reflexivity|]. split; [reflexivity|]. split.
      * rewrite <- Hnames. apply NoDup_app; [exact Hnodup | |].
        -- apply NoDup_cons; [intros [] | apply NoDup_nil].
        -- intros a Ha [<-|[]].
           apply logging_has_In in Ha. congruence.
      * apply Forall_app. split; [exact Hlevels|].
        apply Forall_cons; [reflexivity | apply Forall_nil].
    + exists (List.length (Logging.heap st)),
        (Logging.mkLoggerInstance name (Logging.globalLogLevel st)).
      rewrite logging_get_last by exact Hhas.
      rewrite nth_error_app2, Nat.sub_diag by lia.
      repeat split. discriminate.
Qed.

Lemma consistent_setGlobalLogLevel (level : LogLevel) (st : Logging.Loggers) :
  Logging.consistent st ->
  Logging.consistent (Logging.setGlobalLogLevel level st)
  /\ Logging.globalLogLevel (Logging.setGlobalLogLevel level st) = level
  /\ Logging.loggers (Logging.setGlobalLogLevel level st) = Logging.loggers st.
Proof.
  intros (Haddr & Hnames & Hnodup & Hlevels).
  unfold Logging.setGlobalLogLevel. cbn [Logging.loggers].
  destruct (setLogLevel_all level (map snd (Logging.loggers st))
              (Logging.mkLoggers (Logging.heap st) (Logging.loggers st) level))
    as (Hl & Hg & Hn & Hnth).
  cbn [Logging.heap Logging.loggers Logging.globalLogLevel] in *.
  split; [|split; assumption].
  unfold Logging.consistent. rewrite Hl, Hg.
  assert (Hlen : List.length
                   (Logging.heap
                      (fold_left
                         (fun st0 address => Logging.setLogLevelAt address level st0)
                         (map snd (Logging.loggers st))
                         (Logging.mkLoggers (Logging.heap st) (Logging.loggers st)
                            level)))
                 = List.length (Logging.heap st)).
  { rewrite <- (length_map Logging.name), Hn. apply length_map. }
  split; [now rewrite Hlen|]. split; [now rewrite Hn|]. split; [exact Hnodup|].
  apply Forall_forall. intros this' Hin.
  apply In_nth_error in Hin. destruct Hin as [i Hi].
  destruct (Hnth i this' Hi) as (this & Hthis & _ & Hset & _).
  apply Hset. rewrite Haddr. apply in_seq.
  assert (Hlt : i < List.length (Logging.heap st))
    by (apply nth_error_Some; congruence).
  lia.
Qed.

Lemma consistent_run (calls : list Logging.call) :
  Logging.consistent (Logging.run calls).
Proof.
  unfold Logging.run.
  assert (Hgen : forall st, Logging.consistent st ->
                            Logging.consistent (fold_left Logging.step calls st)).
  { induction calls as [|c calls IH]; intros st Hst; [exact Hst|].
    cbn [fold_left]. apply IH. destruct c as [name|level]; cbn [Logging.step].
    - now apply consistent_getLogger.
    - now apply consistent_setGlobalLogLevel. }
  apply Hgen, consistent_initial.
Qed.

Lemma registry_get_nth (key : string) (address : nat) :
  forall (m : list (string * nat)) (objects : list Logging.LoggerInstance) base,
    Logging.get key m = Some address ->
    map snd m = seq base (List.length objects) ->
    map fst m = map Logging.name objects ->
    exists this,
      nth_error objects (address - base) = Some this
      /\ Logging.name this = key /\ base <= address.
Proof.
  induction m as [|[k v] m IH]; intros objects base Hget Haddr Hnames;
    [discriminate|].
  destruct objects as [|o objects]; [discriminate|].
  simpl in *. injection Haddr as Hv Hrest. injection Hnames as Hk Hrest'.
  destruct (String.eqb_spec k key) as [Heq|Hne].
  - inversion Hget; subst. rewrite Nat.sub_diag. exists o.
    split; [reflexivity|]. split; [reflexivity | lia].
  - destruct (IH objects (S base) Hget Hrest Hrest')
      as (this & Hnth & Hname & Hle).
    exists this. replace (address - base) with (S (address - S base)) by lia.
    split; [exact Hnth|]. split; [exact Hname | lia].
Qed.

Lemma consistent_get (st : Logging.Loggers) (key : string) (address : nat) :
  Logging.consistent st ->
  Logging.get key (Logging.loggers st) = Some address ->
  exists this,
    nth_error (Logging.heap st) address = Some this
    /\ Logging.name this = key
    /\ Logging.logLevel this = Logging.globalLogLevel st.
Proof.
  intros (Haddr & Hnames & _ & Hlevels) Hget.
  destruct (registry_get_nth key address _ _ 0 Hget Haddr Hnames)
    as (this & Hnth & Hname & _).
  rewrite Nat.sub_0_r in Hnth. exists this.
  split; [exact Hnth|]. split; [exact Hname|].
  rewrite Forall_forall in Hlevels. apply Hlevels.
  now apply nth_error_In in Hnth.
Qed.

Lemma last_default {A : Type} (l : list A) (d d' : A) :
  l <> [] -> last l d' = last l d.
Proof.
  induction l as [|a [|b l] IH]; intros H; [contradiction|reflexivity|].
  change (last (b :: l) d' = last (b :: l) d). apply IH. discriminate.
Qed.

(** X14. Every logger follows the global level.  After any sequence of
    [Logger.getLogger] and [Logger.setGlobalLogLevel] calls, every logger
    that exists, whenever it was handed out, has the level set last (or
    [ERROR] when none was set), and the registry holds one logger for each
    name asked for. *)
Theorem loggers_follow_global_level (calls : list Logging.call) :
  let st := Logging.run calls in
  Forall (fun this => Logging.logLevel this = Logging.getGlobalLogLevel st)
    (Logging.heap st)
  /\ NoDup (map Logging.name (Logging.heap st))
  /\ (forall name,
         In (Logging.GetLogger name) calls ->
         exists address this,
           Logging.get name (Logging.loggers st) = Some address
           /\ nth_error (Logging.heap st) address = Some this
           /\ Logging.name this = name)
  /\ Logging.getGlobalLogLevel st
     = last (flat_map (fun c => match c with
                                | Logging.SetGlobalLogLevel level => [level]
                                | Logging.GetLogger _ => []
                                end) calls) ERROR.
Proof.
  intros st.
  pose proof (consistent_run calls) as Hc. fold st in Hc.
  pose proof Hc as (Haddr & Hnames & Hnodup & Hlevels).
  split; [exact Hlevels|]. split; [now rewrite <- Hnames|].
  subst st. unfold Logging.run, Logging.getGlobalLogLevel.
  assert (Hgen : forall st0,
             Logging.consistent st0 ->
             (forall name,
                 (Logging.has name (Logging.loggers st0) = true
                  \/ In (Logging.GetLogger name) calls) ->
                 Logging.has name
                   (Logging.loggers (fold_left Logging.step calls st0)) = true)
             /\ Logging.globalLogLevel (fold_left Logging.step calls st0)
                = last (flat_map (fun c => match c with
                                           | Logging.SetGlobalLogLevel level =>
                                               [level]
                                           | Logging.GetLogger _ => []
                                           end) calls)
                    (Logging.globalLogLevel st0)).
  { clear. induction calls as [|c calls IH]; intros st0 Hst0.
    - cbn. split; [|reflexivity]. intros name [H|[]]. exact H.
    - cbn [fold_left flat_map].
      destruct c as [name0|level]; cbn [Logging.step].
      + destruct (consistent_getLogger name0 st0 Hst0)
          as (Hc1 & Hg1 & address & this & Hfst & _ & _ & _).
        destruct (IH _ Hc1) as [Hhas Hlevel].
        split; [|cbn [app]; now rewrite Hlevel, Hg1].
        intros name [H|[H|H]].
        * apply Hhas. left. unfold Logging.getLogger.
          destruct (Logging.has name0 (Logging.loggers st0)) eqn:Hh;
            cbn [negb snd]; [exact H|].
          cbn [Logging.new_LoggerInstance Logging.loggers Logging.heap
                 Logging.globalLogLevel].
          rewrite logging_set_new by exact Hh.
          unfold Logging.has in *. rewrite existsb_app, H. reflexivity.
        * inversion H; subst name0. apply Hhas. left.
          apply logging_has_get. exists address.
          unfold Logging.getLogger in *.
          destruct (negb (Logging.has name (Logging.loggers st0)));
            exact Hfst.
        * apply Hhas. now right.
      + destruct (consistent_setGlobalLogLevel level st0 Hst0)
          as (Hc1 & Hg1 & Hl1).
        destruct (IH _ Hc1) as [Hhas Hlevel].
        split.
        * intros name [H|[H|H]]; [|discriminate|].
          -- apply Hhas. left. now rewrite Hl1.
          -- apply Hhas. now right.
        * rewrite Hlevel, Hg1. cbn [app].
          destruct (flat_map _ calls) as [|x l] eqn:Hl; [reflexivity|].
          change (last (level :: x :: l) (Logging.globalLogLevel st0))
            with (last (x :: l) (Logging.globalLogLevel st0)).
          apply last_default. discriminate. }
  destruct (Hgen Logging.initial consistent_initial) as [Hhas Hlevel].
  split; [|exact Hlevel].
  intros name Hin.
  destruct (proj1 (logging_has_get _ _) (Hhas name (or_intror Hin)))
    as [address Hget].
  destruct (consistent_get _ _ _ Hc Hget) as (this & Hnth & Hname & _).
  now exists address, this.
Qed.

(** X15. [Logger.getLogger] hands out one logger per name.  Whatever was
    called before, it returns a logger with the name asked for; a second
    call with the same name returns the same object and changes nothing;
    and two names never share an object. *)
Theorem getLogger_same_instance (calls : list Logging.call) (name : string) :
  let st := Logging.run calls in
  let st1 := snd (Logging.getLogger name st) in
  (exists address this,
      fst (Logging.getLogger name st) = Some address
      /\ nth_error (Logging.heap st1) address = Some this
      /\ Logging.name this = name)
  /\ Logging.getLogger name st1 = (fst (Logging.getLogger name st), st1)
  /\ forall other,
       fst (Logging.getLogger other st1) = fst (Logging.getLogger name st) ->
       other = name.
Proof.
  intros st st1.
  pose proof (consistent_run calls) as Hc. fold st in Hc.
  destruct (consistent_getLogger name st Hc)
    as (Hc1 & _ & address & this & Hfst & Hnth & Hname & _).
  fold st1 in Hc1, Hnth.
  assert (Hget : Logging.get name (Logging.loggers st1) = Some address).
  { rewrite <- Hfst. reflexivity. }
  assert (Hhas : Logging.has name (Logging.loggers st1) = true).
  { apply logging_has_get. now exists address. }
  split; [now exists address, this|]. split.
  - unfold Logging.getLogger at 1. rewrite Hhas. cbn [negb].
    now rewrite Hget, Hfst.
  - intros other Hother. rewrite Hfst in Hother.
    destruct (consistent_getLogger other st1 Hc1)
      as (Hc2 & _ & address' & this' & Hfst' & Hnth' & Hname' & Hsame).
    rewrite Hother in Hfst'. inversion Hfst'; subst address'.
    assert (Hget' : Logging.get other
                      (Logging.loggers (snd (Logging.getLogger other st1)))
                    = Some address).
    { rewrite <- Hother. reflexivity. }
    assert (Hget1 : Logging.get name
                      (Logging.loggers (snd (Logging.getLogger other st1)))
                    = Some address).
    { unfold Logging.getLogger.
      destruct (Logging.has other (Logging.loggers st1)) eqn:Hh; cbn [negb snd];
        [exact Hget|].
      cbn [Logging.new_LoggerInstance Logging.loggers Logging.heap
             Logging.globalLogLevel].
      rewrite logging_set_new by exact Hh.
      clear - Hget. induction (Logging.loggers st1) as [|[k v] m IH];
        [discriminate|].
      simpl in *. destruct (String.eqb k name); [exact Hget | now apply IH]. }
    destruct (consistent_get _ _ _ Hc2 Hget') as (o1 & Ho1 & Hn1 & _).
    destruct (consistent_get _ _ _ Hc2 Hget1) as (o2 & Ho2 & Hn2 & _).
    congruence.
Qed.

(** X16. The level of a logger filters nothing.  With the global level at
    [ERROR], the lowest, a registered logger answers "no" to
    [shouldLog(DEBUG)], and its [debug], [info], [warn] and [error] all
    print their line all the same: no method consults the level. *)
Theorem logging_ignores_level (calls : list Logging.call) (name : string)
  (address : nat) (this : Logging.LoggerInstance) (message : string)
  (args : list string) (out : Logging.console) :
  let st := Logging.run (calls ++ [Logging.SetGlobalLogLevel ERROR]) in
  Logging.get name (Logging.loggers st) = Some address ->
  nth_error (Logging.heap st) address = Some this ->
  let line :=
    (String.append "[Folderize:" (String.append name (String.append "] " message)),
     args) in
  Logging.shouldLog DEBUG this = false
  /\ Logging.debug this message args out = out ++ [line]
  /\ Logging.info this message args out = out ++ [line]
  /\ Logging.warn this message args out = out ++ [line]
  /\ Logging.error this message args out = out ++ [line].
Proof.
  intros st Hget Hnth line.
  pose proof (consistent_run (calls ++ [Logging.SetGlobalLogLevel ERROR])) as Hc.
  fold st in Hc.
  destruct (consistent_get _ _ _ Hc Hget) as (this' & Hnth' & Hname & Hlevel).
  rewrite Hnth in Hnth'. inversion Hnth'; subst this'.
  assert (Hglobal : Logging.globalLogLevel st = ERROR).
  { subst st. unfold Logging.run. rewrite fold_left_app. cbn [fold_left Logging.step].
    apply consistent_setGlobalLogLevel.
    change (fold_left Logging.step calls Logging.initial) with (Logging.run calls).
    apply consistent_run. }
  split.
  - unfold Logging.shouldLog. rewrite Hlevel, Hglobal. reflexivity.
  - subst line. unfold Logging.debug, Logging.info, Logging.warn, Logging.error,
      Logging.log. rewrite Hname. repeat split.
Qed.

Lemma logging_ignores_level_witness :
  Logging.shouldLog DEBUG (Logging.mkLoggerInstance "main" ERROR) = false
  /\ Logging.debug (Logging.mkLoggerInstance "main" ERROR) "Organizing" [] []
     = [] ++ [("[Folderize:main] Organizing", [])].
Proof.
  destruct (logging_ignores_level [Logging.GetLogger "main"] "main" 0
              (Logging.mkLoggerInstance "main" ERROR) "Organizing" [] []
              eq_refl eq_refl) as (H1 & H2 & _).
  exact (conj H1 H2).
Defined.

(** * The settings tab *)

Lemma pathDepth_onChange_range (value : string)
  (s : Part000.FolderizeSettings) :
  (1 <= Part000.pathDepth s <= 8)%Z ->
  (1 <= Part000.pathDepth (Part001.pathDepth_onChange value s) <= 8)%Z.
Proof.
  intros H. unfold Part001.pathDepth_onChange.
  destruct (JS.parseInt value) as [num|]; [|exact H].
  destruct (Z.ltb_spec 0 num); destruct (Z.leb_spec num 8); cbn; lia.
Qed.

Lemma older_generatePath_unfolded (checksum : bytes)
  (settings : Part000.FolderizeSettings) :
  Part000.FileOrganizer.generatePath checksum settings
  = String.append (Part000.attachmentPath settings)
      (String.concat EmptyString
         (map (fun seg => String.append "/" seg)
            (map FileOrganizer.hexByte
               (firstn (Z.to_nat (Part000.pathDepth settings)) checksum)))).
Proof.
  unfold Part000.FileOrganizer.generatePath.
  rewrite generatePath_loop_spec, Z.sub_0_r. cbn [app].
  apply join_slash_cons.
Qed.

(** X17. The settings tab keeps the settings usable.  Starting from
    settings with a chunk size of at least 1 and a path depth between 1
    and 8 (the defaults are), whatever is typed or toggled in the tab, in
    any order, the chunk size stays at least 1 and the path depth between
    1 and 8: every checksum is computed to the end, and every file gets a
    folder exactly [pathDepth] levels below the attachment path. *)
Theorem settings_stay_usable (edits : list Part001.edit)
  (s : Part000.FolderizeSettings) :
  (1 <= Part000.chunkSize s)%Z ->
  (1 <= Part000.pathDepth s <= 8)%Z ->
  let s' := fold_left Part001.onChange edits s in
  (1 <= Part000.chunkSize s')%Z
  /\ (1 <= Part000.pathDepth s' <= 8)%Z
  /\ (forall data,
         FileOrganizer.cksum_bytes data (Part000.chunkSize s')
         = Some (Crypto.sha256 data))
  /\ (forall data,
         String.length
           (Part000.FileOrganizer.generatePath (Crypto.sha256 data) s')
         = String.length (Part000.attachmentPath s')
           + 3 * Z.to_nat (Part000.pathDepth s')).
Proof.
  intros Hc Hd s'.
  assert (Hinv : (1 <= Part000.chunkSize s')%Z
                 /\ (1 <= Part000.pathDepth s' <= 8)%Z).
  { subst s'. revert s Hc Hd. induction edits as [|e edits IH]; intros s Hc Hd.
    - cbn. auto.
    - cbn [fold_left]. apply IH.
      + destruct e; cbn [Part001.onChange]; try assumption.
        * now apply chunkSize_onChange_positive.
        * unfold Part001.pathDepth_onChange.
          destruct (JS.parseInt value) as [num|]; [|exact Hc].
          destruct ((0 <? num)%Z && (num <=? 8)%Z); assumption.
      + destruct e; cbn [Part001.onChange]; try assumption.
        * unfold Part000.chunkSize_onChange.
          destruct (JS.parseInt value) as [num|]; [|exact Hd].
          destruct (0 <? num)%Z; assumption.
        * now apply pathDepth_onChange_range. }
  destruct Hinv as [Hc' Hd'].
  split; [exact Hc'|]. split; [exact Hd'|]. split.
  - intros data. now apply cksum_bytes_positive.
  - intros data.
    rewrite older_generatePath_unfolded, length_append, segments_length.
    rewrite length_firstn, sha256_length. lia.
Qed.

Lemma settings_stay_usable_witness :
  (1 <= Part000.pathDepth
          (fold_left Part001.onChange
             [Part001.EditPathDepth "9"; Part001.EditChunkSize "0";
              Part001.EditPathDepth " 3 levels"; Part001.EditChunkSize "-1"]
             Part000.DEFAULT_SETTINGS) <= 8)%Z.
Proof.
  refine (proj1 (proj2 (settings_stay_usable
                          [Part001.EditPathDepth "9"; Part001.EditChunkSize "0";
                           Part001.EditPathDepth " 3 levels";
                           Part001.EditChunkSize "-1"]
                          Part000.DEFAULT_SETTINGS _ _))); cbn; lia.
Defined.

(** * Which files are attachments *)

Lemma prefix_append (a rest : string) :
  String.prefix a (String.append a rest) = true.
Proof.
  induction a as [|c a IH]; simpl; [now destruct rest|].
  destruct (ascii_dec c c); [exact IH | contradiction].
Qed.

Lemma prefix_split (a p : string) :
  String.prefix a p = true -> exists rest, p = String.append a rest.
Proof.
  revert p. induction a as [|c a IH]; intros p H.
  - now exists p.
  - destruct p as [|d p]; [discriminate|]. simpl in H.
    destruct (ascii_dec c d) as [->|]; [|discriminate].
    destruct (IH p H) as [rest ->]. now exists rest.
Qed.

Lemma hive_starts_with_slash (l : bytes) (base : string) :
  exists rest,
    String.append
      (String.concat EmptyString
         (map (fun seg => String.append "/" seg) (map FileOrganizer.hexByte l)))
      (String.append "/" base)
    = String.append "/" rest.
Proof.
  destruct l as [|b l]; cbn [map].
  - now exists base.
  - rewrite concat_empty_cons. cbn [String.append]. eexists. reflexivity.
Qed.

Lemma worklist_below (attachmentPath : string) (folder : node) :
  forall path p,
    path <> EmptyString ->
    path <> "/" ->
    (exists rest, String.append path "/" = String.append attachmentPath
                                              (String.append "/" rest)) ->
    In p (FileOrganizer.getFilesInFolder path folder) ->
    String.prefix (String.append attachmentPath "/") p = true.
Proof.
  induction folder as [name data|name children IH] using node_induction;
    intros path p Hne Hroot [rest Hrest] Hin; [destruct Hin|].
  cbn [FileOrganizer.getFilesInFolder] in Hin.
  apply getFilesInFolder_loop_In in Hin. destruct Hin as (c & Hc & Hp).
  assert (Hchild : forall n,
             Vault.childPath path n
             = String.append (String.append attachmentPath "/")
                 (String.append rest n)).
  { intros n. unfold Vault.childPath.
    destruct (String.eqb_spec path "/"); [contradiction|].
    change (String.append path (String.append "/" n))
      with (String.append path (String.append "/" n)).
    rewrite <- append_assoc, Hrest, !append_assoc. reflexivity. }
  destruct c as [fname data|cname gc].
  - subst p. rewrite Hchild. apply prefix_append.
  - rewrite Forall_forall in IH.
    apply (IH _ Hc (Vault.childPath path cname) p); [| | |exact Hp].
    + intros H. apply (f_equal String.length) in H. revert H.
      unfold Vault.childPath. destruct (String.eqb_spec path "/");
        [contradiction|].
      rewrite length_append. destruct path; [contradiction|]. cbn. lia.
    + intros H. apply (f_equal String.length) in H. revert H.
      unfold Vault.childPath. destruct (String.eqb_spec path "/");
        [contradiction|].
      rewrite !length_append. destruct path; [contradiction|]. cbn. lia.
    + exists (String.append rest (String.append cname "/")).
      rewrite Hchild, !append_assoc. reflexivity.
Qed.

(** X18. The batch and the listener for new files agree on what an
    attachment is.  [isAttachment] accepts the attachment path itself and
    the paths that continue it after a separator, nothing else (a sibling
    whose name merely begins with the attachment path is not one); it
    accepts every file of the worklist of a batch; and it accepts every
    path that a file is moved to, so a file that has been placed is still
    an attachment. *)
Theorem isAttachment_agrees_with_batch (settings : Part000.FolderizeSettings) :
  let attachmentPath := Part000.attachmentPath settings in
  (forall path,
      Part001.isAttachment path settings = true
      <-> path = attachmentPath
          \/ exists rest,
               path = String.append attachmentPath (String.append "/" rest))
  /\ (forall folder p,
         attachmentPath <> EmptyString ->
         attachmentPath <> "/" ->
         In p (Part000.FileOrganizer.getAllFiles attachmentPath folder) ->
         Part001.isAttachment p settings = true)
  /\ (forall checksum file,
         Part001.isAttachment
           (String.append
              (Part000.FileOrganizer.generatePath checksum settings)
              (String.append "/" (NodePath.basename file)))
           settings = true).
Proof.
  intros attachmentPath. split; [|split].
  - intros path. unfold Part001.isAttachment. fold attachmentPath.
    rewrite orb_true_iff, String.eqb_eq. split.
    + intros [H|H]; [right | now left].
      destruct (prefix_split _ _ H) as [rest ->]. exists rest.
      now rewrite append_assoc.
    + intros [H|[rest ->]]; [now right | left].
      rewrite <- append_assoc. apply prefix_append.
  - intros folder p Hne Hroot Hin.
    unfold Part001.isAttachment. fold attachmentPath.
    rewrite (worklist_below attachmentPath folder attachmentPath p Hne Hroot);
      [reflexivity | | exact Hin].
    exists EmptyString. reflexivity.
  - intros checksum file.
    unfold Part001.isAttachment. fold attachmentPath.
    rewrite older_generatePath_unfolded. fold attachmentPath.
    rewrite append_assoc.
    destruct (hive_starts_with_slash
                (firstn (Z.to_nat (Part000.pathDepth settings)) checksum)
                (NodePath.basename file)) as [rest ->].
    rewrite <- append_assoc, prefix_append. reflexivity.
Qed.

(** * The older revision: a file that cannot be read *)

(** X19. In the older revision a file that cannot be read costs nothing
    but messages: [calculateChecksum] logs the fault and throws it again,
    [organizeFile] catches it, logs it, shows a notice and returns; nothing
    is sent to the vault and the vault is unchanged. *)
Theorem older_organizeFile_contains_read_fault (file : string)
  (settings : Part000.FolderizeSettings) (w : world) :
  (forall name data,
      Vault.resolve file (root w) <> Some (TFile name (Some data))) ->
  Part000.FileOrganizer.organizeFile file settings w
  = (Returned tt,
     mkWorld (root w) (undeletable w)
       (trace w
        ++ [Logged DEBUG (OrganizingFile file);
            Logged ERROR (ErrorCalculatingChecksum (ReadFault file));
            Logged ERROR (ErrorOrganizingFile file (ReadFault file));
            Notice (ErrorOrganizingFile file (ReadFault file))])).
Proof.
  intros Hbad.
  unfold Part000.FileOrganizer.organizeFile, try_catch.
  set (w1 := mkWorld (root w) (undeletable w)
               (trace w ++ [Logged DEBUG (OrganizingFile file)])).
  rewrite (bind_returned _ _ w w1 tt) by reflexivity.
  assert (Hsum : Part000.FileOrganizer.calculateChecksum file
                   (Part000.chunkSize settings) w1
                 = (Thrown (ReadFault file),
                    mkWorld (root w) (undeletable w)
                      (trace w1
                       ++ [Logged ERROR
                             (ErrorCalculatingChecksum (ReadFault file))]))).
  { unfold Part000.FileOrganizer.calculateChecksum, try_catch, bind,
      Vault.readBinary.
    change (root w1) with (root w).
    destruct (Vault.resolve file (root w)) as [[name [data|]|name ch]|] eqn:Hres;
      try reflexivity.
    exfalso. exact (Hbad name data eq_refl). }
  rewrite (bind_thrown _ _ w1 _ (ReadFault file) Hsum).
  unfold bind, logger, notice, emit. cbn [root undeletable trace].
  subst w1. cbn [trace]. rewrite <- !app_assoc. reflexivity.
Qed.

Lemma older_organizeFile_contains_read_fault_witness :
  fst (Part000.FileOrganizer.organizeFile "Attachments/bad.bin" oldSettings2
         faultyVault)
  = Returned tt.
Proof.
  refine (f_equal fst
            (older_organizeFile_contains_read_fault "Attachments/bad.bin"
               oldSettings2 faultyVault _)).
  intros name data. vm_compute. discriminate.
Defined.


Lemma older_cleanEmptyDirectories_prunes_witness :
  fst (Part000.DirectoryManager.cleanEmptyDirectories oldSettings2 nestedVault)
  = Returned tt.
Proof.
  refine (proj1 (older_cleanEmptyDirectories_prunes oldSettings2 "Attachments"
                   [TFolder "old" [TFolder "deep" []];
                    TFile "keep.txt" (Some (ascii_bytes "abc"));
                    TFolder "a" [];
                    TFolder "b" [];
                    TFolder "full" [TFile "x.bin" None; TFolder "spare" []]]
                   nestedVault _ _ _)).
  - solve_wellFormedChildren.
  - reflexivity.
  - reflexivity.
Defined.

(** * Pruning and the paths of the files *)


Lemma keeps_files_trans (a b c : list node) :
  keeps_files a b -> keeps_files b c -> keeps_files a c.
Proof. intros Hab Hbc segs n x y H. apply Hbc, Hab, H. Qed.

Lemma extends_keeps_files (r r' : list node) : extends r r' -> keeps_files r r'.
Proof.
  intros Hext segs n a b H.
  destruct (Hext segs n _ H) as (x' & Hx' & _ & _ & Hfile).
  now rewrite Hx', (Hfile eq_refl).
Qed.








(** * A batch places every file *)








(** * The listener for new files *)

(** X22. If [registerEvent] gives back the [EventRef] it is handed, the
    plugin keeps at most one listener for new files: after [onload] and any
    sequence of edits in the settings tab, the vault holds exactly one
    listener of the plugin when auto-organize is on, the one the plugin
    remembers, and none when it is off. *)
Theorem autoOrganize_listens_once
  (registerEvent_returns : Part001.EventRef -> option Part001.EventRef)
  (loaded : Part000.FolderizeSettings) (edits : list Part001.edit) :
  (forall ref, registerEvent_returns ref = Some ref) ->
  let p := fold_left (Part001.edited registerEvent_returns) edits
             (Part001.onload registerEvent_returns loaded) in
  if Part000.enableAutoOrganize (Part001.settings p)
  then exists ref,
         Part001.listeners p = [ref]
         /\ Part001.autoOrganizeEventRef p = Some ref
  else Part001.listeners p = [] /\ Part001.autoOrganizeEventRef p = None.
Proof.
  intros Hret p.
  assert (Hinv : forall q,
             (Part001.autoOrganizeEventRef q = None /\ Part001.listeners q = []
              \/ exists ref,
                   Part001.autoOrganizeEventRef q = Some ref
                   /\ Part001.listeners q = [ref]) ->
             let q' := Part001.applySettings registerEvent_returns q in
             Part001.settings q' = Part001.settings q
             /\ if Part000.enableAutoOrganize (Part001.settings q)
                then exists ref,
                       Part001.listeners q' = [ref]
                       /\ Part001.autoOrganizeEventRef q' = Some ref
                else Part001.listeners q' = []
                     /\ Part001.autoOrganizeEventRef q' = None).
  { intros q Hq q'. subst q'. unfold Part001.applySettings.
    destruct (Part000.enableAutoOrganize (Part001.settings q)).
    - unfold Part001.registerAutoOrganize.
      destruct Hq as [[Hnone Hl]|(ref & Hsome & Hl)].
      + rewrite Hnone. cbn. rewrite Hret, Hl. split; [reflexivity|].
        now exists (Part001.nextRef q).
      + rewrite Hsome. split; [reflexivity|]. now exists ref.
    - unfold Part001.unregisterAutoOrganize.
      destruct Hq as [[Hnone Hl]|(ref & Hsome & Hl)].
      + rewrite Hnone. auto.
      + rewrite Hsome. cbn. rewrite Hl. cbn. rewrite Nat.eqb_refl. auto. }
  assert (Hstate : forall q,
             (if Part000.enableAutoOrganize (Part001.settings q)
              then exists ref,
                     Part001.listeners q = [ref]
                     /\ Part001.autoOrganizeEventRef q = Some ref
              else Part001.listeners q = []
                   /\ Part001.autoOrganizeEventRef q = None) ->
             Part001.autoOrganizeEventRef q = None /\ Part001.listeners q = []
             \/ exists ref,
                  Part001.autoOrganizeEventRef q = Some ref
                  /\ Part001.listeners q = [ref]).
  { intros q Hq. destruct (Part000.enableAutoOrganize (Part001.settings q)).
    - destruct Hq as (ref & Hl & Hr). right. now exists ref.
    - destruct Hq as [Hl Hr]. now left. }
  subst p. revert loaded.
  assert (Hfold : forall q,
             (if Part000.enableAutoOrganize (Part001.settings q)
              then exists ref,
                     Part001.listeners q = [ref]
                     /\ Part001.autoOrganizeEventRef q = Some ref
              else Part001.listeners q = []
                   /\ Part001.autoOrganizeEventRef q = None) ->
             let p := fold_left (Part001.edited registerEvent_returns) edits q in
             if Part000.enableAutoOrganize (Part001.settings p)
             then exists ref,
                    Part001.listeners p = [ref]
                    /\ Part001.autoOrganizeEventRef p = Some ref
             else Part001.listeners p = []
                  /\ Part001.autoOrganizeEventRef p = None).
  { induction edits as [|e edits IH]; intros q Hq; [exact Hq|].
    cbn [fold_left]. apply IH.
    unfold Part001.edited, Part001.saveSettings.
    match goal with
    | |- context [Part001.applySettings _ ?q0] =>
        destruct (Hinv q0 (Hstate q Hq)) as [Hs Hres]
    end.
    rewrite Hs. exact Hres. }
  intros loaded. apply Hfold. unfold Part001.onload.
  match goal with
  | |- context [Part001.applySettings _ ?q0] =>
      destruct (Hinv q0 (or_introl (conj eq_refl eq_refl))) as [Hs Hres]
  end.
  rewrite Hs. exact Hres.
Qed.

Lemma autoOrganize_listens_once_witness :
  Part001.listeners
    (fold_left (Part001.edited (fun ref => Some ref))
       [Part001.EditAutoOrganize true; Part001.EditPathDepth "3";
        Part001.EditAutoOrganize false]
       (Part001.onload (fun ref => Some ref) Part000.DEFAULT_SETTINGS))
  = [].
Proof.
  exact (proj1 (autoOrganize_listens_once (fun ref => Some ref)
                  Part000.DEFAULT_SETTINGS
                  [Part001.EditAutoOrganize true; Part001.EditPathDepth "3";
                   Part001.EditAutoOrganize false]
                  (fun ref => eq_refl))).
Defined.



(** * When a placement goes through *)

(** An update below one name leaves the kind of everything else as it
    was: what was missing is missing, a folder is a folder, a file a
    file. *)
Lemma updateAt_elsewhere (name : string)
  (f : list node -> option (list node)) :
  only_touches name f ->
  forall segs psegs n r r',
    Vault.updateAt psegs f r = Some r' ->
    (forall rest, segs <> psegs ++ name :: rest) ->
    option_map Vault.isFolder (Vault.lookup segs (TFolder n r'))
    = option_map Vault.isFolder (Vault.lookup segs (TFolder n r)).
Proof.
  intros Hf. induction segs as [|s rest IH]; intros psegs n r r' Hup Haway.
  - reflexivity.
  - simpl. destruct psegs as [|s' prest].
    + simpl in Hup.
      assert (Hs : s <> name).
      { intros ->. now apply (Haway rest). }
      now rewrite (Hf _ _ _ Hup Hs).
    + simpl in Hup.
      destruct (updateChild_lookup s' _ (updateAt_step_name prest f) r r' Hup)
        as (c1 & c1' & Hf1 & Hg & Hf1' & Hother).
      destruct (String.eqb_spec s s') as [->|Hne].
      * rewrite Hf1, Hf1'.
        destruct c1 as [name0 data|n1 ch1]; [discriminate|].
        destruct (Vault.updateAt prest f ch1) as [ch1'|] eqn:Hup1;
          [|discriminate].
        inversion Hg; subst c1'.
        apply (IH prest n1 ch1 ch1' Hup1).
        intros rest' ->. now apply (Haway rest').
      * now rewrite (Hother s Hne).
Qed.

Lemma updateAt_succeeds (segs : list string)
  (f : list node -> option (list node)) (name : string) (ch ch' : list node)
  (n : string) (r : list node) :
  Vault.lookup segs (TFolder n r) = Some (TFolder name ch) ->
  f ch = Some ch' ->
  exists r',
    Vault.updateAt segs f r = Some r'
    /\ Vault.lookup segs (TFolder n r') = Some (TFolder name ch').
Proof.
  intros Hl Hf. rewrite (updateAt_at segs f name ch n r Hl), Hf.
  destruct (updateAt_replace segs name ch ch' n r Hl) as (r' & Hup & Hl' & _).
  now exists r'.
Qed.

Lemma findChild_removeChild (s : string) (ch : list node) (x : node) :
  Vault.findChild s ch = Some x -> exists ch', Vault.removeChild s ch = Some ch'.
Proof.
  induction ch as [|c ch IH]; simpl; [discriminate|].
  destruct (String.eqb (Vault.nodeName c) s).
  - intros _. now exists ch.
  - intros H. destruct (IH H) as [ch' ->]. now exists (c :: ch').
Qed.

(** What a path leads to can be taken out of its folder. *)
Lemma remove_succeeds (segs : list string) (n : string) (r : list node)
  (x : node) :
  Vault.lookup segs (TFolder n r) = Some x ->
  segs <> [] ->
  exists r1,
    Vault.updateAt (Vault.parentOf segs) (Vault.removeChild (Vault.nameOf segs)) r
    = Some r1.
Proof.
  intros Hl Hne. destruct (exists_last Hne) as (p & s & ->).
  unfold Vault.parentOf, Vault.nameOf. rewrite removelast_last, last_last.
  rewrite lookup_app in Hl.
  destruct (Vault.lookup p (TFolder n r)) as [f0|] eqn:Hp; [|discriminate].
  destruct f0 as [fname data|fn fch]; simpl in Hl; [discriminate|].
  destruct (Vault.findChild s fch) as [c|] eqn:Hfind; [|discriminate].
  destruct (findChild_removeChild s fch c Hfind) as [ch' Hrm].
  destruct (updateAt_succeeds p _ fn fch ch' n r Hp Hrm) as (r1 & H & _).
  now exists r1.
Qed.

Lemma dirname_scan_name (l tail : list ascii) :
  forallb (fun c => negb (NodePath.isSlash c)) l = true ->
  forall matchedSlash,
    l <> [] \/ matchedSlash = false ->
    NodePath.dirname_scan (l ++ "/"%char :: tail) matchedSlash = Some tail.
Proof.
  induction l as [|a l IH]; intros Hl m Hm.
  - destruct Hm as [Hm| ->]; [contradiction|]. reflexivity.
  - simpl in Hl. apply andb_prop in Hl. destruct Hl as [Ha Hl].
    apply negb_true_iff in Ha. simpl. rewrite Ha. apply IH; auto.
Qed.

(** [path.dirname] of a name inside a folder is the folder. *)
Lemma dirname_append (c : ascii) (rest base : string) :
  NodePath.isSlash c = false ->
  goodName base ->
  NodePath.dirname (String.append (String c rest) (String.append "/" base))
  = String c rest.
Proof.
  intros Hc [Hne Hbase]. unfold NodePath.dirname.
  cbn [String.append list_ascii_of_string].
  rewrite list_ascii_append. cbn [list_ascii_of_string].
  rewrite rev_app_distr. cbn [rev]. rewrite <- app_assoc. cbn [app].
  rewrite dirname_scan_name.
  - rewrite Hc. cbn [andb]. rewrite rev_involutive.
    cbn [string_of_list_ascii]. now rewrite string_of_list_ascii_of_string.
  - now rewrite forallb_rev.
  - left. destruct base as [|b base]; [contradiction|].
    cbn [list_ascii_of_string rev]. intros H. symmetry in H.
    now apply app_cons_not_nil in H.
Qed.

Lemma split_slash_aux_names (names : list string) :
  Forall goodName names ->
  forall a cur,
    JS.split_slash_aux
      (String.append a
         (String.concat EmptyString
            (map (fun seg => String.append "/" seg) names))) cur
    = JS.split_slash_aux a cur ++ names.
Proof.
  induction 1 as [|n names [_ Hn] _ IH]; intros a cur.
  - cbn [map String.concat]. now rewrite append_empty_r, app_nil_r.
  - cbn [map]. rewrite concat_empty_cons. cbn [String.append].
    rewrite split_slash_aux_append. f_equal.
    rewrite IH. now rewrite split_slash_aux_name.
Qed.

Lemma hexByte_goodName (b : byte) : goodName (FileOrganizer.hexByte b).
Proof. destruct b; split; (discriminate || reflexivity). Qed.

Lemma split_generatePath (checksum : bytes) (settings : FolderizeSettings) :
  JS.split_slash (FileOrganizer.generatePath checksum settings)
  = JS.split_slash (attachmentPath settings)
    ++ map FileOrganizer.hexByte
         (firstn (Z.to_nat (pathDepth settings)) checksum).
Proof.
  rewrite generatePath_unfolded. unfold JS.split_slash.
  apply split_slash_aux_names.
  apply Forall_forall. intros x Hx. apply in_map_iff in Hx.
  destruct Hx as (b & <- & _). apply hexByte_goodName.
Qed.

Lemma split_good_first (a : string) :
  Forall goodName (JS.split_slash a) ->
  exists c rest, a = String c rest /\ NodePath.isSlash c = false.
Proof.
  destruct a as [|c rest]; unfold JS.split_slash; simpl; intros H.
  - inversion H as [|? ? [Hne _] _]. contradiction.
  - unfold NodePath.isSlash. destruct (Ascii.eqb c "/") eqn:Hc.
    + inversion H as [|? ? [Hne _] _]. contradiction.
    + now exists c, rest.
Qed.

(** The path [mkdirs] builds next leads one name further. *)
Lemma next_path (cur part : string) (done : list string) :
  goodName part ->
  cur = EmptyString /\ done = [] \/ cur <> EmptyString /\ JS.split_slash cur = done ->
  let cur' := if JS.truthy cur
              then String.append cur (String.append "/" part)
              else part in
  cur' <> EmptyString
  /\ JS.split_slash cur' = done ++ [part]
  /\ Vault.segments cur' = done ++ [part].
Proof.
  intros Hgood Hcur cur'. pose proof Hgood as [Hne Hpart].
  destruct Hcur as [[-> ->]|[Hcur Hsplit]].
  - subst cur'. cbn [JS.truthy app]. split; [exact Hne|].
    assert (Hs : JS.split_slash part = [part]).
    { unfold JS.split_slash. now rewrite split_slash_aux_name. }
    split; [exact Hs|]. unfold Vault.segments.
    destruct (String.eqb_spec part "/") as [Heq|_]; [|exact Hs].
    now destruct (goodName_not_root part Hgood).
  - destruct cur as [|c0 cur0]; [contradiction|].
    subst cur'. cbn [JS.truthy].
    assert (Hnr : String.append (String c0 cur0) (String.append "/" part)
                  <> "/").
    { intros H. apply (f_equal String.length) in H.
      rewrite !length_append in H. simpl in H. lia. }
    pose proof (segments_append (String c0 cur0) part Hpart) as Hs.
    apply String.eqb_neq in Hnr. rewrite Hnr in Hs. rewrite Hsplit in Hs.
    split; [discriminate|]. split; [|exact Hs].
    unfold Vault.segments in Hs. now rewrite Hnr in Hs.
Qed.

Lemma createFolder_returns (path : string) (w : world) (psegs : list string)
  (nm : string) (r' : list node) :
  Vault.segments path = psegs ++ [nm] ->
  Vault.updateAt psegs (Vault.addChild (TFolder nm [])) (root w) = Some r' ->
  Vault.createFolder path w
  = (Returned tt,
     mkWorld r' (undeletable w) (trace w ++ [Issued (CreateFolder path)])).
Proof.
  intros Hsegs Hup.
  unfold Vault.createFolder, bind, emit, getRoot, throw, setRoot.
  cbn [root undeletable trace]. rewrite Hsegs.
  destruct (psegs ++ [nm]) as [|s l] eqn:Heq.
  - symmetry in Heq. now apply app_cons_not_nil in Heq.
  - rewrite <- Heq. unfold Vault.parentOf, Vault.nameOf.
    now rewrite removelast_last, last_last, Hup.
Qed.

Lemma firstn_prefix_dec (a segs : list string) :
  (exists rest, segs = a ++ rest) \/ (forall rest, segs <> a ++ rest).
Proof.
  destruct (list_eq_dec string_dec (firstn (List.length a) segs) a) as [Heq|Hne].
  - left. exists (skipn (List.length a) segs).
    rewrite <- Heq at 1. symmetry. apply firstn_skipn.
  - right. intros rest ->. apply Hne.
    rewrite firstn_app, Nat.sub_diag, firstn_O, app_nil_r. apply firstn_all.
Qed.

(** [mkdirs] goes through when no name on the way is taken by a file: it
    returns, the whole path leads to a folder afterwards, and nothing else
    has appeared. *)
Lemma mkdirs_loop_succeeds (parts : list string) :
  Forall goodName parts ->
  forall (cur : string) (done : list string) (w : world) (fname : string)
         (fch : list node),
    cur = EmptyString /\ done = [] \/ cur <> EmptyString /\ JS.split_slash cur = done ->
    Vault.lookup done (TFolder EmptyString (root w)) = Some (TFolder fname fch) ->
    (forall k,
        option_map Vault.isFolder
          (Vault.lookup (done ++ firstn k parts) (TFolder EmptyString (root w)))
        <> Some false) ->
    exists w' name' ch',
      DirectoryManager.mkdirs_loop parts cur w = (Returned tt, w')
      /\ Vault.lookup (done ++ parts) (TFolder EmptyString (root w'))
         = Some (TFolder name' ch')
      /\ forall segs,
           (forall k, segs <> done ++ firstn k parts) ->
           Vault.lookup segs (TFolder EmptyString (root w)) = None ->
           Vault.lookup segs (TFolder EmptyString (root w')) = None.
Proof.
  induction 1 as [|part rest Hgood Hrest IH];
    intros cur done w fname fch Hcur Hdone Hway.
  - exists w, fname, fch. rewrite app_nil_r. simpl. auto.
  - rewrite mkdirs_loop_step.
    destruct (next_path cur part done Hgood Hcur) as (Hne' & Hsplit' & Hsegs').
    set (cur' := if JS.truthy cur
                 then String.append cur (String.append "/" part)
                 else part) in *.
    unfold Vault.resolve. rewrite Hsegs'.
    destruct (Vault.lookup (done ++ [part]) (TFolder EmptyString (root w)))
      as [x|] eqn:Hx.
    + pose proof (Hway 1) as H1. cbn [firstn] in H1. rewrite Hx in H1.
      destruct x as [xn xd|xn xch]; [now destruct H1|].
      destruct (IH cur' (done ++ [part]) w xn xch) as (w' & n' & ch' & Hrun & Hl & Hnone).
      * right. now split.
      * exact Hx.
      * intros k. rewrite <- app_assoc. apply (Hway (S k)).
      * exists w', n', ch'. split; [exact Hrun|]. split.
        { now rewrite <- app_assoc in Hl. }
        intros segs Hsegs. apply Hnone. intros k. rewrite <- app_assoc.
        apply (Hsegs (S k)).
    + assert (Hfind : Vault.findChild part fch = None).
      { rewrite lookup_app, Hdone in Hx. simpl in Hx.
        now destruct (Vault.findChild part fch). }
      assert (Hadd : Vault.addChild (TFolder part []) fch
                     = Some (fch ++ [TFolder part []])).
      { unfold Vault.addChild. cbn [Vault.nodeName]. rewrite Hfind.
        destruct Hgood as [Hp _]. destruct part; [contradiction|reflexivity]. }
      destruct (updateAt_succeeds done _ fname fch _ EmptyString (root w)
                  Hdone Hadd) as (r1 & Hup & Hdone1).
      rewrite (createFolder_returns cur' w done part r1 Hsegs' Hup).
      set (w1 := mkWorld r1 (undeletable w)
                   (trace w ++ [Issued (CreateFolder cur')])).
      assert (Hnew : Vault.lookup (done ++ [part]) (TFolder EmptyString (root w1))
                     = Some (TFolder part [])).
      { cbn [root w1]. rewrite lookup_app, Hdone1. simpl.
        rewrite (findChild_app_missing part fch _ Hfind). simpl.
        now rewrite String.eqb_refl. }
      destruct (IH cur' (done ++ [part]) w1 part []) as (w' & n' & ch' & Hrun & Hl & Hnone).
      * right. now split.
      * exact Hnew.
      * intros k. rewrite lookup_app, Hnew.
        destruct (firstn k rest); simpl; discriminate.
      * exists w', n', ch'. split; [exact Hrun|]. split.
        { now rewrite <- app_assoc in Hl. }
        intros segs Hsegs Hmiss. apply Hnone.
        { intros k. rewrite <- app_assoc. apply (Hsegs (S k)). }
        cbn [root w1].
        destruct (firstn_prefix_dec (done ++ [part]) segs) as [[tail ->]|Haway].
        { rewrite lookup_app.
          change (Vault.lookup (done ++ [part]) (TFolder EmptyString r1))
            with (Vault.lookup (done ++ [part]) (TFolder EmptyString (root w1))).
          rewrite Hnew. destruct tail as [|t tail]; [|reflexivity].
          exfalso. apply (Hsegs 1). cbn [firstn]. now rewrite app_nil_r. }
        pose proof (updateAt_elsewhere part _
                      (addChild_only_touches (TFolder part [])) segs done
                      EmptyString (root w) r1 Hup) as Hk.
        rewrite Hmiss in Hk.
        destruct (Vault.lookup segs (TFolder EmptyString r1)); [|reflexivity].
        exfalso. cbn in Hk.
        assert (Hk' : Some (Vault.isFolder n) = None); [|discriminate].
        apply Hk. intros tail ->. apply (Haway tail).
        now rewrite <- app_assoc.
Qed.

Lemma rename_returns (file newPath : string) (w : world) (nd : node)
  (r1 r2 : list node) :
  Vault.segments file <> [] ->
  Vault.segments newPath <> [] ->
  Vault.resolve file (root w) = Some nd ->
  Vault.updateAt (Vault.parentOf (Vault.segments file))
    (Vault.removeChild (Vault.nameOf (Vault.segments file))) (root w) = Some r1 ->
  Vault.updateAt (Vault.parentOf (Vault.segments newPath))
    (Vault.addChild (Vault.rename_node (Vault.nameOf (Vault.segments newPath)) nd))
    r1 = Some r2 ->
  Vault.rename file newPath w
  = (Returned tt,
     mkWorld r2 (undeletable w) (trace w ++ [Issued (Rename file newPath)])).
Proof.
  intros Hsrc Hdst Hnd Hrm Hadd.
  unfold Vault.rename, bind, emit, getRoot, throw, setRoot.
  cbn [root undeletable trace]. cbv zeta.
  destruct (Vault.segments file) as [|s1 src] eqn:Hs; [contradiction|].
  destruct (Vault.segments newPath) as [|s2 dst] eqn:Hd; [contradiction|].
  now rewrite Hnd, Hrm, Hadd.
Qed.

Lemma mkdirs_run (dir : string) (w : world) :
  DirectoryManager.mkdirs dir w
  = DirectoryManager.mkdirs_loop (JS.split_slash dir) EmptyString
      (mkWorld (root w) (undeletable w)
         (trace w ++ [Logged DEBUG (CreatingDirectoryStructure dir)])).
Proof. reflexivity. Qed.

(** [vault.rename] of a file into a folder that exists and holds nothing
    of that name goes through. *)
Lemma rename_succeeds (file hive base : string) (w : world) (name : string)
  (data : option bytes) (hname : string) (hch : list node) :
  goodName base ->
  hive <> EmptyString ->
  Vault.resolve file (root w) = Some (TFile name data) ->
  Vault.lookup (JS.split_slash hive) (TFolder EmptyString (root w))
  = Some (TFolder hname hch) ->
  Vault.resolve (String.append hive (String.append "/" base)) (root w) = None ->
  exists w',
    Vault.rename file (String.append hive (String.append "/" base)) w
    = (Returned tt, w').
Proof.
  intros Hgood Hhive Hfile Hdir Hfree. pose proof Hgood as [Hbne Hbase].
  set (newPath := String.append hive (String.append "/" base)) in *.
  assert (Hsegs : Vault.segments newPath = JS.split_slash hive ++ [base]).
  { pose proof (segments_append hive base Hbase) as Hs. fold newPath in Hs.
    destruct (String.eqb_spec newPath "/") as [Heq|_]; [|exact Hs].
    apply (f_equal String.length) in Heq. unfold newPath in Heq.
    rewrite !length_append in Heq. simpl in Heq.
    destruct hive; [contradiction|]. destruct base; [contradiction|].
    simpl in Heq. lia. }
  unfold Vault.resolve in Hfile, Hfree. rewrite Hsegs in Hfree.
  assert (Hsrc : Vault.segments file <> []).
  { intros H. rewrite H in Hfile. discriminate. }
  assert (Hthrough : forall rest, JS.split_slash hive <> Vault.segments file ++ rest).
  { intros rest H. rewrite H, lookup_app, Hfile in Hdir.
    destruct rest; discriminate. }
  assert (Hthrough' : forall rest,
             JS.split_slash hive ++ [base] <> Vault.segments file ++ rest).
  { intros rest H. destruct rest as [|t rest] using rev_ind.
    - rewrite app_nil_r in H. rewrite <- H, Hfree in Hfile. discriminate.
    - rewrite app_assoc in H. apply app_inj_tail in H.
      now apply (Hthrough rest). }
  destruct (remove_succeeds _ _ _ _ Hfile Hsrc) as [r1 Hrm].
  assert (Haway : forall segs,
             (forall rest, segs <> Vault.segments file ++ rest) ->
             option_map Vault.isFolder (Vault.lookup segs (TFolder EmptyString r1))
             = option_map Vault.isFolder
                 (Vault.lookup segs (TFolder EmptyString (root w)))).
  { intros segs Hs.
    apply (updateAt_elsewhere _ _
             (removeChild_only_touches (Vault.nameOf (Vault.segments file)))
             segs _ EmptyString (root w) r1 Hrm).
    intros rest H. apply (Hs rest). rewrite H.
    unfold Vault.parentOf, Vault.nameOf.
    rewrite (app_removelast_last EmptyString Hsrc) at 3.
    now rewrite <- app_assoc. }
  pose proof (Haway _ Hthrough) as Hk1. rewrite Hdir in Hk1.
  destruct (Vault.lookup (JS.split_slash hive) (TFolder EmptyString r1))
    as [[xn xd|n1 ch1]|] eqn:Hdir1; try discriminate.
  pose proof (Haway _ Hthrough') as Hk2. rewrite Hfree in Hk2.
  rewrite lookup_app, Hdir1 in Hk2. simpl in Hk2.
  assert (Hfind : Vault.findChild base ch1 = None).
  { destruct (Vault.findChild base ch1); [discriminate|reflexivity]. }
  assert (Hadd : Vault.addChild (Vault.rename_node base (TFile name data)) ch1
                 = Some (ch1 ++ [Vault.rename_node base (TFile name data)])).
  { unfold Vault.addChild. rewrite rename_node_name, Hfind.
    destruct base; [contradiction|reflexivity]. }
  destruct (updateAt_succeeds _ _ n1 ch1 _ EmptyString r1 Hdir1 Hadd)
    as (r2 & Hup & _).
  eexists. apply (rename_returns file newPath w (TFile name data) r1 r2).
  - exact Hsrc.
  - rewrite Hsegs. intros H. symmetry in H. now apply app_cons_not_nil in H.
  - exact Hfile.
  - exact Hrm.
  - rewrite Hsegs. unfold Vault.parentOf, Vault.nameOf.
    now rewrite removelast_last, last_last.
Qed.

(** X24. When a placement goes through.  The file can be read, its name is
    not empty, the attachment path is made of proper names, no folder on
    the way to the place its content asks for is taken by a file, and
    nothing is at that place yet: then [organizeFile] returns, and the file
    with its content is at that place. *)
Theorem organizeFile_goes_through (file : string)
  (settings : FolderizeSettings) (w : world) (name : string) (data : bytes) :
  Vault.resolve file (root w) = Some (TFile name (Some data)) ->
  NodePath.basename file <> EmptyString ->
  Forall goodName (JS.split_slash (attachmentPath settings)) ->
  (forall k a b,
      Vault.lookup
        (firstn k
           (JS.split_slash
              (FileOrganizer.generatePath (Crypto.sha256 data) settings)))
        (TFolder EmptyString (root w))
      <> Some (TFile a b)) ->
  Vault.resolve
    (String.append (FileOrganizer.generatePath (Crypto.sha256 data) settings)
       (String.append "/" (NodePath.basename file)))
    (root w) = None ->
  exists w',
    FileOrganizer.organizeFile file settings w = (Returned tt, w')
    /\ Vault.resolve
         (String.append (FileOrganizer.generatePath (Crypto.sha256 data) settings)
            (String.append "/" (NodePath.basename file)))
         (root w')
       = Some (TFile (NodePath.basename file) (Some data)).
Proof.
  intros Hfile Hbase HA Hway Hfree.
  set (hive := FileOrganizer.generatePath (Crypto.sha256 data) settings) in *.
  set (base := NodePath.basename file) in *.
  assert (Hgood : goodName base).
  { split; [exact Hbase | apply basename_no_slash]. }
  destruct (split_good_first _ HA) as (c & rest & HAeq & Hc).
  assert (Hhive : exists rest', hive = String c rest').
  { unfold hive. rewrite generatePath_unfolded, HAeq. cbn [String.append].
    now eexists. }
  destruct Hhive as [rest' Hhive].
  assert (Hparts : Forall goodName (JS.split_slash hive)).
  { unfold hive. rewrite split_generatePath. apply Forall_app. split; [exact HA|].
    apply Forall_forall. intros x Hx. apply in_map_iff in Hx.
    destruct Hx as (b & <- & _). apply hexByte_goodName. }
  assert (Hne : file <> String.append hive (String.append "/" base)).
  { intros Heq. rewrite <- Heq, Hfile in Hfree. discriminate. }
  assert (Hdirname : NodePath.dirname (String.append hive (String.append "/" base))
                     = hive).
  { rewrite Hhive. now apply dirname_append. }
  assert (Hrun : exists w',
             FileOrganizer.organizeFile file settings w = (Returned tt, w')).
  { rewrite (organizeFile_readable file settings w name data Hfile).
    unfold placement. fold hive base.
    apply String.eqb_neq in Hne. rewrite Hne. rewrite Hdirname, mkdirs_run.
    set (w1 := mkWorld _ _ (_ ++ [Logged DEBUG (CreatingDirectoryStructure hive)])).
    destruct (mkdirs_loop_succeeds (JS.split_slash hive) Hparts EmptyString []
                w1 EmptyString (root w))
      as (w2 & hname & hch & Hmk & Hdir & Hnone).
    - now left.
    - reflexivity.
    - intros k. cbn [app root w1].
      destruct (Vault.lookup (firstn k (JS.split_slash hive))
                  (TFolder EmptyString (root w))) as [[a b|a b]|] eqn:Hl;
        try discriminate.
      now destruct (Hway k a b).
    - rewrite Hmk. cbn [app] in Hdir.
      pose proof (mkdirs_loop_spec (JS.split_slash hive) EmptyString w1)
        as (_ & Hext & _).
      rewrite Hmk in Hext. cbn [snd root w1] in Hext.
      destruct (rename_succeeds file hive base w2 name (Some data) hname hch)
        as [w3 Hren].
      + exact Hgood.
      + rewrite Hhive. discriminate.
      + now apply (extends_file _ _ _ _ _ Hext).
      + exact Hdir.
      + unfold Vault.resolve in *.
        apply Hnone; [|exact Hfree].
        intros k H. cbn [app] in H.
        apply (f_equal (@List.length string)) in H.
        pose proof (segments_append hive base (proj2 Hgood)) as Hs.
        destruct (String.eqb_spec (String.append hive (String.append "/" base)) "/")
          as [Heq|_].
        { rewrite Hhive in Heq. cbn in Heq. inversion Heq as [[Hc' Hr]].
          destruct rest'; discriminate. }
        rewrite Hs, length_app, length_firstn in H. simpl in H. lia.
      + rewrite Hren. unfold logger, emit. now eexists. }
  destruct Hrun as [w' Hrun]. exists w'. split; [exact Hrun|].
  exact (proj1 (organizeFile_arrives file settings w w' name data Hfile Hrun)).
Qed.

Lemma organizeFile_goes_through_witness :
  exists w',
    FileOrganizer.organizeFile "Attachments/a.txt" settings2 looseVault
    = (Returned tt, w')
    /\ Vault.resolve
         (String.append
            (FileOrganizer.generatePath (Crypto.sha256 (ascii_bytes "abc"))
               settings2)
            (String.append "/" (NodePath.basename "Attachments/a.txt")))
         (root w')
       = Some (TFile (NodePath.basename "Attachments/a.txt")
                 (Some (ascii_bytes "abc"))).
Proof.
  apply (organizeFile_goes_through "Attachments/a.txt" settings2 looseVault
           "a.txt" (ascii_bytes "abc")).
  - reflexivity.
  - discriminate.
  - repeat constructor; discriminate.
  - intros k a b.
    replace (FileOrganizer.generatePath (Crypto.sha256 (ascii_bytes "abc"))
               settings2) with "Attachments/ba/78" by (vm_compute; reflexivity).
    destruct k as [|[|[|k]]]; vm_compute; discriminate.
  - vm_compute. reflexivity.
Defined.

(** * Contents are moved, never copied or lost *)























(** * Pruning again and again *)

Lemma pruned_empty_folder (name : string) (children : list node) :
  Spec.isEmpty (TFolder name children) = true ->
  Spec.pruned (TFolder name children) = true ->
  children = [].
Proof.
  destruct children as [|c rest]; [reflexivity|]. simpl. intros He Hp.
  apply andb_prop in He. destruct He as [He _].
  apply andb_prop in Hp. destruct Hp as [Hp _].
  rewrite He in Hp. discriminate.
Qed.

Lemma removeEmptyFolders_loop_advances (path : string) (all : list node) :
  Forall walk_advances all ->
  forall (n : nat) (children : list node) (count : nat),
    List.length children <= n ->
    incl children all ->
    let wk := DirectoryManager.removeEmptyFolders_loop
                (DirectoryManager.removeEmptyFolders []) [] path children count in
    exists m,
      snd wk = Returned (count + m)
      /\ list_sum (map folders (fst (fst wk))) + m
         = list_sum (map folders children)
      /\ (forallb (fun c => negb (Spec.isEmpty c) && Spec.pruned c) children = false ->
          1 <= m)
      /\ (forallb (fun c => negb (Spec.isEmpty c) && Spec.pruned c) children = true ->
          m = 0 /\ fst wk = (children, [])).
Proof.
  intros Hall. rewrite Forall_forall in Hall.
  induction n as [|n IH]; intros children count Hlen Hincl.
  - destruct children; [|simpl in Hlen; lia].
    exists 0. cbn. rewrite Nat.add_0_r. repeat split; discriminate.
  - destruct children as [|child rest].
    { exists 0. cbn. rewrite Nat.add_0_r. repeat split; discriminate. }
    assert (Hchild : In child all) by (apply Hincl; now left).
    assert (Hrest : incl rest all) by (intros x Hx; apply Hincl; now right).
    simpl in Hlen.
    destruct child as [fname data|cname grandchildren].
    + cbn [DirectoryManager.removeEmptyFolders_loop].
      destruct (IH rest count ltac:(lia) Hrest) as (m & Hr & Hsum & Hpos & Hzero).
      destruct (DirectoryManager.removeEmptyFolders_loop _ [] path rest count)
        as [[rest' evs] r].
      cbn [fst snd] in *. exists m. split; [exact Hr|]. split.
      { cbn [map folders] in *; unfold list_sum in *; cbn [map fold_right] in *; lia. }
      cbn [forallb Spec.isEmpty Spec.pruned negb andb]. split; [exact Hpos|].
      intros H. destruct (Hzero H) as [Hm Heq]. split; [exact Hm|].
      now inversion Heq.
    + cbn [DirectoryManager.removeEmptyFolders_loop].
      destruct (Hall _ Hchild (Vault.childPath path cname) cname grandchildren
                  eq_refl) as (n1 & Hr1 & Hsum1 & Hpos1 & Hzero1).
      destruct (DirectoryManager.removeEmptyFolders []
                  (Vault.childPath path cname) (TFolder cname grandchildren))
        as [[grandchildren' evs1] r1].
      cbn [fst snd] in Hr1, Hsum1, Hzero1. subst r1.
      assert (Hkept : Spec.pruned (TFolder cname grandchildren) = true ->
                      Spec.isEmpty (TFolder cname grandchildren) = false ->
                      n1 = 0 /\ evs1 = [] /\ grandchildren' = grandchildren
                      /\ grandchildren <> []).
      { intros Hp He. destruct (Hzero1 Hp) as [Hn Heq]. inversion Heq.
        repeat split; auto. intros ->. subst. discriminate. }
      assert (Hhead : forall b,
                 (negb (Spec.isEmpty (TFolder cname grandchildren))
                  && Spec.pruned (TFolder cname grandchildren)) && b = true ->
                 n1 = 0 /\ evs1 = [] /\ grandchildren' = grandchildren
                 /\ grandchildren <> [] /\ b = true).
      { intros b H. apply andb_prop in H. destruct H as [H Hb].
        apply andb_prop in H. destruct H as [He Hp].
        apply negb_true_iff in He.
        destruct (Hkept Hp He) as (H1 & H2 & H3 & H4). auto. }
      destruct grandchildren' as [|g grandchildren'].
      * cbn [existsb].
        destruct rest as [|skipped rest].
        -- cbn [fst snd]. exists (n1 + 1). split; [f_equal; lia|]. split.
           { cbn [map folders] in *; unfold list_sum in *; cbn [map fold_right] in *; lia. }
           split; [lia|]. cbn [forallb]. intros H.
           destruct (Hhead _ H) as (_ & _ & H3 & H4 & _). now subst.
        -- simpl in Hlen.
           assert (Hrest' : incl rest all).
           { intros x Hx. apply Hrest. now right. }
           destruct (IH rest (count + n1 + 1) ltac:(lia) Hrest')
             as (m & Hr & Hsum & _ & _).
           destruct (DirectoryManager.removeEmptyFolders_loop _ [] path rest
                       (count + n1 + 1)) as [[rest' evs] r].
           cbn [fst snd] in *. exists (n1 + 1 + m).
           split; [rewrite Hr; f_equal; lia|]. split.
           { cbn [map folders] in *; unfold list_sum in *; cbn [map fold_right] in *; lia. }
           split; [lia|]. cbn [forallb]. intros H.
           destruct (Hhead _ H) as (_ & _ & H3 & H4 & _). now subst.
      * destruct (IH rest (count + n1) ltac:(lia) Hrest)
          as (m & Hr & Hsum & Hpos & Hzero).
        destruct (DirectoryManager.removeEmptyFolders_loop _ [] path rest
                    (count + n1)) as [[rest' evs] r].
        cbn [fst snd] in *. exists (n1 + m).
        split; [rewrite Hr; f_equal; lia|]. split.
        { cbn [map folders] in *; unfold list_sum in *; cbn [map fold_right] in *; lia. }
        cbn [forallb]. split.
        -- intros H. apply andb_false_iff in H. destruct H as [H|H].
           ++ apply andb_false_iff in H. destruct H as [H|H].
              ** apply negb_false_iff in H.
                 destruct (Spec.pruned (TFolder cname grandchildren)) eqn:Hp.
                 --- destruct (Hzero1 eq_refl) as [_ Heq]. inversion Heq; subst.
                     pose proof (pruned_empty_folder _ _ H Hp). discriminate.
                 --- specialize (Hpos1 eq_refl). lia.
              ** specialize (Hpos1 H). lia.
           ++ specialize (Hpos H). lia.
        -- intros H. destruct (Hhead _ H) as (H1 & H2 & H3 & _ & Hb).
           destruct (Hzero Hb) as [Hm Heq]. inversion Heq; subst.
           split; [lia|]. reflexivity.
Qed.

Lemma removeEmptyFolders_advances (folder : node) : walk_advances folder.
Proof.
  induction folder as [name data|name children IH] using node_induction;
    intros path cname gc Heq; [discriminate|].
  inversion Heq; subst cname gc.
  cbn [DirectoryManager.removeEmptyFolders].
  destruct (removeEmptyFolders_loop_advances path children IH
              (List.length children) children 0 (le_n _) (incl_refl _))
    as (m & Hr & Hsum & Hpos & Hzero).
  exists m. cbn [Nat.add] in Hr. repeat split; auto.
  - now apply Hzero.
  - now apply Hzero.
Qed.

Lemma cleanings_add (a b : nat) (attachmentPath : string) :
  forall w,
    cleanings (a + b) attachmentPath w
    = cleanings b attachmentPath (cleanings a attachmentPath w).
Proof. induction a as [|a IH]; intros w; simpl; [reflexivity | apply IH]. Qed.

(** One call on a folder with something to prune leaves fewer folders; one
    call on a pruned folder leaves it as it is. *)
Lemma cleanEmptyDirectories_advances (attachmentPath name : string)
  (children : list node) (w : world) :
  Vault.resolve attachmentPath (root w) = Some (TFolder name children) ->
  undeletable w = [] ->
  let w' := snd (DirectoryManager.cleanEmptyDirectories attachmentPath w) in
  undeletable w' = []
  /\ exists children',
       Vault.resolve attachmentPath (root w') = Some (TFolder name children')
       /\ (Spec.pruned (TFolder name children) = false ->
           list_sum (map folders children') < list_sum (map folders children))
       /\ (Spec.pruned (TFolder name children) = true -> children' = children).
Proof.
  intros Hres Hund w'. subst w'.
  destruct (cleanEmptyDirectories_folder attachmentPath name children w Hres)
    as (_ & Hu & _ & Hlook & _).
  rewrite Hund in *. split; [exact Hu|].
  destruct (removeEmptyFolders_advances (TFolder name children) attachmentPath
              name children eq_refl) as (n & _ & Hsum & Hpos & Hzero).
  eexists. split; [exact Hlook|]. split.
  - intros Hp. specialize (Hpos Hp). lia.
  - intros Hp. destruct (Hzero Hp) as [_ Heq].
    now rewrite Heq.
Qed.

Lemma cleanings_pruned (attachmentPath name : string) (children : list node)
  (j : nat) :
  forall w,
    Vault.resolve attachmentPath (root w) = Some (TFolder name children) ->
    undeletable w = [] ->
    Spec.pruned (TFolder name children) = true ->
    Vault.resolve attachmentPath (root (cleanings j attachmentPath w))
    = Some (TFolder name children).
Proof.
  induction j as [|j IH]; intros w Hres Hund Hp; [exact Hres|].
  cbn [cleanings].
  destruct (cleanEmptyDirectories_advances attachmentPath name children w
              Hres Hund) as (Hu & ch' & Hres' & _ & Hsame).
  rewrite (Hsame Hp) in Hres'. now apply IH.
Qed.

Lemma cleanings_converge (attachmentPath name : string) (m : nat) :
  forall (children : list node) (w : world),
    list_sum (map folders children) <= m ->
    Vault.resolve attachmentPath (root w) = Some (TFolder name children) ->
    undeletable w = [] ->
    exists k children',
      k <= list_sum (map folders children)
      /\ Vault.resolve attachmentPath (root (cleanings k attachmentPath w))
         = Some (TFolder name children')
      /\ undeletable (cleanings k attachmentPath w) = []
      /\ Spec.pruned (TFolder name children') = true.
Proof.
  induction m as [|m IH]; intros children w Hm Hres Hund;
    destruct (Spec.pruned (TFolder name children)) eqn:Hp;
    try (exists 0, children; cbn [cleanings];
         repeat split; auto; lia);
    destruct (cleanEmptyDirectories_advances attachmentPath name children w
                Hres Hund) as (Hu & ch' & Hres' & Hless & _);
    specialize (Hless Hp); [lia|].
  destruct (IH ch' _ ltac:(lia) Hres' Hu) as (k & ch'' & Hk & Hres'' & Hu'' & Hp'').
  exists (S k), ch''. cbn [cleanings]. repeat split; auto. lia.
Qed.

(** X26. Pruning again and again.  One call of [cleanEmptyDirectories] may
    leave empty folders behind, but when the host refuses no deletion,
    repeated calls get there: after at most as many calls as there are
    folders below the attachment folder, no folder below it is empty, the
    attachment folder itself is still there, and every further call leaves
    it as it is. *)
Theorem cleanEmptyDirectories_converges (attachmentPath name : string)
  (children : list node) (w : world) :
  Vault.resolve attachmentPath (root w) = Some (TFolder name children) ->
  undeletable w = [] ->
  exists k children',
    k <= list_sum (map folders children)
    /\ Spec.pruned (TFolder name children') = true
    /\ forall j,
         Vault.resolve attachmentPath
           (root (cleanings (k + j) attachmentPath w))
         = Some (TFolder name children').
Proof.
  intros Hres Hund.
  destruct (cleanings_converge attachmentPath name _ children w (le_n _)
              Hres Hund) as (k & ch' & Hk & Hres' & Hu' & Hp').
  exists k, ch'. split; [exact Hk|]. split; [exact Hp'|].
  intros j. rewrite cleanings_add.
  now apply (cleanings_pruned attachmentPath name ch').
Qed.

Lemma cleanEmptyDirectories_converges_witness :
  exists k children',
    k <= list_sum (map folders [TFolder "a" []; TFolder "b" []])
    /\ Spec.pruned (TFolder "Attachments" children') = true
    /\ forall j,
         Vault.resolve "Attachments"
           (root (cleanings (k + j) "Attachments" siblingsVault))
         = Some (TFolder "Attachments" children').
Proof.
  apply (cleanEmptyDirectories_converges "Attachments" "Attachments"
           [TFolder "a" []; TFolder "b" []] siblingsVault);
    reflexivity.
Defined.
